(** * abort-signal: composition utilities over AbortController / AbortSignal

    A shallow embedding of [src/index.ts] (class [AbortManager]) and
    [src/errors.ts] (class [TimeoutError]).

    The library is a thin layer over platform objects; the platform is
    modelled as an explicit store:
    - a heap of abort signals (a controller and its signal share one
      identifier), each with its [aborted] flag, its [reason] and its list
      of registered 'abort' listeners;
    - the pending timers of [setTimeout], on a logical clock, with the delay
      the host gives them;
    - the listeners registered on other event targets;
    - the cells of the [FinalizationRegistry] objects, whose callbacks no
      engine runs, since nothing retains the registries;
    - a log of the invocations of user callbacks.

    Closures created by the library are defunctionalised: a listener is a
    constructor carrying the variables the closure captures. *)

From Stdlib Require Import ZArith Lia.
From stdpp Require Import base option list strings numbers pretty.

#[local] Set Warnings "-clear-no-such-hyp".

(** ** JavaScript values used as abort reasons *)

(** Identifiers: [sigid] names an AbortController together with its
    AbortSignal, [objid] any other object (event target, host object, error),
    [cbid] a user callback. *)
Abbreviation sigid := nat (only parsing).
Abbreviation objid := nat (only parsing).
Abbreviation cbid := nat (only parsing).

Inductive value : Type :=
| VUndefined
| VStr (s : string)
| VNum (n : Z)
| VObj (o : objid)
| VError (o : objid) (name message : string)   (* an Error instance *)
| VAbortError (o : objid).                     (* DOMException "AbortError" *)

#[global] Instance value_eq_dec : EqDecision value.
Proof. solve_decision. Defined.

(** [errors.ts]: [class TimeoutError extends Error], whose constructor takes
    [message = 'The operation timed out.'] and sets [name]. *)
Definition TimeoutError (o : objid) (message : option string) : value :=
  VError o "TimeoutError"%string
         (default "The operation timed out."%string message).

(** ** Numbers given as durations

    The durations covered are the integers a JavaScript number holds exactly
    ([Number.isSafeInteger]); on these the conversions below are those of
    the language. *)

Definition MAX_SAFE_INTEGER : Z := 9007199254740991.

Definition is_safe_integer (n : Z) : bool :=
  ((- MAX_SAFE_INTEGER <=? n) && (n <=? MAX_SAFE_INTEGER))%Z.

Record number : Type := Number {
  num_val : Z;
  num_safe : is_safe_integer num_val = true
}.

(** [ToString]: a safe integer is printed in decimal digits, with a leading
    minus sign when negative (the exponent form starts at 1e21). *)
Definition number_to_string (n : number) : string := pretty (num_val n).

(** [ToInt32]: the value modulo 2^32, taken in [-2^31, 2^31). *)
Definition ToInt32 (n : number) : Z :=
  ((num_val n + 2147483648) `mod` 4294967296 - 2147483648)%Z.

(** ** Listeners: the closures of [index.ts] *)

Inductive listener : Type :=
| AnyOnAbort (controller : sigid) (signalArray : list sigid)
    (* [function onAbort] of [any] *)
| LifecycleListener (cleanupId : nat) (signal : sigid) (onAbort : cbid)
    (* [eventListener] of [manageLifecycle]; [cleanupId] is the fresh
       Symbol of the call, which also tells the closures of two calls
       apart *)
| FollowOnAbort (controller : sigid) (parentSignal : sigid).
    (* [onAbort] of [follow] *)

#[global] Instance listener_eq_dec : EqDecision listener.
Proof. solve_decision. Defined.

(** The controller a listener aborts when it runs. *)
Definition ctrl (l : listener) : option sigid :=
  match l with
  | AnyOnAbort c _ => Some c
  | LifecycleListener _ _ _ => None
  | FollowOnAbort c _ => Some c
  end.

Record registration : Type := Reg { callback : listener; once : bool }.

Record signal : Type := Signal {
  aborted : bool;
  reason : value;
  listeners : list registration
}.

(** ** The rest of the store *)

(** A pending [setTimeout] of [timeout]: the callback aborts [tm_controller]
    with a [TimeoutError] built from [tm_ms]. *)
Record timer : Type := Timer {
  tm_id : nat; tm_due : Z; tm_controller : sigid; tm_ms : number
}.

(** A listener of [fromEvent] on an event target: [(event) =>
    controller.abort(event)], registered with [{ once: true }]. *)
Record handler : Type := Handler {
  h_target : objid; h_event : string; h_controller : sigid; h_once : bool
}.

(** A cell of the [FinalizationRegistry] of one [manageLifecycle] call: the
    registered host object, the held value, and what the registry callback
    captures ([cleanupId], [signal], [eventListener]). *)
Record finalizer : Type := Finalizer {
  fin_target : objid; fin_held : nat;
  fin_cleanupId : nat; fin_signal : sigid; fin_listener : listener
}.

(** One invocation of a user callback [onAbort(reason)]. [call_via] is the
    [cleanupId] of the listener that made the call, [None] for the
    synchronous call of [manageLifecycle]. *)
Record call : Type := Call {
  call_via : option nat; call_cb : cbid; call_arg : value
}.

Record state : Type := State {
  signals : list signal;
  neverSignal : option sigid;     (* [AbortManager.#neverSignal] *)
  owned : list sigid;             (* controllers the caller holds *)
  timers : list timer;
  handlers : list handler;
  registry : list finalizer;
  calls : list call;
  next_id : nat;                  (* next fresh object / symbol *)
  now : Z                         (* logical clock, in milliseconds *)
}.

Definition init_state : state :=
  State [] None [] [] [] [] [] 0 0.

Definition set_signals (s : list signal) (st : state) : state :=
  State s (neverSignal st) (owned st) (timers st) (handlers st)
        (registry st) (calls st) (next_id st) (now st).
Definition set_neverSignal (n : option sigid) (st : state) : state :=
  State (signals st) n (owned st) (timers st) (handlers st)
        (registry st) (calls st) (next_id st) (now st).
Definition set_owned (o : list sigid) (st : state) : state :=
  State (signals st) (neverSignal st) o (timers st) (handlers st)
        (registry st) (calls st) (next_id st) (now st).
Definition set_timers (t : list timer) (st : state) : state :=
  State (signals st) (neverSignal st) (owned st) t (handlers st)
        (registry st) (calls st) (next_id st) (now st).
Definition set_handlers (h : list handler) (st : state) : state :=
  State (signals st) (neverSignal st) (owned st) (timers st) h
        (registry st) (calls st) (next_id st) (now st).
Definition set_registry (r : list finalizer) (st : state) : state :=
  State (signals st) (neverSignal st) (owned st) (timers st) (handlers st)
        r (calls st) (next_id st) (now st).
Definition set_calls (c : list call) (st : state) : state :=
  State (signals st) (neverSignal st) (owned st) (timers st) (handlers st)
        (registry st) c (next_id st) (now st).
Definition set_now (t : Z) (st : state) : state :=
  State (signals st) (neverSignal st) (owned st) (timers st) (handlers st)
        (registry st) (calls st) (next_id st) t.

(** Allocation of a fresh object or symbol. *)
Definition bump_id (st : state) : state :=
  State (signals st) (neverSignal st) (owned st) (timers st) (handlers st)
        (registry st) (calls st) (S (next_id st)) (now st).

(** ** Reading and writing signals *)

Definition is_aborted (st : state) (x : sigid) : bool :=
  match signals st !! x with Some sg => aborted sg | None => false end.

Definition reason_of (st : state) (x : sigid) : value :=
  match signals st !! x with Some sg => reason sg | None => VUndefined end.

Definition listeners_of (st : state) (x : sigid) : list registration :=
  match signals st !! x with Some sg => listeners sg | None => [] end.

Definition registered (st : state) (x : sigid) (l : listener) : Prop :=
  l ∈ callback <$> listeners_of st x.

#[global] Instance registered_dec st x l : Decision (registered st x l).
Proof. unfold registered. apply _. Defined.

Definition has_listener (st : state) (x : sigid) (l : listener) : bool :=
  bool_decide (registered st x l).

Definition upd_signal (f : signal → signal) (x : sigid) (st : state) : state :=
  set_signals (alter f x (signals st)) st.

Definition set_listeners (ls : list registration) (sg : signal) : signal :=
  Signal (aborted sg) (reason sg) ls.

(** [signal.addEventListener('abort', l, { once })]: a callback already in
    the list is not added again. *)
Definition addEventListener (x : sigid) (l : listener) (o : bool)
    (st : state) : state :=
  if has_listener st x l then st
  else upd_signal (λ sg, set_listeners (listeners sg ++ [Reg l o]) sg) x st.

(** [signal.removeEventListener('abort', l)]. *)
Definition removeEventListener (x : sigid) (l : listener) (st : state) : state :=
  upd_signal
    (λ sg, set_listeners (filter (λ reg, callback reg ≠ l) (listeners sg)) sg)
    x st.

(** The signal becomes aborted: flag and reason are set together. *)
Definition mark_aborted (x : sigid) (r : value) (st : state) : state :=
  upd_signal (λ sg, Signal true r (listeners sg)) x st.

Definition record_call (via : option nat) (cb : cbid) (arg : value)
    (st : state) : state :=
  set_calls (calls st ++ [Call via cb arg]) st.

(** [new AbortController()]. *)
Definition new_controller (st : state) : state * sigid :=
  (set_signals (signals st ++ [Signal false VUndefined []]) st,
   length (signals st)).

(** ** [controller.abort(reason)]

    The platform's algorithm: nothing happens on an aborted signal;
    otherwise the reason is stored ([undefined] is replaced by a new
    "AbortError" DOMException), and the 'abort' event is fired: the
    listeners registered at that moment are run in order, one that has been
    removed in the meantime is skipped, and a [once] listener is removed
    just before it runs.

    A listener may abort another controller, so the algorithm is recursive;
    [fuel] bounds the nesting. *)

Definition abort_reason (st : state) (r : value) : state * value :=
  match r with
  | VUndefined => (bump_id st, VAbortError (next_id st))
  | _ => (st, r)
  end.

Section Listeners.
Variable abort : state → sigid → value → option state.

(** [cleanup] of [any]. *)
Definition any_cleanup (onAbort : listener) (signalArray : list sigid)
    (st : state) : state :=
  foldl (λ cur s, removeEventListener s onAbort cur) st signalArray.

(** The bodies of the three closures; [this] is the signal the event is
    fired on. *)
Definition invoke (this : sigid) (l : listener) (st : state) : option state :=
  match l with
  | AnyOnAbort controller signalArray =>
      st1 ← abort st controller (reason_of st this);
      Some (any_cleanup l signalArray st1)
  | LifecycleListener id sig onAbort =>
      Some (record_call (Some id) onAbort (reason_of st sig) st)
  | FollowOnAbort controller parentSignal =>
      abort st controller (reason_of st parentSignal)
  end.

Fixpoint fire (this : sigid) (snapshot : list registration) (st : state)
    : option state :=
  match snapshot with
  | [] => Some st
  | reg :: rest =>
      if has_listener st this (callback reg) then
        let st1 :=
          if once reg then removeEventListener this (callback reg) st
          else st in
        st2 ← invoke this (callback reg) st1;
        fire this rest st2
      else fire this rest st
  end.
End Listeners.

Fixpoint abort_fuel (fuel : nat) (st : state) (c : sigid) (r : value)
    : option state :=
  match fuel with
  | 0 => None
  | S f =>
      match signals st !! c with
      | None => Some st
      | Some sg =>
          if aborted sg then Some st
          else
            let '(st1, r') := abort_reason st r in
            fire (abort_fuel f) c (listeners sg) (mark_aborted c r' st1)
      end
  end.

(** The number of signals not yet aborted bounds the nesting. *)
Definition live (st : state) : nat :=
  length (filter (λ sg, aborted sg = false) (signals st)).

Definition abort (st : state) (c : sigid) (r : value) : state :=
  default st (abort_fuel (S (live st)) st c r).

(** ** The scheduler

    [setTimeout(cb, ms)] records the callback with its due time on the
    logical clock; the scheduler may run a timer once the clock has reached
    its due time. The delay a host uses is not always the delay asked for:
    - Node.js keeps a delay between 1 and [TIMEOUT_MAX] and replaces any
      other by 1;
    - a browser converts the delay to a 32-bit integer (a [long] of Web IDL)
      and replaces a negative result by 0. *)

Inductive host : Type := Node | Browser.

Definition TIMEOUT_MAX : Z := 2147483647.

Definition delay (h : host) (ms : number) : Z :=
  match h with
  | Node =>
      if bool_decide (1 ≤ num_val ms ≤ TIMEOUT_MAX)%Z then num_val ms else 1%Z
  | Browser => Z.max 0 (ToInt32 ms)
  end.

Definition setTimeout (h : host) (controller : sigid) (ms : number)
    (st : state) : state :=
  set_timers
    (timers st ++ [Timer (next_id st) (now st + delay h ms) controller ms])
    (bump_id st).

(** The template literal [`Signal timed out after ${milliseconds}ms`]. *)
Definition timeout_message (milliseconds : number) : string :=
  ("Signal timed out after " +:+ number_to_string milliseconds +:+ "ms")%string.

(** The callback given to [setTimeout] by [timeout]. *)
Definition timeout_callback (controller : sigid) (milliseconds : number)
    (st : state) : state :=
  abort (bump_id st) controller
        (TimeoutError (next_id st) (Some (timeout_message milliseconds))).

Definition run_timer (id : nat) (st : state) : state :=
  match filter (λ t, tm_id t = id) (timers st) with
  | [] => st
  | t :: _ =>
      if bool_decide (tm_due t ≤ now st)%Z then
        timeout_callback (tm_controller t) (tm_ms t)
          (set_timers (filter (λ t', tm_id t' ≠ id) (timers st)) st)
      else st
  end.

(** ** Event targets

    [target.addEventListener(eventName, listener, { once })] and the
    delivery of an event to a target. [strict] tells whether the target
    drops its [once] listeners on delivery, as a DOM target does; the
    listeners of [fromEvent] never touch the target, so the drop is done up
    front. *)

Definition target_addEventListener (target : objid) (eventName : string)
    (controller : sigid) (o : bool) (st : state) : state :=
  set_handlers (handlers st ++ [Handler target eventName controller o]) st.

Definition listens (target : objid) (eventName : string) (h : handler) : Prop :=
  h_target h = target ∧ h_event h = eventName.

#[global] Instance listens_dec t n h : Decision (listens t n h).
Proof. unfold listens. apply _. Defined.

Definition dispatchEvent (target : objid) (eventName : string) (event : value)
    (strict : bool) (st : state) : state :=
  let matching := filter (listens target eventName) (handlers st) in
  let st1 :=
    if strict then
      set_handlers
        (filter (λ h, ¬ (listens target eventName h ∧ h_once h = true))
                (handlers st)) st
    else st in
  foldl (λ cur h, abort cur (h_controller h) event) st1 matching.

(** ** Finalization

    The callback of the registry of [manageLifecycle], called with a held
    value: [if (id === cleanupId) signal.removeEventListener(...)]. *)

Definition run_finalizer (f : finalizer) (st : state) : state :=
  if bool_decide (fin_held f = fin_cleanupId f) then
    removeEventListener (fin_signal f) (fin_listener f) st
  else st.

(** What the callbacks of the cells of [target] do when they run. *)
Definition run_finalizers (target : objid) (st : state) : state :=
  foldl (λ cur f, run_finalizer f cur)
        (set_registry (filter (λ f, fin_target f ≠ target) (registry st)) st)
        (filter (λ f, fin_target f = target) (registry st)).

(** The host object [target] is collected. An engine runs the callback of a
    registry only while the registry itself is alive. The registry of
    [manageLifecycle] is held by the local [finalizationRegistry] alone: it
    is not returned, not stored and not captured by a closure, so nothing
    reaches it once the call has returned, whereas the host, an argument of
    the call, is alive until then. The cells of the host therefore go away
    without their callback being run. *)
Definition finalize (target : objid) (st : state) : state :=
  set_registry (filter (λ f, fin_target f ≠ target) (registry st)) st.

(** ** The methods of [AbortManager] *)

Definition timeout (st : state) (h : host) (milliseconds : number)
    : state * sigid :=
  let '(st1, controller) := new_controller st in
  (setTimeout h controller milliseconds st1, controller).

(** The loop of [any] over [signalArray]. *)
Fixpoint any_scan (controller : sigid) (onAbort : listener)
    (rest : list sigid) (st : state) : state :=
  match rest with
  | [] => st
  | s :: rest' =>
      if is_aborted st s then abort st controller (reason_of st s)
      else any_scan controller onAbort rest'
                    (addEventListener s onAbort false st)
  end.

Definition any (st : state) (sigs : list sigid) : state * sigid :=
  let '(st1, controller) := new_controller st in
  let signalArray := sigs in
  (any_scan controller (AnyOnAbort controller signalArray) signalArray st1,
   controller).

Definition manageLifecycle (st : state) (target : objid) (sig : sigid)
    (onAbort : cbid) : state :=
  if is_aborted st sig then record_call None onAbort (reason_of st sig) st
  else
    let cleanupId := next_id st in
    let eventListener := LifecycleListener cleanupId sig onAbort in
    let st1 := addEventListener sig eventListener true (bump_id st) in
    set_registry
      (registry st1 ++ [Finalizer target cleanupId cleanupId sig eventListener])
      st1.

Definition follow (st : state) (parentSignal : sigid) : state * sigid :=
  let '(st1, controller) := new_controller st in
  if is_aborted st1 parentSignal then
    (abort st1 controller (reason_of st1 parentSignal), controller)
  else
    (addEventListener parentSignal (FollowOnAbort controller parentSignal)
                      true st1,
     controller).

Definition fromEvent (st : state) (target : objid) (eventName : string)
    : state * sigid :=
  let '(st1, controller) := new_controller st in
  (target_addEventListener target eventName controller true st1, controller).

Definition never (st : state) : state * sigid :=
  match neverSignal st with
  | Some s => (st, s)
  | None =>
      let '(st1, controller) := new_controller st in
      (set_neverSignal (Some controller) st1, controller)
  end.

(** ** Programs

    What a caller and the environment can do, one operation at a time; [h]
    in [OpTimeout] is the host the call is made on. The
    caller can abort only the controllers it holds: those it created and
    those returned by [follow]. An operation that is not possible in the
    current state (a signal that does not exist, a controller the caller
    does not hold, a timer that is not due) leaves the state unchanged. *)

Inductive op : Type :=
| OpNewController
| OpAbort (c : sigid) (r : value)
| OpTimeout (h : host) (milliseconds : number)
| OpAny (sigs : list sigid)
| OpManageLifecycle (target : objid) (sig : sigid) (onAbort : cbid)
| OpFollow (parentSignal : sigid)
| OpFromEvent (target : objid) (eventName : string)
| OpNever
| OpAdvance (dt : Z)
| OpRunTimer (id : nat)
| OpDispatch (target : objid) (eventName : string) (event : value)
             (strict : bool)
| OpFinalize (target : objid).

Definition exists_signal (st : state) (x : sigid) : Prop :=
  x < length (signals st).

#[global] Instance exists_signal_dec st x : Decision (exists_signal st x).
Proof. unfold exists_signal. apply _. Defined.

Definition hand_over (c : sigid) (st : state) : state :=
  set_owned (c :: owned st) st.

Definition step (st : state) (o : op) : state :=
  match o with
  | OpNewController =>
      let '(st1, c) := new_controller st in hand_over c st1
  | OpAbort c r =>
      if bool_decide (c ∈ owned st) then abort st c r else st
  | OpTimeout h ms => (timeout st h ms).1
  | OpAny sigs =>
      if bool_decide (Forall (exists_signal st) sigs) then (any st sigs).1
      else st
  | OpManageLifecycle t s cb =>
      if bool_decide (exists_signal st s) then manageLifecycle st t s cb
      else st
  | OpFollow p =>
      if bool_decide (exists_signal st p) then
        let '(st1, c) := follow st p in hand_over c st1
      else st
  | OpFromEvent t n => (fromEvent st t n).1
  | OpNever => (never st).1
  | OpAdvance dt => set_now (now st + Z.max 0 dt)%Z st
  | OpRunTimer id => run_timer id st
  | OpDispatch t n ev strict => dispatchEvent t n ev strict st
  | OpFinalize t => finalize t st
  end.

Definition run (st : state) (tr : list op) : state := foldl step st tr.

Definition calls_via (id : nat) (st : state) : list call :=
  filter (λ c, call_via c = Some id) (calls st).

(** * Properties of the store *)

Section StoreFacts.
Implicit Types (st : state) (x y : sigid) (l : listener) (reg : registration).

Lemma registered_iff st x l :
  registered st x l ↔ ∃ reg, reg ∈ listeners_of st x ∧ callback reg = l.
Proof.
  unfold registered. rewrite list_elem_of_fmap.
  split; intros (reg & H1 & H2); exists reg; done.
Qed.

Lemma has_listener_true st x l : has_listener st x l = true ↔ registered st x l.
Proof. unfold has_listener. apply bool_decide_eq_true. Qed.

Lemma has_listener_false st x l :
  has_listener st x l = false ↔ ¬ registered st x l.
Proof. unfold has_listener. apply bool_decide_eq_false. Qed.

Lemma lookup_upd f x y st :
  signals (upd_signal f x st) !! y =
  if decide (x = y) then f <$> signals st !! x else signals st !! y.
Proof. unfold upd_signal. simpl. apply list_lookup_alter. Qed.

Lemma length_upd f x st :
  length (signals (upd_signal f x st)) = length (signals st).
Proof. unfold upd_signal. simpl. apply length_alter. Qed.

Lemma is_aborted_upd f x y st :
  (∀ sg, aborted (f sg) = aborted sg) →
  is_aborted (upd_signal f x st) y = is_aborted st y.
Proof.
  intros Hf. unfold is_aborted. rewrite lookup_upd.
  destruct (decide (x = y)) as [->|]; [|done].
  destruct (signals st !! y); simpl; auto.
Qed.

Lemma reason_of_upd f x y st :
  (∀ sg, reason (f sg) = reason sg) →
  reason_of (upd_signal f x st) y = reason_of st y.
Proof.
  intros Hf. unfold reason_of. rewrite lookup_upd.
  destruct (decide (x = y)) as [->|]; [|done].
  destruct (signals st !! y); simpl; auto.
Qed.

Lemma listeners_of_upd f x y st :
  listeners_of (upd_signal f x st) y =
  if decide (x = y) then
    match signals st !! x with Some sg => listeners (f sg) | None => [] end
  else listeners_of st y.
Proof.
  unfold listeners_of. rewrite lookup_upd.
  destruct (decide (x = y)) as [->|]; [|done].
  destruct (signals st !! y); done.
Qed.

Lemma filter_length_alter (P : signal → Prop) `{!∀ s, Decision (P s)}
    (f : signal → signal) (i : nat) (ls : list signal) :
  (∀ s, P (f s) ↔ P s) →
  length (filter P (alter f i ls)) = length (filter P ls).
Proof.
  intros Hf. revert i. induction ls as [|s ls IH]; intros [|i]; try done.
  - change (alter f 0 (s :: ls)) with (f s :: ls). rewrite !filter_cons.
    destruct (decide (P (f s))) as [H1|H1], (decide (P s)) as [H2|H2];
      try done; exfalso; [apply H2, Hf, H1 | apply H1, Hf, H2].
  - change (alter f (S i) (s :: ls)) with (s :: alter f i ls).
    rewrite !filter_cons. destruct (decide (P s)); simpl; rewrite IH; done.
Qed.

Lemma live_upd f x st :
  (∀ sg, aborted (f sg) = aborted sg) →
  live (upd_signal f x st) = live st.
Proof.
  intros Hf. unfold live, upd_signal. simpl.
  apply filter_length_alter. intros s. by rewrite Hf.
Qed.

Lemma live_mark x r st :
  is_aborted st x = false → x < length (signals st) →
  S (live (mark_aborted x r st)) = live st.
Proof.
  unfold is_aborted, live, mark_aborted, upd_signal. simpl.
  generalize (signals st). intros ls. revert x.
  induction ls as [|s ls IH]; intros [|x]; simpl; try lia.
  - intros Hs _. rewrite !filter_cons. simpl.
    destruct (decide (true = false)); [done|].
    destruct (decide (aborted s = false)); [done|congruence].
  - intros Hs Hlt. rewrite !filter_cons.
    destruct (decide (aborted s = false)); simpl; rewrite <- (IH x); auto; lia.
Qed.

(** removeEventListener *)

Lemma is_aborted_remove x l y st :
  is_aborted (removeEventListener x l st) y = is_aborted st y.
Proof. by apply is_aborted_upd. Qed.

Lemma reason_of_remove x l y st :
  reason_of (removeEventListener x l st) y = reason_of st y.
Proof. by apply reason_of_upd. Qed.

Lemma live_remove x l st : live (removeEventListener x l st) = live st.
Proof. by apply live_upd. Qed.

Lemma elem_of_remove x l y reg st :
  reg ∈ listeners_of (removeEventListener x l st) y ↔
  reg ∈ listeners_of st y ∧ ¬ (x = y ∧ callback reg = l).
Proof.
  unfold removeEventListener. rewrite listeners_of_upd.
  destruct (decide (x = y)) as [->|Hne].
  - unfold listeners_of. destruct (signals st !! y); simpl.
    + rewrite list_elem_of_filter. naive_solver.
    + rewrite elem_of_nil. naive_solver.
  - naive_solver.
Qed.

Lemma registered_remove x l y l' st :
  registered (removeEventListener x l st) y l' ↔
  registered st y l' ∧ ¬ (x = y ∧ l' = l).
Proof.
  rewrite !registered_iff. split.
  - intros (reg & Hin & <-). apply elem_of_remove in Hin. naive_solver.
  - intros ((reg & Hin & <-) & Hne). exists reg. split; [|done].
    apply elem_of_remove. done.
Qed.

(** addEventListener *)

Lemma is_aborted_add x l o y st :
  is_aborted (addEventListener x l o st) y = is_aborted st y.
Proof.
  unfold addEventListener. destruct (has_listener st x l); [done|].
  by apply is_aborted_upd.
Qed.

Lemma reason_of_add x l o y st :
  reason_of (addEventListener x l o st) y = reason_of st y.
Proof.
  unfold addEventListener. destruct (has_listener st x l); [done|].
  by apply reason_of_upd.
Qed.

Lemma length_add x l o st :
  length (signals (addEventListener x l o st)) = length (signals st).
Proof.
  unfold addEventListener. destruct (has_listener st x l); [done|].
  apply length_upd.
Qed.

Lemma elem_of_add x l o y reg st :
  reg ∈ listeners_of (addEventListener x l o st) y ↔
  reg ∈ listeners_of st y ∨
  (x = y ∧ x < length (signals st) ∧ reg = Reg l o ∧ ¬ registered st x l).
Proof.
  unfold addEventListener.
  destruct (has_listener st x l) eqn:Hh.
  - apply has_listener_true in Hh. naive_solver.
  - apply has_listener_false in Hh. rewrite listeners_of_upd.
    destruct (decide (x = y)) as [->|Hne]; [|naive_solver].
    unfold listeners_of. destruct (signals st !! y) as [sg|] eqn:Hl; simpl.
    + apply lookup_lt_Some in Hl as Hlt.
      rewrite elem_of_app, list_elem_of_singleton. naive_solver.
    + apply lookup_ge_None in Hl. rewrite elem_of_nil.
      split; [done|]. intros [[]|(_ & ? & _)]. lia.
Qed.

Lemma registered_add x l o y l' st :
  registered (addEventListener x l o st) y l' ↔
  registered st y l' ∨ (x = y ∧ x < length (signals st) ∧ l' = l).
Proof.
  rewrite !registered_iff. split.
  - intros (reg & Hin & <-). apply elem_of_add in Hin as [Hin|(-> & ? & -> & _)].
    + left. eauto.
    + right. done.
  - intros [(reg & Hin & <-)|(-> & Hlt & ->)].
    + exists reg. split; [|done]. apply elem_of_add. by left.
    + destruct (decide (registered st y l)) as [Hr|Hr].
      * apply registered_iff in Hr as (reg & Hin & <-).
        exists reg. split; [|done]. apply elem_of_add. by left.
      * exists (Reg l o). split; [|done]. apply elem_of_add. right. done.
Qed.

(** mark_aborted *)

Lemma is_aborted_mark_eq x r st :
  x < length (signals st) → is_aborted (mark_aborted x r st) x = true.
Proof.
  intros Hlt. unfold is_aborted, mark_aborted. rewrite lookup_upd.
  rewrite decide_True by done.
  destruct (lookup_lt_is_Some_2 _ _ Hlt) as [sg ->]. done.
Qed.

Lemma reason_of_mark_eq x r st :
  x < length (signals st) → reason_of (mark_aborted x r st) x = r.
Proof.
  intros Hlt. unfold reason_of, mark_aborted. rewrite lookup_upd.
  rewrite decide_True by done.
  destruct (lookup_lt_is_Some_2 _ _ Hlt) as [sg ->]. done.
Qed.

Lemma is_aborted_mark_ne x r y st :
  x ≠ y → is_aborted (mark_aborted x r st) y = is_aborted st y.
Proof.
  intros Hne. unfold is_aborted, mark_aborted. rewrite lookup_upd.
  by rewrite decide_False.
Qed.

Lemma reason_of_mark_ne x r y st :
  x ≠ y → reason_of (mark_aborted x r st) y = reason_of st y.
Proof.
  intros Hne. unfold reason_of, mark_aborted. rewrite lookup_upd.
  by rewrite decide_False.
Qed.

Lemma listeners_of_mark x r y st :
  listeners_of (mark_aborted x r st) y = listeners_of st y.
Proof.
  unfold mark_aborted. rewrite listeners_of_upd.
  destruct (decide (x = y)) as [->|]; [|done].
  unfold listeners_of. by destruct (signals st !! y).
Qed.

Lemma registered_mark x r y l st :
  registered (mark_aborted x r st) y l ↔ registered st y l.
Proof. unfold registered. by rewrite listeners_of_mark. Qed.

Lemma is_aborted_lt st x : is_aborted st x = true → x < length (signals st).
Proof.
  unfold is_aborted. destruct (signals st !! x) eqn:Hl; [|done].
  intros _. by apply lookup_lt_Some in Hl.
Qed.

Lemma registered_lt st x l : registered st x l → x < length (signals st).
Proof.
  unfold registered, listeners_of.
  destruct (signals st !! x) eqn:Hl.
  - intros _. by apply lookup_lt_Some in Hl.
  - simpl. by intros ?%elem_of_nil.
Qed.
End StoreFacts.

(** * What one call of [abort] does

    [frame] collects what no call of [abort] changes or undoes: signals are
    never created or un-aborted, a stored reason is never overwritten,
    listeners are never added, and the rest of the store is untouched. *)

Definition newly (st st' : state) (x : sigid) : Prop :=
  is_aborted st x = false ∧ is_aborted st' x = true.

Record frame (st st' : state) : Prop := Frame {
  fr_length : length (signals st') = length (signals st);
  fr_never : neverSignal st' = neverSignal st;
  fr_owned : owned st' = owned st;
  fr_timers : timers st' = timers st;
  fr_handlers : handlers st' = handlers st;
  fr_registry : registry st' = registry st;
  fr_now : now st' = now st;
  fr_next : next_id st ≤ next_id st';
  fr_live : live st' ≤ live st;
  fr_mono : ∀ x, is_aborted st x = true →
                 is_aborted st' x = true ∧ reason_of st' x = reason_of st x;
  fr_sub : ∀ x reg, reg ∈ listeners_of st' x → reg ∈ listeners_of st x
}.

Lemma alter_ge {A} (f : A → A) (ls : list A) (i : nat) :
  length ls ≤ i → alter f i ls = ls.
Proof.
  intros H. rewrite <- (list_alter_id id ls i) at 2 by done.
  apply list_alter_ext; [|done].
  intros x Hx. apply lookup_lt_Some in Hx. lia.
Qed.

Section Frame.
Implicit Types (st : state) (x : sigid) (l : listener).

Lemma frame_refl st : frame st st.
Proof. split; auto. Qed.

Lemma frame_trans st1 st2 st3 : frame st1 st2 → frame st2 st3 → frame st1 st3.
Proof.
  intros [] []. split; try congruence; try lia.
  - intros x Hx. destruct (fr_mono0 x Hx) as [H1 H2].
    destruct (fr_mono1 x H1) as [H3 H4]. split; congruence.
  - auto.
Qed.

Lemma frame_registered st st' x l :
  frame st st' → registered st' x l → registered st x l.
Proof.
  intros Hf. rewrite !registered_iff. intros (reg & Hin & Hl).
  exists reg. split; [|done]. by apply (fr_sub _ _ Hf).
Qed.

Lemma frame_aborted st st' x :
  frame st st' → is_aborted st x = true → is_aborted st' x = true.
Proof. intros Hf Hx. by apply (fr_mono _ _ Hf). Qed.

Lemma frame_reason st st' x :
  frame st st' → is_aborted st x = true → reason_of st' x = reason_of st x.
Proof. intros Hf Hx. by apply (fr_mono _ _ Hf). Qed.

Lemma frame_not_aborted st st' x :
  frame st st' → is_aborted st' x = false → is_aborted st x = false.
Proof.
  intros Hf Hx. destruct (is_aborted st x) eqn:E; [|done].
  apply (frame_aborted _ _ _ Hf) in E. congruence.
Qed.

Lemma frame_remove x l st : frame st (removeEventListener x l st).
Proof.
  split; try done.
  - apply length_upd.
  - by rewrite live_remove.
  - intros y. by rewrite is_aborted_remove, reason_of_remove.
  - intros y reg Hin. by apply elem_of_remove in Hin as [? _].
Qed.

Lemma frame_cleanup l arr st : frame st (any_cleanup l arr st).
Proof.
  unfold any_cleanup. revert st. induction arr as [|s arr IH]; intros st; simpl.
  - apply frame_refl.
  - eapply frame_trans; [apply frame_remove|apply IH].
Qed.

Lemma frame_record_call via cb arg st : frame st (record_call via cb arg st).
Proof. split; auto. Qed.

Lemma frame_bump st : frame st (bump_id st).
Proof. split; simpl; auto. Qed.

Lemma frame_mark x r st :
  is_aborted st x = false → frame st (mark_aborted x r st).
Proof.
  intros Hx. split; try done.
  - apply length_upd.
  - destruct (decide (x < length (signals st))) as [Hlt|Hge].
    + pose proof (live_mark x r st Hx Hlt). lia.
    + unfold mark_aborted, upd_signal, live. simpl.
      rewrite alter_ge by lia. done.
  - intros y Hy. destruct (decide (x = y)) as [->|Hne]; [congruence|].
    by rewrite is_aborted_mark_ne, reason_of_mark_ne.
  - intros y reg. by rewrite listeners_of_mark.
Qed.

Lemma frame_abort_reason st r :
  frame st (abort_reason st r).1.
Proof. destruct r; simpl; auto using frame_refl, frame_bump. Qed.

Lemma abort_reason_defined st r : (abort_reason st r).2 ≠ VUndefined.
Proof. by destruct r. Qed.

Lemma abort_reason_id st r :
  r ≠ VUndefined → abort_reason st r = (st, r).
Proof. by destruct r. Qed.

Lemma registered_cleanup l arr st x l' :
  registered (any_cleanup l arr st) x l' → registered st x l' ∧ (l' = l → x ∉ arr).
Proof.
  unfold any_cleanup. revert st.
  induction arr as [|s arr IH]; intros st; simpl.
  - intros H. split; [done|]. intros _. apply not_elem_of_nil.
  - intros H. apply IH in H as [H1 H2].
    apply registered_remove in H1 as [H1 H3]. split; [done|].
    intros ->. rewrite not_elem_of_cons. split; [|auto].
    intros ->. by apply H3.
Qed.

Lemma registered_cleanup_ne l arr st x l' :
  l' ≠ l → registered st x l' → registered (any_cleanup l arr st) x l'.
Proof.
  intros Hne. unfold any_cleanup. revert st.
  induction arr as [|s arr IH]; intros st; simpl; [done|].
  intros H. apply IH. apply registered_remove. split; [done|]. by intros [_ ?].
Qed.

Lemma calls_cleanup l arr st : calls (any_cleanup l arr st) = calls st.
Proof.
  unfold any_cleanup. revert st.
  induction arr as [|s arr IH]; intros st; simpl; [done|]. by rewrite IH.
Qed.

Lemma is_aborted_cleanup l arr st x :
  is_aborted (any_cleanup l arr st) x = is_aborted st x.
Proof.
  unfold any_cleanup. revert st.
  induction arr as [|s arr IH]; intros st; simpl; [done|].
  by rewrite IH, is_aborted_remove.
Qed.

Lemma reason_of_cleanup l arr st x :
  reason_of (any_cleanup l arr st) x = reason_of st x.
Proof.
  unfold any_cleanup. revert st.
  induction arr as [|s arr IH]; intros st; simpl; [done|].
  by rewrite IH, reason_of_remove.
Qed.
End Frame.

(** ** Specification of the 'abort' event and of [abort]

    [fired this snapshot R st st'] describes the delivery of the 'abort'
    event of the aborted signal [this], whose reason is [R], to the
    listeners of [snapshot]; [cascade c R st st'] describes a whole call
    [c.abort(r)] that stores the reason [R]. Both say
    - which signals become aborted, why, and with which reason;
    - which listeners stay registered;
    - that a listener of a signal that becomes aborted has run, so that its
      controller is aborted too;
    - which calls of user callbacks are made. *)

Definition lid (l : listener) : option nat :=
  match l with LifecycleListener id _ _ => Some id | _ => None end.

(** The symbol [id] belongs to one registration only: that of
    [LifecycleListener id sig cb] on [sig], made with [{ once: true }]. *)
Definition excl (st : state) (id : nat) (sig : sigid) (cb : cbid) : Prop :=
  ∀ x reg, reg ∈ listeners_of st x → lid (callback reg) = Some id →
           x = sig ∧ reg = Reg (LifecycleListener id sig cb) true.

Definition snap_excl (snapshot : list registration) (id : nat) (sig : sigid)
    (cb : cbid) : Prop :=
  ∀ reg, reg ∈ snapshot → lid (callback reg) = Some id →
         reg = Reg (LifecycleListener id sig cb) true.

(** Listeners refer to existing controllers, and the listener of [follow]
    sits on the parent it reads the reason of. *)
Definition wf_listeners (st : state) : Prop :=
  ∀ x l, registered st x l →
    match l with
    | AnyOnAbort ctl _ => ctl < length (signals st)
    | LifecycleListener _ _ _ => True
    | FollowOnAbort ctl p => ctl < length (signals st) ∧ p = x
    end.

(** The listener of [any] has been through its [cleanup]: it is registered
    on none of the inputs. *)
Definition cleaned (st : state) (l : listener) : Prop :=
  match l with
  | AnyOnAbort _ signalArray => ∀ y, y ∈ signalArray → ¬ registered st y l
  | _ => True
  end.

Record fired (this : sigid) (snapshot : list registration) (R : value)
    (st st' : state) : Prop := Fired {
  fd_frame : frame st st';
  fd_effect : ∀ k, newly st st' k →
    reason_of st' k = R ∧
    ∃ x l, registered st x l ∧ ctrl l = Some k ∧ (x = this ∨ newly st st' x)
           ∧ cleaned st' l;
  fd_keep : ∀ x l, registered st x l →
    registered st' x l ∨ newly st st' x ∨
    (∃ k, ctrl l = Some k ∧ is_aborted st' k = true) ∨
    (x = this ∧ l ∈ callback <$> snapshot);
  fd_push : ∀ x l k, newly st st' x → registered st x l → ctrl l = Some k →
    is_aborted st' k = true;
  fd_done : ∀ l k, l ∈ callback <$> snapshot → registered st this l →
    ctrl l = Some k → is_aborted st' k = true;
  fd_calls : ∀ id sig cb, excl st id sig cb → snap_excl snapshot id sig cb →
    let ll := LifecycleListener id sig cb in
    let hit := (sig = this ∧ ll ∈ callback <$> snapshot ∧ registered st this ll)
               ∨ (newly st st' sig ∧ registered st sig ll) in
    (hit → calls_via id st' = calls_via id st ++ [Call (Some id) cb R] ∧
           ¬ registered st' sig ll) ∧
    (¬ hit → calls_via id st' = calls_via id st)
}.

Record cascade (c : sigid) (R : value) (st st' : state) : Prop := Cascade {
  cs_frame : frame st st';
  cs_done : c < length (signals st) → is_aborted st' c = true;
  cs_effect : ∀ k, newly st st' k →
    reason_of st' k = R ∧
    (k = c ∨ ∃ x l, registered st x l ∧ ctrl l = Some k ∧ newly st st' x
                    ∧ cleaned st' l);
  cs_keep : ∀ x l, registered st x l →
    registered st' x l ∨ newly st st' x ∨
    (∃ k, ctrl l = Some k ∧ is_aborted st' k = true);
  cs_push : ∀ x l k, newly st st' x → registered st x l → ctrl l = Some k →
    is_aborted st' k = true;
  cs_calls : ∀ id sig cb, excl st id sig cb →
    let ll := LifecycleListener id sig cb in
    let hit := newly st st' sig ∧ registered st sig ll in
    (hit → calls_via id st' = calls_via id st ++ [Call (Some id) cb R] ∧
           ¬ registered st' sig ll) ∧
    (¬ hit → calls_via id st' = calls_via id st)
}.

Section Fired.
Implicit Types (st : state) (x : sigid) (l : listener) (reg : registration).

Lemma newly_refl st x : ¬ newly st st x.
Proof. intros [H1 H2]. congruence. Qed.

Lemma newly_frame_l st st1 st2 x :
  frame st1 st2 → newly st st1 x → newly st st2 x.
Proof. intros Hf [H1 H2]. split; [done|]. by eapply frame_aborted. Qed.

Lemma newly_frame_r st st1 st2 x :
  frame st st1 → newly st1 st2 x → newly st st2 x.
Proof. intros Hf [H1 H2]. split; [|done]. by eapply frame_not_aborted. Qed.

Lemma newly_split st st1 st2 x :
  newly st st2 x → newly st st1 x ∨ newly st1 st2 x.
Proof.
  intros [H1 H2]. destruct (is_aborted st1 x) eqn:E.
  - left. done.
  - right. done.
Qed.

Lemma excl_frame st st' id sig cb :
  frame st st' → excl st id sig cb → excl st' id sig cb.
Proof. intros Hf He x reg Hin. apply He. by apply (fr_sub _ _ Hf). Qed.

Lemma wf_listeners_frame st st' :
  frame st st' → wf_listeners st → wf_listeners st'.
Proof.
  intros Hf Hwf x l Hr. apply (frame_registered _ _ _ _ Hf) in Hr.
  specialize (Hwf x l Hr). rewrite (fr_length _ _ Hf). done.
Qed.

Lemma cleaned_frame st st' l : frame st st' → cleaned st l → cleaned st' l.
Proof.
  intros Hf. destruct l; simpl; try done.
  intros Hc y Hy Hr. apply (Hc y Hy). by eapply frame_registered.
Qed.

Lemma fired_nil this R st : fired this [] R st st.
Proof.
  split.
  - apply frame_refl.
  - intros k Hk. by apply newly_refl in Hk.
  - auto.
  - intros x l k Hx. by apply newly_refl in Hx.
  - intros l k Hl. by apply elem_of_nil in Hl.
  - intros id sig cb _ _ ll hit. split.
    + intros [(_ & Hl & _)|[Hn _]].
      * by apply elem_of_nil in Hl.
      * by apply newly_refl in Hn.
    + done.
Qed.

Lemma fired_skip this reg rest R st st' :
  ¬ registered st this (callback reg) →
  fired this rest R st st' → fired this (reg :: rest) R st st'.
Proof.
  intros Hnr [Hf He Hk Hp Hd Hc]. split; try done.
  - intros x l Hr. destruct (Hk x l Hr) as [?|[?|[?|[-> Hin]]]]; auto.
    right. right. right. split; [done|]. rewrite fmap_cons. by right.
  - intros l k Hin Hr. rewrite fmap_cons in Hin.
    apply elem_of_cons in Hin as [->|Hin]; [done|]. by apply Hd.
  - intros id sig cb Hex Hsn ll hit.
    destruct (Hc id sig cb Hex) as [Hc1 Hc2].
    { intros r Hr. apply Hsn. by right. }
    split.
    + intros [(-> & Hin & Hr)|Hn]; apply Hc1.
      * left. split; [done|]. split; [|done].
        rewrite fmap_cons in Hin. apply elem_of_cons in Hin as [Heq|Hin]; [|done].
        exfalso. apply Hnr. by rewrite <- Heq.
      * by right.
    + intros Hnh. apply Hc2. intros [(-> & Hin & Hr)|Hn]; apply Hnh.
      * left. split; [done|]. split; [|done]. rewrite fmap_cons. by right.
      * by right.
Qed.

Lemma fired_cons this reg rest R st st1 st' :
  fired this [reg] R st st1 → fired this rest R st1 st' →
  fired this (reg :: rest) R st st'.
Proof.
  intros [Hf1 He1 Hk1 Hp1 Hd1 Hc1] [Hf2 He2 Hk2 Hp2 Hd2 Hc2].
  assert (Hsing : ∀ l, l ∈ callback <$> [reg] ↔ l = callback reg).
  { intros l. simpl. apply list_elem_of_singleton. }
  assert (Hcons : ∀ l, l ∈ callback <$> reg :: rest ↔
                       l = callback reg ∨ l ∈ callback <$> rest).
  { intros l. rewrite fmap_cons. apply elem_of_cons. }
  split.
  - by eapply frame_trans.
  - (* effect *)
    intros k Hk. destruct (newly_split _ st1 _ _ Hk) as [Hn|Hn].
    + destruct (He1 k Hn) as (HR & x & l & Hr & Hl & Hx & Hcl). split.
      * rewrite <- HR. apply (frame_reason _ _ _ Hf2), Hn.
      * exists x, l. split; [done|]. split; [done|].
        split; [|by eapply cleaned_frame].
        destruct Hx as [->|Hx]; [by left|]. right. by eapply newly_frame_l.
    + destruct (He2 k Hn) as (HR & x & l & Hr & Hl & Hx & Hcl). split; [done|].
      exists x, l. split; [by eapply frame_registered|]. split; [done|].
      split; [|done].
      destruct Hx as [->|Hx]; [by left|]. right. by eapply newly_frame_r.
  - (* keep *)
    intros x l Hr. destruct (Hk1 x l Hr) as [Hr1|[Hn|[(k & Hl & Ha)|[-> Hin]]]].
    + destruct (Hk2 x l Hr1) as [?|[Hn|[?|[-> Hin]]]]; auto.
      * right. left. by eapply newly_frame_r.
      * right. right. right. split; [done|]. apply Hcons. by right.
    + right. left. by eapply newly_frame_l.
    + right. right. left. exists k. split; [done|]. by eapply frame_aborted.
    + right. right. right. split; [done|]. apply Hcons. left. by apply Hsing.
  - (* push *)
    intros x l k Hx Hr Hl. destruct (newly_split _ st1 _ _ Hx) as [Hn|Hn].
    + eapply frame_aborted; [done|]. by eapply Hp1.
    + destruct (Hk1 x l Hr) as [Hr1|[Hn1|[(k' & Hl' & Ha)|[-> Hin]]]].
      * by eapply Hp2.
      * destruct Hn as [Hn _], Hn1 as [_ Hn1]. congruence.
      * eapply frame_aborted; [done|]. congruence.
      * eapply frame_aborted; [done|]. by eapply Hd1.
  - (* done *)
    intros l k Hin Hr Hl. apply Hcons in Hin as [->|Hin].
    + eapply frame_aborted; [done|]. eapply Hd1; [by apply Hsing|done..].
    + destruct (Hk1 this l Hr) as [Hr1|[Hn1|[(k' & Hl' & Ha)|[_ Hin1]]]].
      * by eapply Hd2.
      * eapply frame_aborted; [done|]. by eapply Hp1.
      * eapply frame_aborted; [done|]. congruence.
      * eapply frame_aborted; [done|]. by eapply Hd1.
  - (* calls *)
    intros id sig cb Hex Hsn ll hit.
    assert (Hex1 : excl st1 id sig cb) by by eapply excl_frame.
    destruct (Hc1 id sig cb Hex) as [Hc1a Hc1b].
    { intros r Hr. apply Hsn. apply list_elem_of_singleton in Hr as ->. by left. }
    destruct (Hc2 id sig cb Hex1) as [Hc2a Hc2b].
    { intros r Hr. apply Hsn. by right. }
    fold ll in Hc1a, Hc1b, Hc2a, Hc2b.
    set (hit1 := (sig = this ∧ ll ∈ callback <$> [reg] ∧ registered st this ll)
                 ∨ (newly st st1 sig ∧ registered st sig ll)) in *.
    set (hit2 := (sig = this ∧ ll ∈ callback <$> rest ∧ registered st1 this ll)
                 ∨ (newly st1 st' sig ∧ registered st1 sig ll)) in *.
    assert (Hnot2 : ¬ registered st1 sig ll → ¬ hit2).
    { intros Hnr [(-> & _ & Hr)|[_ Hr]]; done. }
    assert (Hcase : hit → hit1 ∨ hit2).
    { intros [(-> & Hin & Hr)|[Hn Hr]].
      - apply Hcons in Hin as [Heq|Hin].
        + left. left. split; [done|]. split; [|done]. by apply Hsing.
        + destruct (Hk1 this ll Hr) as [Hr1|[Hn1|[(k' & Hl' & _)|[_ Hin1]]]].
          * right. left. done.
          * left. right. done.
          * done.
          * left. left. done.
      - destruct (newly_split _ st1 _ _ Hn) as [Hn1|Hn2].
        + left. right. done.
        + destruct (Hk1 sig ll Hr) as [Hr1|[Hn1|[(k' & Hl' & _)|[-> Hin1]]]].
          * right. right. done.
          * destruct Hn2 as [Hn2 _], Hn1 as [_ Hn1]. congruence.
          * done.
          * left. left. done. }
    destruct (decide hit1) as [H1|H1].
    + destruct (Hc1a H1) as [Hcalls Hnr]. split.
      * intros _. rewrite (Hc2b (Hnot2 Hnr)). split; [done|].
        intros Hr. apply Hnr. by eapply frame_registered.
      * intros Hnh. exfalso. apply Hnh.
        destruct H1 as [(-> & Hin & Hr)|[Hn Hr]].
        -- left. split; [done|]. split; [|done]. apply Hcons. left.
           by apply Hsing.
        -- right. split; [|done]. by eapply newly_frame_l.
    + rewrite <- (Hc1b H1). split.
      * intros Hh. destruct (Hcase Hh) as [?|H2]; [done|]. by apply Hc2a.
      * intros Hnh. apply Hc2b. intros [(-> & Hin & Hr)|[Hn Hr]]; apply Hnh.
        -- left. split; [done|]. split; [apply Hcons; by right|].
           by eapply frame_registered.
        -- right. split; [by eapply newly_frame_r|]. by eapply frame_registered.
Qed.
End Fired.

(** ** [abort] meets its specification *)

(** Steps that only remove the listener [l0]. *)
Record quiet (l0 : listener) (st st' : state) : Prop := Quiet {
  qt_frame : frame st st';
  qt_aborted : ∀ x, is_aborted st' x = is_aborted st x;
  qt_reason : ∀ x, reason_of st' x = reason_of st x;
  qt_calls : calls st' = calls st;
  qt_keep : ∀ x l, l ≠ l0 → registered st x l → registered st' x l
}.

Lemma quiet_refl l0 st : quiet l0 st st.
Proof. split; auto using frame_refl. Qed.

Lemma quiet_remove l0 x st : quiet l0 st (removeEventListener x l0 st).
Proof.
  split.
  - apply frame_remove.
  - intros y. apply is_aborted_remove.
  - intros y. apply reason_of_remove.
  - done.
  - intros y l Hne Hr. apply registered_remove. split; [done|]. by intros [_ ?].
Qed.

Lemma quiet_cleanup l0 arr st : quiet l0 st (any_cleanup l0 arr st).
Proof.
  split.
  - apply frame_cleanup.
  - intros y. apply is_aborted_cleanup.
  - intros y. apply reason_of_cleanup.
  - apply calls_cleanup.
  - intros y l Hne Hr. by apply registered_cleanup_ne.
Qed.

Lemma quiet_newly l0 st st1 st2 st3 x :
  quiet l0 st st1 → quiet l0 st2 st3 → newly st st3 x ↔ newly st1 st2 x.
Proof.
  intros H1 H2. unfold newly.
  by rewrite (qt_aborted _ _ _ H1), (qt_aborted _ _ _ H2).
Qed.

(** A listener that aborts the controller [ctl]: [st1] is the store when it
    starts, [st2] the store when [ctl.abort] returns, [st3] the store when
    the listener returns. *)
Lemma fired_nested this reg R ctl st st1 st2 st3 :
  is_aborted st this = true →
  registered st this (callback reg) →
  ctrl (callback reg) = Some ctl →
  ctl < length (signals st) →
  quiet (callback reg) st st1 →
  cascade ctl R st1 st2 →
  quiet (callback reg) st2 st3 →
  cleaned st3 (callback reg) →
  fired this [reg] R st st3.
Proof.
  intros Hthis Hreg Hctl Hlt Hq1 [Hf Hd He Hk Hp Hc] Hq2 Hcl0.
  assert (Hnew : ∀ x, newly st st3 x ↔ newly st1 st2 x)
    by (intros x; by eapply quiet_newly).
  assert (Hctl3 : is_aborted st3 ctl = true).
  { rewrite (qt_aborted _ _ _ Hq2). apply Hd.
    by rewrite (fr_length _ _ (qt_frame _ _ _ Hq1)). }
  assert (Hl0 : ∀ l, ctrl l = None → l ≠ (callback reg)) by (intros l Hl ->; congruence).
  split.
  - eapply frame_trans; [apply Hq1|]. eapply frame_trans; [apply Hf|apply Hq2].
  - intros k Hk'. apply Hnew in Hk'. destruct (He k Hk') as [HR Hwhy]. split.
    + by rewrite (qt_reason _ _ _ Hq2).
    + destruct Hwhy as [->|(x & l & Hr & Hl & Hx & Hcl)].
      * exists this, (callback reg). split; [done|]. split; [done|].
        split; [by left|done].
      * exists x, l. split; [|split; [done|split]].
        -- eapply frame_registered; [apply Hq1|done].
        -- right. by apply Hnew.
        -- eapply cleaned_frame; [apply Hq2|done].
  - intros x l Hr. destruct (decide (l = (callback reg))) as [->|Hne].
    { right. right. left. by exists ctl. }
    apply (qt_keep _ _ _ Hq1 _ _ Hne) in Hr.
    destruct (Hk x l Hr) as [Hr2|[Hn|(k & Hl & Ha)]].
    + left. by apply (qt_keep _ _ _ Hq2).
    + right. left. by apply Hnew.
    + right. right. left. exists k. split; [done|].
      by rewrite (qt_aborted _ _ _ Hq2).
  - intros x l k Hx Hr Hl. destruct (decide (l = (callback reg))) as [->|Hne].
    { congruence. }
    rewrite (qt_aborted _ _ _ Hq2). eapply Hp; [by apply Hnew| |done].
    by apply (qt_keep _ _ _ Hq1).
  - intros l k Hin Hr Hl. apply list_elem_of_singleton in Hin as ->. congruence.
  - intros id sig cb Hex Hsn ll hit.
    assert (Hll : ll ≠ (callback reg)) by (by apply Hl0).
    assert (Hex1 : excl st1 id sig cb).
    { eapply excl_frame; [apply Hq1|done]. }
    destruct (Hc id sig cb Hex1) as [Hca Hcb]. fold ll in Hca, Hcb.
    assert (Hv1 : calls_via id st1 = calls_via id st).
    { unfold calls_via. by rewrite (qt_calls _ _ _ Hq1). }
    assert (Hv3 : calls_via id st3 = calls_via id st2).
    { unfold calls_via. by rewrite (qt_calls _ _ _ Hq2). }
    assert (Hhit : hit ↔ newly st1 st2 sig ∧ registered st1 sig ll).
    { unfold hit. split.
      - intros [(_ & Hin & _)|[Hn Hr]].
        + by apply list_elem_of_singleton in Hin.
        + split; [by apply Hnew|]. by apply (qt_keep _ _ _ Hq1).
      - intros [Hn Hr]. right. split; [by apply Hnew|].
        eapply frame_registered; [apply Hq1|done]. }
    rewrite Hv3, <- Hv1. split.
    + intros Hh. apply Hhit in Hh. destruct (Hca Hh) as [? Hnr]. split; [done|].
      intros Hr. apply Hnr. eapply frame_registered; [apply Hq2|done].
    + intros Hnh. apply Hcb. by rewrite <- Hhit.
Qed.

Section Delivery.
Variable ab : state → sigid → value → option state.
Variable n : nat.
Hypothesis ab_ok : ∀ st c r, live st < n → wf_listeners st →
  ∃ st', ab st c r = Some st' ∧ cascade c (abort_reason st r).2 st st'.

Lemma ab_nested l0 st st1 ctl R :
  live st < n → wf_listeners st → quiet l0 st st1 → R ≠ VUndefined →
  ∃ st2, ab st1 ctl R = Some st2 ∧ cascade ctl R st1 st2.
Proof.
  intros Hlive Hwf Hq HR.
  destruct (ab_ok st1 ctl R) as (st2 & Hab & Hc).
  - pose proof (fr_live _ _ (qt_frame _ _ _ Hq)). lia.
  - eapply wf_listeners_frame; [apply Hq|done].
  - rewrite abort_reason_id in Hc by done. eauto.
Qed.

Lemma invoke_fired this reg R st :
  live st < n → wf_listeners st →
  reason_of st this = R → R ≠ VUndefined → is_aborted st this = true →
  registered st this (callback reg) →
  ∃ st2,
    invoke ab this (callback reg)
           (if once reg then removeEventListener this (callback reg) st
            else st) = Some st2
    ∧ fired this [reg] R st st2.
Proof.
  intros Hlive Hwf HR HRd Hthis Hreg.
  remember (if once reg then removeEventListener this (callback reg) st
            else st) as st1 eqn:Est1.
  assert (Hq1 : quiet (callback reg) st st1).
  { subst st1. destruct (once reg); [apply quiet_remove|apply quiet_refl]. }
  pose proof (Hwf this _ Hreg) as Hwf0.
  destruct (callback reg) as [ctl arr|id' s' cb'|ctl p] eqn:El0; simpl.
  - (* onAbort of any *)
    rewrite (qt_reason _ _ _ Hq1), HR.
    destruct (ab_nested _ st st1 ctl R Hlive Hwf Hq1 HRd) as (st2 & -> & Hc).
    simpl. eexists. split; [done|].
    eapply (fired_nested this reg R ctl st st1 st2); rewrite ?El0; try done.
    + apply quiet_cleanup.
    + simpl. intros y Hy Hr. apply registered_cleanup in Hr as [_ Hr].
      by apply Hr.
  - (* eventListener of manageLifecycle *)
    eexists. split; [done|].
    set (st2 := record_call _ _ _ _).
    assert (Ha : ∀ x, is_aborted st2 x = is_aborted st x).
    { intros x. unfold st2. apply (qt_aborted _ _ _ Hq1). }
    assert (Hr2 : ∀ x l, registered st2 x l ↔ registered st1 x l) by done.
    assert (Hnn : ∀ x, ¬ newly st st2 x).
    { intros x [Hk1 Hk2]. rewrite Ha in Hk2. congruence. }
    split.
    + eapply frame_trans; [apply Hq1|apply frame_record_call].
    + intros k Hk. by apply Hnn in Hk.
    + intros x l Hr.
      destruct (decide (x = this ∧ l = callback reg)) as [[-> ->]|Hne].
      * right. right. right. split; [done|]. simpl.
        by apply list_elem_of_singleton.
      * left. apply Hr2. rewrite Est1. destruct (once reg); [|done].
        apply registered_remove. split; [done|]. rewrite <- El0. naive_solver.
    + intros x l k Hk. by apply Hnn in Hk.
    + intros l k Hin _ Hl. apply list_elem_of_singleton in Hin as ->.
      rewrite El0 in Hl. done.
    + intros id sig cb Hex Hsn ll hit.
      assert (Hv : calls_via id st2 =
                   (calls_via id st ++
                    if decide (id' = id) then
                      [Call (Some id') cb' (reason_of st s')] else [])%list).
      { unfold calls_via, st2, record_call. simpl.
        rewrite filter_app, (qt_calls _ _ _ Hq1), (qt_reason _ _ _ Hq1).
        f_equal. rewrite filter_cons, filter_nil. simpl.
        destruct (decide (Some id' = Some id)), (decide (id' = id));
          congruence. }
      rewrite Hv. destruct (decide (id' = id)) as [->|Hid].
      * specialize (Hsn reg). rewrite El0 in Hsn.
        specialize (Hsn ltac:(by left) eq_refl).
        assert (Hcb : callback reg = ll) by (by rewrite Hsn).
        rewrite El0 in Hcb. injection Hcb as -> ->.
        pose proof Hreg as Hreg0.
        apply registered_iff in Hreg as (reg' & Hin' & Hcb').
        destruct (Hex this reg' Hin') as [-> Hreg'].
        { by rewrite Hcb'. }
        split; [|intros Hnh; exfalso; apply Hnh].
        -- intros _. rewrite HR. split; [done|].
           intros Hr2'. assert (Hr : registered st1 sig ll) by (by apply Hr2).
           rewrite Est1, Hsn in Hr. simpl in Hr.
           apply registered_remove in Hr as [_ Hr]. by apply Hr.
        -- left. split; [done|]. split; [|done].
           rewrite Hsn. simpl. by apply list_elem_of_singleton.
      * rewrite app_nil_r. split; [|done].
        intros [(_ & Hin & _)|[Hn _]].
        -- apply list_elem_of_singleton in Hin. rewrite El0 in Hin.
           unfold ll in Hin. congruence.
        -- by apply Hnn in Hn.
  - (* onAbort of follow *)
    destruct Hwf0 as [Hlt ->].
    rewrite (qt_reason _ _ _ Hq1), HR.
    destruct (ab_nested _ st st1 ctl R Hlive Hwf Hq1 HRd) as (st2 & -> & Hc).
    eexists. split; [done|].
    eapply (fired_nested this reg R ctl st st1 st2); rewrite ?El0; try done.
Qed.

Lemma fire_fired this R snapshot : ∀ st,
  live st < n → wf_listeners st →
  reason_of st this = R → R ≠ VUndefined → is_aborted st this = true →
  ∃ st', fire ab this snapshot st = Some st' ∧ fired this snapshot R st st'.
Proof.
  induction snapshot as [|reg rest IH]; intros st Hlive Hwf HR HRd Hthis; simpl.
  - eexists. split; [done|]. apply fired_nil.
  - destruct (has_listener st this (callback reg)) eqn:Hh.
    + apply has_listener_true in Hh.
      destruct (invoke_fired this reg R st) as (st2 & -> & Hfd); try done.
      simpl. pose proof (fd_frame _ _ _ _ _ Hfd) as Hf.
      destruct (IH st2) as (st' & -> & Hfd'); try done.
      * pose proof (fr_live _ _ Hf). lia.
      * by eapply wf_listeners_frame.
      * rewrite <- HR. by apply frame_reason.
      * by eapply frame_aborted.
      * eexists. split; [done|]. by eapply fired_cons.
    + apply has_listener_false in Hh.
      destruct (IH st) as (st' & -> & Hfd'); try done.
      eexists. split; [done|]. by apply fired_skip.
Qed.
End Delivery.

Lemma abort_reason_signals st r : signals (abort_reason st r).1 = signals st.
Proof. by destruct r. Qed.

Lemma abort_reason_calls st r : calls (abort_reason st r).1 = calls st.
Proof. by destruct r. Qed.

Lemma cascade_refl c R st :
  (c < length (signals st) → is_aborted st c = true) → cascade c R st st.
Proof.
  intros Hc. split.
  - apply frame_refl.
  - done.
  - intros k Hk. by apply newly_refl in Hk.
  - auto.
  - intros x l k Hx. by apply newly_refl in Hx.
  - intros id sig cb _ ll hit. split; [|done].
    intros [Hn _]. by apply newly_refl in Hn.
Qed.

(** The whole call, from the delivery of the event. *)
Lemma cascade_of_fired c r sg st st' :
  signals st !! c = Some sg → aborted sg = false →
  fired c (listeners sg) (abort_reason st r).2
        (mark_aborted c (abort_reason st r).2 (abort_reason st r).1) st' →
  cascade c (abort_reason st r).2 st st'.
Proof.
  intros Hl Ha.
  set (R := (abort_reason st r).2). set (st1 := (abort_reason st r).1).
  set (st2 := mark_aborted c R st1).
  intros [Hf He Hk Hp Hd Hc].
  assert (Hs1 : signals st1 = signals st) by apply abort_reason_signals.
  assert (Hlt : c < length (signals st)) by (by eapply lookup_lt_Some).
  assert (Hac : is_aborted st c = false).
  { unfold is_aborted. by rewrite Hl. }
  assert (Ac : is_aborted st2 c = true).
  { apply is_aborted_mark_eq. by rewrite Hs1. }
  assert (Rc : reason_of st2 c = R).
  { apply reason_of_mark_eq. by rewrite Hs1. }
  assert (A2 : ∀ x, x ≠ c → is_aborted st2 x = is_aborted st x).
  { intros x Hx. unfold st2. rewrite is_aborted_mark_ne by done.
    unfold is_aborted. by rewrite Hs1. }
  assert (E2 : ∀ x, listeners_of st2 x = listeners_of st x).
  { intros x. unfold st2. rewrite listeners_of_mark.
    unfold listeners_of. by rewrite Hs1. }
  assert (L2 : ∀ x l, registered st2 x l ↔ registered st x l).
  { intros x l. unfold registered. by rewrite E2. }
  assert (Ls : listeners sg = listeners_of st c).
  { unfold listeners_of. by rewrite Hl. }
  assert (C2 : calls st2 = calls st) by apply abort_reason_calls.
  assert (F2 : frame st st2).
  { eapply frame_trans; [apply (frame_abort_reason st r)|].
    apply frame_mark. unfold is_aborted. fold st1. by rewrite Hs1, Hl. }
  assert (Nw : ∀ x, newly st st' x ↔ x = c ∨ newly st2 st' x).
  { intros x. split.
    - intros [H1 H2]. destruct (decide (x = c)) as [->|Hx]; [by left|].
      right. split; [|done]. by rewrite A2.
    - intros [->|[H1 H2]].
      + split; [done|]. by eapply frame_aborted.
      + split; [|done]. rewrite <- A2; [done|]. intros ->. congruence. }
  split.
  - by eapply frame_trans.
  - intros _. by eapply frame_aborted.
  - intros k Hn. apply Nw in Hn as [->|Hn].
    + split; [|by left]. rewrite <- Rc. by apply frame_reason.
    + destruct (He k Hn) as (HR & x & l & Hr & Hl' & Hx & Hcl). split; [done|].
      right. exists x, l. split; [by apply L2|]. split; [done|].
      split; [by apply Nw|done].
  - intros x l Hr. apply L2 in Hr.
    destruct (Hk x l Hr) as [?|[Hn|[?|[-> _]]]]; auto.
    + right. left. apply Nw. by right.
    + right. left. apply Nw. by left.
  - intros x l k Hn Hr Hl'. apply Nw in Hn as [->|Hn].
    + eapply Hd; [|by apply L2|done]. rewrite Ls. done.
    + eapply Hp; [done|by apply L2|done].
  - intros id sig cb Hex ll hit.
    destruct (Hc id sig cb) as [Hca Hcb].
    { intros x reg. rewrite E2. apply Hex. }
    { intros reg Hin Hid. rewrite Ls in Hin.
      by destruct (Hex c reg Hin Hid) as [_ ?]. }
    fold ll in Hca, Hcb. unfold calls_via in *. rewrite C2 in Hca, Hcb.
    assert (Hhit : hit ↔
      (sig = c ∧ ll ∈ callback <$> listeners sg ∧ registered st2 c ll)
      ∨ (newly st2 st' sig ∧ registered st2 sig ll)).
    { unfold hit. split.
      - intros [Hn Hr]. apply Nw in Hn as [->|Hn].
        + left. split; [done|]. split; [by rewrite Ls|by apply L2].
        + right. split; [done|by apply L2].
      - intros [(-> & _ & Hr)|[Hn Hr]].
        + split; [apply Nw; by left|by apply L2].
        + split; [apply Nw; by right|by apply L2]. }
    split.
    + intros Hh. by apply Hca, Hhit.
    + intros Hnh. apply Hcb. by rewrite <- Hhit.
Qed.

Lemma live_abort_reason_mark c r sg st :
  signals st !! c = Some sg → aborted sg = false →
  S (live (mark_aborted c (abort_reason st r).2 (abort_reason st r).1)) = live st.
Proof.
  intros Hl Ha.
  pose proof (abort_reason_signals st r) as Hs.
  rewrite live_mark.
  - unfold live. by rewrite Hs.
  - unfold is_aborted. by rewrite Hs, Hl.
  - rewrite Hs. by eapply lookup_lt_Some.
Qed.

(** With more fuel than there are signals left to abort, [abort_fuel]
    returns, and the result meets the specification. *)
Lemma abort_fuel_cascade fuel : ∀ st c r,
  live st < fuel → wf_listeners st →
  ∃ st', abort_fuel fuel st c r = Some st'
         ∧ cascade c (abort_reason st r).2 st st'.
Proof.
  induction fuel as [|f IH]; intros st c r Hlive Hwf; [lia|]. simpl.
  destruct (signals st !! c) as [sg|] eqn:Hl.
  - destruct (aborted sg) eqn:Ha.
    + eexists. split; [done|]. apply cascade_refl.
      intros _. unfold is_aborted. by rewrite Hl.
    + pose proof (live_abort_reason_mark c r sg st Hl Ha) as Hlv.
      pose proof (cascade_of_fired c r sg st) as Hcf.
      destruct (abort_reason st r) as [st1 R] eqn:Hr. simpl in *.
      assert (Hf1 : frame st (mark_aborted c R st1)).
      { pose proof (frame_abort_reason st r) as Hf. rewrite Hr in Hf.
        eapply frame_trans; [apply Hf|]. apply frame_mark.
        pose proof (abort_reason_signals st r) as Hs. rewrite Hr in Hs.
        unfold is_aborted. simpl in Hs. by rewrite Hs, Hl. }
      assert (Hlt : c < length (signals st1)).
      { pose proof (abort_reason_signals st r) as Hs. rewrite Hr in Hs.
        simpl in Hs. rewrite Hs. by eapply lookup_lt_Some. }
      destruct (fire_fired (abort_fuel f) f IH c R (listeners sg)
                           (mark_aborted c R st1)) as (st' & Hfire & Hfd).
      * lia.
      * by eapply wf_listeners_frame.
      * by apply reason_of_mark_eq.
      * pose proof (abort_reason_defined st r) as Hd. by rewrite Hr in Hd.
      * by apply is_aborted_mark_eq.
      * exists st'. split; [done|]. by apply Hcf.
  - eexists. split; [done|]. apply cascade_refl.
    intros Hlt. apply lookup_ge_None in Hl. lia.
Qed.

(** More fuel does not change the result. *)
Lemma fire_mono (ab ab' : state → sigid → value → option state) this snapshot :
  (∀ st c r st', ab st c r = Some st' → ab' st c r = Some st') →
  ∀ st st', fire ab this snapshot st = Some st' →
            fire ab' this snapshot st = Some st'.
Proof.
  intros Hab. induction snapshot as [|reg rest IH]; intros st st'; simpl; [done|].
  destruct (has_listener st this (callback reg)); [|apply IH].
  set (st1 := if once reg then _ else _).
  destruct (invoke ab this (callback reg) st1) as [st2|] eqn:Hi; [|done].
  simpl. intros Hf.
  assert (invoke ab' this (callback reg) st1 = Some st2) as ->; [|by apply IH].
  destruct (callback reg); simpl in *; try done.
  - destruct (ab st1 controller (reason_of st1 this)) as [s|] eqn:E; [|done].
    by rewrite (Hab _ _ _ _ E).
  - by apply Hab.
Qed.

Lemma abort_fuel_mono f : ∀ f' st c r st',
  f ≤ f' → abort_fuel f st c r = Some st' → abort_fuel f' st c r = Some st'.
Proof.
  induction f as [|f IH]; intros f' st c r st' Hle; [done|].
  destruct f' as [|f']; [lia|]. simpl.
  destruct (signals st !! c) as [sg|]; [|done].
  destruct (aborted sg); [done|].
  destruct (abort_reason st r) as [st1 R].
  apply fire_mono. intros s c' r' s'. apply IH. lia.
Qed.

Lemma abort_fuel_enough fuel st c r :
  wf_listeners st → live st < fuel →
  abort_fuel fuel st c r = Some (abort st c r).
Proof.
  intros Hwf Hlive.
  destruct (abort_fuel_cascade (S (live st)) st c r) as (st' & Hab & _);
    [lia|done|].
  unfold abort. rewrite Hab. simpl.
  eapply abort_fuel_mono; [|done]. lia.
Qed.

Lemma abort_cascade st c r :
  wf_listeners st → cascade c (abort_reason st r).2 st (abort st c r).
Proof.
  intros Hwf.
  destruct (abort_fuel_cascade (S (live st)) st c r) as (st' & Hab & Hc);
    [lia|done|].
  unfold abort. by rewrite Hab.
Qed.

(** ** Several calls of [abort] in a row

    [evolve D st st'] describes a sequence of calls of [abort], each on a
    controller [c] storing a reason [R] with [D c R]:
    - a signal becomes aborted either directly ([D]) or because a listener
      registered on a signal that becomes aborted ran, in which case it
      carries the reason of that signal and the listener of [any] has done
      its cleanup;
    - a listener stays registered unless its signal becomes aborted or its
      controller is aborted;
    - the listeners of a signal that becomes aborted have run. *)

Definition reasons_ok (st : state) : Prop :=
  ∀ x, is_aborted st x = true → reason_of st x ≠ VUndefined.

Record evolve (D : sigid → value → Prop) (st st' : state) : Prop := Evolve {
  ev_frame : frame st st';
  ev_reasons : reasons_ok st → reasons_ok st';
  ev_cause : ∀ k, newly st st' k →
    D k (reason_of st' k) ∨
    ∃ x l, registered st x l ∧ ctrl l = Some k ∧ newly st st' x
           ∧ reason_of st' k = reason_of st' x ∧ cleaned st' l;
  ev_keep : ∀ x l, registered st x l →
    registered st' x l ∨ newly st st' x ∨
    (∃ k, ctrl l = Some k ∧ is_aborted st' k = true);
  ev_push : ∀ x l k, newly st st' x → registered st x l → ctrl l = Some k →
    is_aborted st' k = true;
  ev_calls : ∀ id sig cb, excl st id sig cb →
    let ll := LifecycleListener id sig cb in
    let hit := newly st st' sig ∧ registered st sig ll in
    (hit → calls_via id st' =
           calls_via id st ++ [Call (Some id) cb (reason_of st' sig)] ∧
           ¬ registered st' sig ll) ∧
    (¬ hit → calls_via id st' = calls_via id st)
}.

Lemma evolve_refl D st : evolve D st st.
Proof.
  split.
  - apply frame_refl.
  - done.
  - intros k Hk. by apply newly_refl in Hk.
  - auto.
  - intros x l k Hx. by apply newly_refl in Hx.
  - intros id sig cb _ ll hit. split; [|done].
    intros [Hn _]. by apply newly_refl in Hn.
Qed.

Lemma evolve_of_cascade (D : sigid → value → Prop) c R st st' :
  D c R → R ≠ VUndefined → cascade c R st st' → evolve D st st'.
Proof.
  intros HD HRd [Hf Hd He Hk Hp Hc]. split; try done.
  - intros Hok x Hx. destruct (is_aborted st x) eqn:E.
    + rewrite (frame_reason _ _ _ Hf E). by apply Hok.
    + destruct (He x) as [-> _]; done.
  - intros k Hn. destruct (He k Hn) as [HR [->|(x & l & Hr & Hl & Hx & Hcl)]].
    + left. by rewrite HR.
    + right. exists x, l. destruct (He x Hx) as [HRx _].
      split; [done|]. split; [done|]. split; [done|]. split; [congruence|done].
  - intros id sig cb Hex ll hit. destruct (Hc id sig cb Hex) as [Hca Hcb].
    split; [|done]. intros Hh. destruct (He sig (proj1 Hh)) as [-> _].
    by apply Hca.
Qed.

Lemma evolve_trans D st st1 st2 :
  evolve D st st1 → evolve D st1 st2 → evolve D st st2.
Proof.
  intros [Hf1 Ho1 He1 Hk1 Hp1 Hc1] [Hf2 Ho2 He2 Hk2 Hp2 Hc2]. split.
  - by eapply frame_trans.
  - auto.
  - intros k Hk. destruct (newly_split _ st1 _ _ Hk) as [Hn|Hn].
    + assert (Hrk : reason_of st2 k = reason_of st1 k)
        by (apply (frame_reason _ _ _ Hf2), Hn).
      destruct (He1 k Hn) as [HD|(x & l & Hr & Hl & Hx & HR & Hcl)].
      * left. by rewrite Hrk.
      * right. exists x, l. split; [done|]. split; [done|].
        split; [by eapply newly_frame_l|]. split; [|by eapply cleaned_frame].
        rewrite Hrk, HR. symmetry. apply (frame_reason _ _ _ Hf2), Hx.
    + destruct (He2 k Hn) as [HD|(x & l & Hr & Hl & Hx & HR & Hcl)]; [by left|].
      right. exists x, l. split; [by eapply frame_registered|].
      split; [done|]. split; [by eapply newly_frame_r|]. done.
  - intros x l Hr. destruct (Hk1 x l Hr) as [Hr1|[Hn|(k & Hl & Ha)]].
    + destruct (Hk2 x l Hr1) as [?|[Hn|?]]; auto.
      right. left. by eapply newly_frame_r.
    + right. left. by eapply newly_frame_l.
    + right. right. exists k. split; [done|]. by eapply frame_aborted.
  - intros x l k Hx Hr Hl. destruct (newly_split _ st1 _ _ Hx) as [Hn|Hn].
    + eapply frame_aborted; [done|]. by eapply Hp1.
    + destruct (Hk1 x l Hr) as [Hr1|[Hn1|(k' & Hl' & Ha)]].
      * by eapply Hp2.
      * destruct Hn as [Hn _], Hn1 as [_ Hn1]. congruence.
      * eapply frame_aborted; [done|]. congruence.
  - intros id sig cb Hex ll hit.
    assert (Hex1 : excl st1 id sig cb) by by eapply excl_frame.
    destruct (Hc1 id sig cb Hex) as [Hc1a Hc1b].
    destruct (Hc2 id sig cb Hex1) as [Hc2a Hc2b].
    fold ll in Hc1a, Hc1b, Hc2a, Hc2b.
    destruct (decide (newly st st1 sig ∧ registered st sig ll)) as [H1|H1].
    + destruct (Hc1a H1) as [Hcalls Hnr]. split.
      * intros _. rewrite Hc2b by (by intros [_ ?]). split.
        -- rewrite Hcalls. do 3 f_equal. symmetry.
           apply (frame_reason _ _ _ Hf2), H1.
        -- intros Hr. apply Hnr. by eapply frame_registered.
      * intros Hnh. exfalso. apply Hnh. destruct H1 as [Hn Hr].
        split; [|done]. by eapply newly_frame_l.
    + rewrite <- (Hc1b H1). split.
      * intros [Hn Hr]. apply Hc2a.
        destruct (newly_split _ st1 _ _ Hn) as [Hn1|Hn2]; [by destruct H1|].
        split; [done|].
        destruct (Hk1 sig ll Hr) as [Hr1|[Hn1|(k' & Hl' & _)]]; try done.
        by destruct H1.
      * intros Hnh. apply Hc2b. intros [Hn Hr]. apply Hnh.
        split; [by eapply newly_frame_r|by eapply frame_registered].
Qed.

(** Aborting, one after the other, the controllers of a list. *)
Lemma evolve_foldl {A} (D : sigid → value → Prop) (f : A → sigid) r
    (hs : list A) : ∀ st,
  wf_listeners st →
  (∀ st' h, h ∈ hs → frame st st' → D (f h) (abort_reason st' r).2) →
  evolve D st (foldl (λ cur h, abort cur (f h) r) st hs)
  ∧ ∀ h, h ∈ hs → f h < length (signals st) →
         is_aborted (foldl (λ cur h, abort cur (f h) r) st hs) (f h) = true.
Proof.
  induction hs as [|h hs IH]; intros st Hwf HD; simpl.
  - split; [apply evolve_refl|]. intros h Hh. by apply elem_of_nil in Hh.
  - pose proof (abort_cascade st (f h) r Hwf) as Hc.
    pose proof (cs_frame _ _ _ _ Hc) as Hf.
    destruct (IH (abort st (f h) r)) as [IH1 IH2].
    { by eapply wf_listeners_frame. }
    { intros st' h' Hh' Hf'. apply HD; [by right|by eapply frame_trans]. }
    split.
    + eapply evolve_trans; [|apply IH1].
      eapply evolve_of_cascade; [|apply abort_reason_defined|done].
      apply HD; [by left|apply frame_refl].
    + intros h' Hh' Hlt. apply elem_of_cons in Hh' as [->|Hh'].
      * eapply frame_aborted; [apply IH1|]. by apply (cs_done _ _ _ _ Hc).
      * apply IH2; [done|]. by rewrite (fr_length _ _ Hf).
Qed.

(** * One operation

    [advance D st st'] describes one operation of a program: like
    [evolve], for the signals that exist before the operation, and moreover
    a listener that appears aborts a controller created by the operation,
    or is a listener of [manageLifecycle] with a symbol created by the
    operation. *)

Definition fresh_listener (st : state) (l : listener) : Prop :=
  (∀ k, ctrl l = Some k → length (signals st) ≤ k) ∧
  (∀ id, lid l = Some id → next_id st ≤ id).

Record advance (D : sigid → value → Prop) (st st' : state) : Prop := Advance {
  ad_length : length (signals st) ≤ length (signals st');
  ad_next : next_id st ≤ next_id st';
  ad_now : (now st ≤ now st')%Z;
  ad_mono : ∀ x, is_aborted st x = true →
    is_aborted st' x = true ∧ reason_of st' x = reason_of st x;
  ad_cause : ∀ k, k < length (signals st) → newly st st' k →
    D k (reason_of st' k) ∨
    ∃ x l, registered st x l ∧ ctrl l = Some k ∧ newly st st' x
           ∧ reason_of st' k = reason_of st' x ∧ cleaned st' l;
  ad_keep : ∀ x l, registered st x l →
    registered st' x l ∨ newly st st' x ∨
    (∃ k, ctrl l = Some k ∧ is_aborted st' k = true);
  ad_push : ∀ x l k, newly st st' x → registered st x l → ctrl l = Some k →
    is_aborted st' k = true;
  ad_fresh : ∀ x reg, reg ∈ listeners_of st' x →
    reg ∈ listeners_of st x ∨ fresh_listener st (callback reg);
  ad_calls : ∀ id sig cb, excl st id sig cb →
    let ll := LifecycleListener id sig cb in
    let hit := newly st st' sig ∧ registered st sig ll in
    (hit → calls_via id st' =
           calls_via id st ++ [Call (Some id) cb (reason_of st' sig)] ∧
           ¬ registered st' sig ll) ∧
    (¬ hit → calls_via id st' = calls_via id st)
}.

(** An operation that calls [abort], after changes [st0] to the rest of the
    store. *)
Lemma advance_of_evolve D st st0 st' :
  signals st0 = signals st → calls st0 = calls st →
  next_id st ≤ next_id st0 → (now st ≤ now st0)%Z →
  evolve D st0 st' → advance D st st'.
Proof.
  intros Hs Hc Hn Hnow [Hf _ He Hk Hp Hcl].
  assert (Ha : ∀ x, is_aborted st0 x = is_aborted st x).
  { intros x. unfold is_aborted. by rewrite Hs. }
  assert (Hl : ∀ x, listeners_of st0 x = listeners_of st x).
  { intros x. unfold listeners_of. by rewrite Hs. }
  assert (Hr : ∀ x l, registered st0 x l ↔ registered st x l).
  { intros x l. unfold registered. by rewrite Hl. }
  assert (Hnw : ∀ x, newly st0 st' x ↔ newly st st' x).
  { intros x. unfold newly. by rewrite Ha. }
  assert (Hv : ∀ id, calls_via id st0 = calls_via id st).
  { intros id. unfold calls_via. by rewrite Hc. }
  split.
  - rewrite <- Hs, (fr_length _ _ Hf). done.
  - pose proof (fr_next _ _ Hf). lia.
  - rewrite (fr_now _ _ Hf). done.
  - intros x Hx. rewrite <- Ha in Hx.
    destruct (fr_mono _ _ Hf x Hx) as [H1 H2]. split; [done|].
    rewrite H2. unfold reason_of. by rewrite Hs.
  - intros k _ Hk'. apply Hnw in Hk'.
    destruct (He k Hk') as [?|(x & l & H1 & H2 & H3 & H4)]; [by left|].
    right. exists x, l. split; [by apply Hr|]. split; [done|].
    split; [by apply Hnw|done].
  - intros x l Hx. apply Hr in Hx.
    destruct (Hk x l Hx) as [?|[?|?]]; auto. right. left. by apply Hnw.
  - intros x l k Hx Hx' Hl'. eapply Hp; [by apply Hnw|by apply Hr|done].
  - intros x reg Hin. left. rewrite <- Hl. by apply (fr_sub _ _ Hf).
  - intros id sig cb Hex ll hit.
    destruct (Hcl id sig cb) as [Hca Hcb].
    { intros x reg. rewrite Hl. apply Hex. }
    fold ll in Hca, Hcb. rewrite Hv in Hca, Hcb. split.
    + intros [H1 H2]. apply Hca. split; [by apply Hnw|by apply Hr].
    + intros Hnh. apply Hcb. intros [H1 H2]. apply Hnh.
      split; [by apply Hnw|by apply Hr].
Qed.

(** An operation that aborts no existing signal. *)
Lemma advance_calm D st st' :
  length (signals st) ≤ length (signals st') →
  next_id st ≤ next_id st' → (now st ≤ now st')%Z →
  (∀ x, x < length (signals st) →
        is_aborted st' x = is_aborted st x ∧ reason_of st' x = reason_of st x) →
  (∀ x reg, reg ∈ listeners_of st' x →
            reg ∈ listeners_of st x ∨ fresh_listener st (callback reg)) →
  (∀ x l, registered st x l → registered st' x l) →
  (∀ id, calls_via id st' = calls_via id st) →
  advance D st st'.
Proof.
  intros Hlen Hnext Hnow Hsame Hfresh Hkeep Hcalls.
  assert (Hnn : ∀ x, x < length (signals st) → ¬ newly st st' x).
  { intros x Hx [H1 H2]. destruct (Hsame x Hx) as [H3 _]. congruence. }
  split; try done.
  - intros x Hx. destruct (Hsame x (is_aborted_lt _ _ Hx)) as [H1 H2].
    split; congruence.
  - intros k Hk Hn. by apply Hnn in Hn.
  - intros x l Hr. left. by apply Hkeep.
  - intros x l k Hn Hr. apply Hnn in Hn; [done|]. by eapply registered_lt.
  - intros id sig cb Hex ll hit. split; [|auto].
    intros [Hn Hr]. apply Hnn in Hn; [done|]. by eapply registered_lt.
Qed.

(** ** Operations that abort no existing signal

    [calm n m N st st'] : the signals below [n] keep their state, nothing
    is removed, and the registrations that appear satisfy [N]. *)

Record calm (n : nat) (N : sigid → registration → Prop) (st st' : state)
    : Prop := Calm {
  cm_length : length (signals st) ≤ length (signals st');
  cm_next : next_id st ≤ next_id st';
  cm_same : ∀ x, x < n →
    is_aborted st' x = is_aborted st x ∧ reason_of st' x = reason_of st x;
  cm_reasons : reasons_ok st → reasons_ok st';
  cm_keep : ∀ x reg, reg ∈ listeners_of st x → reg ∈ listeners_of st' x;
  cm_fresh : ∀ x reg, reg ∈ listeners_of st' x →
    reg ∈ listeners_of st x ∨ N x reg;
  cm_calls : ∀ id, calls_via id st' = calls_via id st;
  cm_never : neverSignal st' = neverSignal st;
  cm_owned : owned st' = owned st;
  cm_timers : timers st' = timers st;
  cm_handlers : handlers st' = handlers st;
  cm_registry : registry st' = registry st;
  cm_now : now st' = now st
}.

Lemma length_mark x r st :
  length (signals (mark_aborted x r st)) = length (signals st).
Proof. apply length_upd. Qed.

Section Calm.
Context (n : nat) (N : sigid → registration → Prop).
Implicit Types (st : state) (x c : sigid) (l : listener).

Lemma calm_refl st : calm n N st st.
Proof. split; auto. Qed.

Lemma calm_trans st1 st2 st3 :
  calm n N st1 st2 → calm n N st2 st3 → calm n N st1 st3.
Proof.
  intros [] []. split; try congruence; try lia; auto.
  - intros x Hx. destruct (cm_same0 x Hx), (cm_same1 x Hx).
    split; congruence.
  - intros x reg Hin. destruct (cm_fresh1 x reg Hin); auto.
Qed.

Lemma lookup_new_controller st x :
  signals (new_controller st).1 !! x =
  if decide (x = length (signals st)) then Some (Signal false VUndefined [])
  else signals st !! x.
Proof.
  simpl. destruct (decide (x = length (signals st))) as [->|Hne].
  - by rewrite list_lookup_middle.
  - destruct (decide (x < length (signals st))).
    + by rewrite lookup_app_l.
    + rewrite !lookup_ge_None_2; [done|lia|]. rewrite length_app. simpl. lia.
Qed.

Lemma new_controller_view st :
  (∀ x, is_aborted (new_controller st).1 x = is_aborted st x) ∧
  (∀ x, reason_of (new_controller st).1 x = reason_of st x) ∧
  (∀ x, listeners_of (new_controller st).1 x = listeners_of st x).
Proof.
  assert (Hnone : signals st !! length (signals st) = None)
    by (by apply lookup_ge_None_2).
  repeat split; intros x; unfold is_aborted, reason_of, listeners_of;
    rewrite lookup_new_controller;
    (destruct (decide (x = length (signals st))) as [->|]; [|done]);
    by rewrite Hnone.
Qed.

Lemma length_new_controller st :
  length (signals (new_controller st).1) = S (length (signals st)).
Proof. simpl. rewrite length_app. simpl. lia. Qed.

Lemma calm_new_controller st : calm n N st (new_controller st).1.
Proof.
  destruct (new_controller_view st) as (Ha & Hr & Hl).
  split; try done.
  - rewrite length_new_controller. lia.
  - intros Hok x. rewrite Ha, Hr. apply Hok.
  - intros x reg. by rewrite Hl.
  - intros x reg. rewrite Hl. auto.
Qed.

Lemma calm_add x l o st :
  N x (Reg l o) → calm n N st (addEventListener x l o st).
Proof.
  intros HN.
  split; try (unfold addEventListener; by destruct (has_listener st x l)).
  - by rewrite length_add.
  - intros y _. by rewrite is_aborted_add, reason_of_add.
  - intros Hok y. rewrite is_aborted_add, reason_of_add. apply Hok.
  - intros y reg Hin. apply elem_of_add. by left.
  - intros y reg Hin. apply elem_of_add in Hin as [?|(-> & _ & -> & _)]; auto.
Qed.

Lemma calm_mark c r st :
  n ≤ c → r ≠ VUndefined → calm n N st (mark_aborted c r st).
Proof.
  intros Hc Hr. split; try done.
  - by rewrite length_mark.
  - intros x Hx. rewrite is_aborted_mark_ne, reason_of_mark_ne by lia. done.
  - intros Hok x. destruct (decide (c = x)) as [->|Hne].
    + intros Ha. apply is_aborted_lt in Ha. rewrite length_mark in Ha.
      by rewrite reason_of_mark_eq.
    + rewrite is_aborted_mark_ne, reason_of_mark_ne by done. apply Hok.
  - intros x reg. by rewrite listeners_of_mark.
  - intros x reg. rewrite listeners_of_mark. auto.
Qed.

Lemma calm_bump st : calm n N st (bump_id st).
Proof. split; simpl; auto. Qed.

Lemma calm_abort_reason st r : calm n N st (abort_reason st r).1.
Proof. destruct r; simpl; auto using calm_refl, calm_bump. Qed.

Lemma calm_record_none cb arg st : calm n N st (record_call None cb arg st).
Proof.
  split; try done; auto.
  intros id. unfold calls_via, record_call. simpl.
  rewrite filter_app, filter_cons, filter_nil. simpl.
  destruct (decide (None = Some id)); [done|]. by rewrite app_nil_r.
Qed.

(** [abort] on a signal nobody listens to. *)
Lemma abort_no_listeners st c r :
  c < length (signals st) → is_aborted st c = false → listeners_of st c = [] →
  abort st c r = mark_aborted c (abort_reason st r).2 (abort_reason st r).1.
Proof.
  unfold is_aborted, listeners_of, abort. intros Hlt Ha Hl. simpl.
  destruct (signals st !! c) as [sg|] eqn:E.
  - rewrite Ha. destruct (abort_reason st r) as [st1 R]. rewrite Hl. done.
  - apply lookup_ge_None in E. lia.
Qed.

Lemma calm_abort_fresh st c r :
  n ≤ c → c < length (signals st) → is_aborted st c = false →
  listeners_of st c = [] → calm n N st (abort st c r).
Proof.
  intros Hn Hlt Ha Hl. rewrite abort_no_listeners by done.
  eapply calm_trans; [apply calm_abort_reason|].
  apply calm_mark; [done|apply abort_reason_defined].
Qed.
End Calm.

Lemma calm_weaken n (N N' : sigid → registration → Prop) st st' :
  (∀ x reg, N x reg → N' x reg) → calm n N st st' → calm n N' st st'.
Proof.
  intros HN []. split; try done.
  intros x reg Hin. destruct (cm_fresh0 x reg Hin); auto.
Qed.

(** From [calm] to [advance]; the last step [st1 → st'] changes neither
    the signals nor the log. *)
Lemma advance_of_calm D N st st1 st' :
  calm (length (signals st)) N st st1 →
  (∀ x reg, N x reg → fresh_listener st (callback reg)) →
  signals st' = signals st1 → calls st' = calls st1 →
  next_id st1 ≤ next_id st' → (now st ≤ now st')%Z →
  advance D st st'.
Proof.
  intros [] HN Hs Hc Hn Hnow.
  assert (Ha : ∀ x, is_aborted st' x = is_aborted st1 x).
  { intros x. unfold is_aborted. by rewrite Hs. }
  assert (Hr : ∀ x, reason_of st' x = reason_of st1 x).
  { intros x. unfold reason_of. by rewrite Hs. }
  assert (Hl : ∀ x, listeners_of st' x = listeners_of st1 x).
  { intros x. unfold listeners_of. by rewrite Hs. }
  apply advance_calm; try done.
  - by rewrite Hs.
  - lia.
  - intros x Hx. rewrite Ha, Hr. by apply cm_same0.
  - intros x reg. rewrite Hl. intros Hin.
    destruct (cm_fresh0 x reg Hin) as [?|HN']; [by left|]. right. by apply (HN x).
  - intros x l. rewrite !registered_iff. intros (reg & Hin & <-).
    exists reg. split; [|done]. rewrite Hl. by apply cm_keep0.
  - intros id. unfold calls_via. rewrite Hc. apply cm_calls0.
Qed.

(** ** The methods that abort no existing signal *)

Lemma listeners_of_add_ne x l o y st :
  x ≠ y → listeners_of (addEventListener x l o st) y = listeners_of st y.
Proof.
  intros Hne. unfold addEventListener. destruct (has_listener st x l); [done|].
  rewrite listeners_of_upd. by rewrite decide_False.
Qed.

Definition any_new (C : sigid) (sigs : list sigid) (x : sigid)
    (reg : registration) : Prop :=
  reg = Reg (AnyOnAbort C sigs) false ∧ x ∈ sigs.

Definition follow_new (C p : sigid) (x : sigid) (reg : registration) : Prop :=
  reg = Reg (FollowOnAbort C p) true ∧ x = p.

Definition lifecycle_new (id : nat) (sig : sigid) (cb : cbid) (x : sigid)
    (reg : registration) : Prop :=
  reg = Reg (LifecycleListener id sig cb) true ∧ x = sig.

Definition no_new (x : sigid) (reg : registration) : Prop := False.

Lemma any_scan_calm n C sigs rest : ∀ cur,
  n ≤ C → C < length (signals cur) → is_aborted cur C = false →
  listeners_of cur C = [] →
  (∀ s, s ∈ rest → s ≠ C ∧ s ∈ sigs) →
  calm n (any_new C sigs) cur (any_scan C (AnyOnAbort C sigs) rest cur).
Proof.
  induction rest as [|s rest IH]; intros cur Hn Hlt Ha Hl Hrest; simpl.
  - apply calm_refl.
  - destruct (is_aborted cur s) eqn:Hs.
    + by apply calm_abort_fresh.
    + destruct (Hrest s) as [Hne Hin]; [by left|].
      eapply calm_trans; [apply calm_add; by split|]. apply IH; try done.
      * by rewrite length_add.
      * by rewrite is_aborted_add.
      * by rewrite listeners_of_add_ne.
      * intros s' Hs'. apply Hrest. by right.
Qed.

Lemma fresh_controller st :
  let C := length (signals st) in
  let st1 := (new_controller st).1 in
  C < length (signals st1) ∧ is_aborted st1 C = false ∧ listeners_of st1 C = [].
Proof.
  destruct (new_controller_view st) as (Ha & _ & Hl). simpl.
  split; [rewrite length_app; simpl; lia|]. split.
  - specialize (Ha (length (signals st))). simpl in Ha. rewrite Ha.
    unfold is_aborted. by rewrite lookup_ge_None_2.
  - specialize (Hl (length (signals st))). simpl in Hl. rewrite Hl.
    unfold listeners_of. by rewrite lookup_ge_None_2.
Qed.

Lemma any_calm st sigs :
  Forall (exists_signal st) sigs →
  calm (length (signals st)) (any_new (length (signals st)) sigs)
       st (any st sigs).1.
Proof.
  intros Hex. unfold any. simpl.
  destruct (fresh_controller st) as (Hlt & Ha & Hl).
  eapply calm_trans; [apply calm_new_controller|].
  apply any_scan_calm; try done.
  intros s Hs. split; [|done].
  rewrite Forall_forall in Hex. specialize (Hex s Hs).
  unfold exists_signal in Hex. lia.
Qed.

Lemma follow_calm st p :
  calm (length (signals st)) (follow_new (length (signals st)) p)
       st (follow st p).1.
Proof.
  unfold follow.
  destruct (fresh_controller st) as (Hlt & Ha & Hl).
  eapply calm_trans; [apply calm_new_controller|].
  change (new_controller st) with ((new_controller st).1, length (signals st)).
  cbv iota beta.
  destruct (is_aborted (new_controller st).1 p); simpl.
  - by apply calm_abort_fresh.
  - apply calm_add. done.
Qed.

Lemma follow_result st p : (follow st p).2 = length (signals st).
Proof.
  unfold follow.
  change (new_controller st) with ((new_controller st).1, length (signals st)).
  cbv iota beta. by destruct (is_aborted _ p).
Qed.

Lemma any_result st sigs : (any st sigs).2 = length (signals st).
Proof. done. Qed.

(** [manageLifecycle] before its registry cell is recorded. *)
Definition manageLifecycle_heap (st : state) (sig : sigid) (onAbort : cbid)
    : state :=
  if is_aborted st sig then record_call None onAbort (reason_of st sig) st
  else addEventListener sig (LifecycleListener (next_id st) sig onAbort) true
                        (bump_id st).

Lemma manageLifecycle_calm n st sig cb :
  calm n (lifecycle_new (next_id st) sig cb) st (manageLifecycle_heap st sig cb).
Proof.
  unfold manageLifecycle_heap. destruct (is_aborted st sig).
  - apply calm_record_none.
  - eapply calm_trans; [apply calm_bump|]. apply calm_add. done.
Qed.

Lemma manageLifecycle_split st t sig cb :
  signals (manageLifecycle st t sig cb) = signals (manageLifecycle_heap st sig cb)
  ∧ calls (manageLifecycle st t sig cb) = calls (manageLifecycle_heap st sig cb)
  ∧ next_id (manageLifecycle st t sig cb) = next_id (manageLifecycle_heap st sig cb)
  ∧ now (manageLifecycle st t sig cb) = now st
  ∧ owned (manageLifecycle st t sig cb) = owned st
  ∧ timers (manageLifecycle st t sig cb) = timers st
  ∧ handlers (manageLifecycle st t sig cb) = handlers st
  ∧ neverSignal (manageLifecycle st t sig cb) = neverSignal st.
Proof.
  unfold manageLifecycle, manageLifecycle_heap.
  destruct (is_aborted st sig); [done|]. simpl.
  unfold addEventListener. by destruct (has_listener _ _ _).
Qed.

(** ** The callbacks of the registries *)

(** Running the callbacks of registries only removes their listeners. *)
Record shrunk (fs : list finalizer) (st st' : state) : Prop := Shrunk {
  sh_length : length (signals st') = length (signals st);
  sh_aborted : ∀ x, is_aborted st' x = is_aborted st x;
  sh_reason : ∀ x, reason_of st' x = reason_of st x;
  sh_sub : ∀ x reg, reg ∈ listeners_of st' x → reg ∈ listeners_of st x;
  sh_keep : ∀ x reg, reg ∈ listeners_of st x →
    reg ∈ listeners_of st' x ∨
    ∃ f, f ∈ fs ∧ fin_signal f = x ∧ fin_listener f = callback reg;
  sh_calls : calls st' = calls st;
  sh_next : next_id st' = next_id st;
  sh_now : now st' = now st;
  sh_owned : owned st' = owned st;
  sh_timers : timers st' = timers st;
  sh_handlers : handlers st' = handlers st;
  sh_registry : registry st' = registry st;
  sh_never : neverSignal st' = neverSignal st
}.

Lemma shrunk_step f st : shrunk [f] st (run_finalizer f st).
Proof.
  unfold run_finalizer. destruct (bool_decide _).
  - split; try done.
    + apply length_upd.
    + intros x. apply is_aborted_remove.
    + intros x. apply reason_of_remove.
    + intros x reg Hin. by apply elem_of_remove in Hin as [? _].
    + intros x reg Hin.
      destruct (decide (fin_signal f = x ∧ callback reg = fin_listener f))
        as [[H1 H2]|Hne].
      * right. exists f. split; [by left|done].
      * left. apply elem_of_remove. done.
  - split; auto.
Qed.

Lemma shrunk_foldl fs : ∀ st,
  shrunk fs st (foldl (λ cur f, run_finalizer f cur) st fs).
Proof.
  induction fs as [|f fs IH]; intros st; simpl.
  - split; auto.
  - pose proof (IH (run_finalizer f st)) as H2.
    pose proof (shrunk_step f st) as H1.
    split.
    + rewrite (sh_length _ _ _ H2). apply H1.
    + intros x. rewrite (sh_aborted _ _ _ H2). apply H1.
    + intros x. rewrite (sh_reason _ _ _ H2). apply H1.
    + intros x reg Hin. apply (sh_sub _ _ _ H1), (sh_sub _ _ _ H2), Hin.
    + intros x reg Hin.
      destruct (sh_keep _ _ _ H1 x reg Hin) as [Hin'|(f' & Hf' & ?)].
      * destruct (sh_keep _ _ _ H2 x reg Hin') as [?|(f' & Hf' & ?)]; [by left|].
        right. exists f'. split; [by right|done].
      * right. exists f'. apply list_elem_of_singleton in Hf' as ->.
        split; [by left|done].
    + rewrite (sh_calls _ _ _ H2). apply H1.
    + rewrite (sh_next _ _ _ H2). apply H1.
    + rewrite (sh_now _ _ _ H2). apply H1.
    + rewrite (sh_owned _ _ _ H2). apply H1.
    + rewrite (sh_timers _ _ _ H2). apply H1.
    + rewrite (sh_handlers _ _ _ H2). apply H1.
    + rewrite (sh_registry _ _ _ H2). apply H1.
    + rewrite (sh_never _ _ _ H2). apply H1.
Qed.

(** ** Every operation advances the store *)

(** The operation [o] itself aborts the controller [k] with reason [R]. *)
Definition direct (st : state) (o : op) (k : sigid) (R : value) : Prop :=
  match o with
  | OpAbort c r => c = k ∧ c ∈ owned st ∧ R = (abort_reason st r).2
  | OpRunTimer id =>
      ∃ t, t ∈ timers st ∧ tm_id t = id ∧ tm_controller t = k
           ∧ (tm_due t ≤ now st)%Z
           ∧ R = TimeoutError (next_id st) (Some (timeout_message (tm_ms t)))
  | OpDispatch tg n ev _ =>
      ∃ h, h ∈ handlers st ∧ listens tg n h ∧ h_controller h = k
           ∧ (ev ≠ VUndefined → R = ev)
  | _ => False
  end.

Lemma wf_listeners_signals st st' :
  signals st' = signals st → wf_listeners st → wf_listeners st'.
Proof.
  intros Hs Hwf x l. unfold registered, listeners_of. rewrite Hs.
  apply Hwf.
Qed.

Lemma advance_refl D st : advance D st st.
Proof. eapply advance_of_evolve; try done. apply evolve_refl. Qed.

Lemma fresh_any st C sigs x reg :
  C = length (signals st) → any_new C sigs x reg →
  fresh_listener st (callback reg).
Proof. intros -> [-> _]. split; simpl; [|done]. intros k [= <-]. done. Qed.

Lemma fresh_follow st C p x reg :
  C = length (signals st) → follow_new C p x reg →
  fresh_listener st (callback reg).
Proof. intros -> [-> _]. split; simpl; [|done]. intros k [= <-]. done. Qed.

Lemma fresh_lifecycle st sig cb x reg :
  lifecycle_new (next_id st) sig cb x reg → fresh_listener st (callback reg).
Proof. intros [-> _]. split; simpl; [done|]. intros k [= <-]. done. Qed.

Lemma run_timer_evolve id st :
  wf_listeners st →
  ∃ st0, signals st0 = signals st ∧ calls st0 = calls st
         ∧ next_id st ≤ next_id st0 ∧ now st0 = now st
         ∧ evolve (direct st (OpRunTimer id)) st0 (run_timer id st).
Proof.
  intros Hwf. unfold run_timer.
  destruct (filter (λ t, tm_id t = id) (timers st)) as [|t ts] eqn:Hflt.
  { exists st. split_and!; try done. apply evolve_refl. }
  destruct (bool_decide (tm_due t ≤ now st)%Z) eqn:Hdue.
  2: { exists st. split_and!; try done. apply evolve_refl. }
  apply bool_decide_eq_true in Hdue.
  assert (Hin : t ∈ filter (λ t, tm_id t = id) (timers st))
    by (rewrite Hflt; by left).
  apply list_elem_of_filter in Hin as [Hid Hin].
  set (st0 := set_timers (filter (λ t', tm_id t' ≠ id) (timers st)) st).
  exists (bump_id st0). split_and!; try done; [simpl; lia|].
  unfold timeout_callback.
  assert (Hwf0 : wf_listeners (bump_id st0))
    by (by apply (wf_listeners_signals st)).
  pose proof (abort_cascade (bump_id st0) (tm_controller t)
                (TimeoutError (next_id st0)
                              (Some (timeout_message (tm_ms t)))) Hwf0) as Hc.
  eapply evolve_of_cascade; [| |apply Hc]; [|done].
  simpl. exists t. split_and!; done.
Qed.

Lemma dispatch_evolve tg n ev strict st :
  wf_listeners st →
  ∃ st0, signals st0 = signals st ∧ calls st0 = calls st
         ∧ next_id st0 = next_id st ∧ now st0 = now st
         ∧ owned st0 = owned st ∧ timers st0 = timers st
         ∧ registry st0 = registry st ∧ neverSignal st0 = neverSignal st
         ∧ handlers st0 ⊆ handlers st
         ∧ (∀ h, h ∈ handlers st → ¬ listens tg n h → h ∈ handlers st0)
         ∧ evolve (direct st (OpDispatch tg n ev strict)) st0
                  (dispatchEvent tg n ev strict st)
         ∧ ∀ h, h ∈ handlers st → listens tg n h →
                h_controller h < length (signals st) →
                is_aborted (dispatchEvent tg n ev strict st) (h_controller h)
                = true.
Proof.
  intros Hwf. unfold dispatchEvent.
  set (st0 := if strict then set_handlers _ st else st).
  assert (Hs : signals st0 = signals st) by (unfold st0; by destruct strict).
  exists st0.
  destruct (evolve_foldl (direct st (OpDispatch tg n ev strict)) h_controller ev
              (filter (listens tg n) (handlers st)) st0) as [H1 H2].
  { by apply (wf_listeners_signals st). }
  { intros st' h Hh _. apply list_elem_of_filter in Hh as [Hl Hh].
    simpl. exists h. split_and!; try done; try apply Hl.
    intros Hev. by rewrite abort_reason_id. }
  split_and!; try (unfold st0; by destruct strict); try done.
  - unfold st0. destruct strict; [|done]. simpl.
    intros h Hh. by apply list_elem_of_filter in Hh as [_ ?].
  - unfold st0. destruct strict; [|done]. simpl.
    intros h Hh Hl. apply list_elem_of_filter. split; [|done]. by intros [? _].
  - intros h Hh Hl Hlt. apply H2; [|by rewrite Hs].
    apply list_elem_of_filter. done.
Qed.

Lemma step_advance st o :
  wf_listeners st → advance (direct st o) st (step st o).
Proof.
  intros Hwf. destruct o as [|c r|h ms|sigs|t s cb|p|t n| |dt|id|t n ev strict|t];
    cbn [step].
  - (* new AbortController() *)
    eapply advance_of_calm with (N := no_new);
      [apply calm_new_controller|done..].
  - (* controller.abort(r) *)
    destruct (bool_decide (c ∈ owned st)) eqn:Hc; [|apply advance_refl].
    apply bool_decide_eq_true in Hc.
    eapply advance_of_evolve; try done.
    eapply evolve_of_cascade;
      [done|apply abort_reason_defined|by apply abort_cascade].
  - (* timeout *)
    eapply advance_of_calm with (N := no_new)
                                (st1 := bump_id (new_controller st).1);
      try done.
    eapply calm_trans; [apply calm_new_controller|apply calm_bump].
  - (* any *)
    destruct (bool_decide (Forall (exists_signal st) sigs)) eqn:Hex;
      [|apply advance_refl].
    apply bool_decide_eq_true in Hex.
    pose proof (any_calm st sigs Hex) as Hcalm.
    eapply advance_of_calm; [apply Hcalm| |done|done|done|].
    + intros x reg. by apply fresh_any.
    + rewrite (cm_now _ _ _ _ Hcalm). done.
  - (* manageLifecycle *)
    destruct (bool_decide (exists_signal st s)); [|apply advance_refl].
    destruct (manageLifecycle_split st t s cb) as (H1 & H2 & H3 & H4 & _).
    eapply advance_of_calm; [apply manageLifecycle_calm| |done|done|lia|lia].
    intros x reg. apply fresh_lifecycle.
  - (* follow *)
    destruct (bool_decide (exists_signal st p)); [|apply advance_refl].
    pose proof (follow_calm st p) as Hcalm.
    destruct (follow st p) as [st1 c] eqn:Hf. simpl in Hcalm.
    eapply advance_of_calm; [apply Hcalm| |done|done|done|].
    + intros x reg. by apply fresh_follow.
    + simpl. rewrite (cm_now _ _ _ _ Hcalm). done.
  - (* fromEvent *)
    eapply advance_of_calm with (N := no_new);
      [apply calm_new_controller|done..].
  - (* never *)
    unfold never. destruct (neverSignal st); [apply advance_refl|].
    eapply advance_of_calm with (N := no_new) (st1 := (new_controller st).1);
      try done.
    apply calm_new_controller.
  - (* the clock advances *)
    eapply advance_of_calm with (N := no_new) (st1 := st); try done.
    + apply calm_refl.
    + simpl. lia.
  - (* a timer runs *)
    destruct (run_timer_evolve id st Hwf) as (st0 & H1 & H2 & H3 & H4 & H5).
    eapply advance_of_evolve; try done. lia.
  - (* an event is delivered *)
    destruct (dispatch_evolve t n ev strict st Hwf)
      as (st0 & H1 & H2 & H3 & H4 & _ & _ & _ & _ & _ & _ & H5 & _).
    eapply advance_of_evolve; try done; lia.
  - (* a host object is collected *)
    apply advance_calm; try done. intros x reg Hin. by left.
Qed.

(** * The invariant of the store *)

Record inv_heap (st : state) : Prop := InvHeap {
  inv_listeners : wf_listeners st;
  inv_ids : ∀ x reg id, reg ∈ listeners_of st x →
    lid (callback reg) = Some id → id < next_id st ∧ ∃ cb, excl st id x cb;
  inv_reasons : reasons_ok st
}.

Record inv_range (st : state) : Prop := InvRange {
  inv_owned : ∀ c, c ∈ owned st → c < length (signals st);
  inv_timers : ∀ t, t ∈ timers st →
    tm_controller t < length (signals st) ∧ tm_id t < next_id st;
  inv_timer_ids : ∀ t t', t ∈ timers st → t' ∈ timers st →
    tm_id t = tm_id t' → t = t';
  inv_handlers : ∀ h, h ∈ handlers st → h_controller h < length (signals st);
  inv_registry : ∀ f, f ∈ registry st →
    fin_cleanupId f < next_id st ∧
    lid (fin_listener f) = Some (fin_cleanupId f);
  inv_never : ∀ s, neverSignal st = Some s → s < length (signals st)
}.

Definition inv (st : state) : Prop := inv_heap st ∧ inv_range st.

(** What the registrations made by an operation look like. *)
Definition new_ok (st st1 : state) (N : sigid → registration → Prop) : Prop :=
  ∀ x reg, N x reg →
    match callback reg with
    | AnyOnAbort ctl _ => ctl < length (signals st1)
    | FollowOnAbort ctl p => ctl < length (signals st1) ∧ p = x
    | LifecycleListener id s cb =>
        id = next_id st ∧ next_id st < next_id st1 ∧
        reg = Reg (LifecycleListener id x cb) true ∧
        (∀ x' reg', N x' reg' → x' = x ∧ reg' = reg)
    end.

Lemma inv_heap_calm st st1 N :
  inv_heap st → calm (length (signals st)) N st st1 → new_ok st st1 N →
  inv_heap st1.
Proof.
  intros [Hwf Hids Hok] Hcalm Hnew. split.
  - intros x l Hr. apply registered_iff in Hr as (reg & Hin & <-).
    destruct (cm_fresh _ _ _ _ Hcalm x reg Hin) as [Hin0|HN].
    + assert (Hr0 : registered st x (callback reg))
        by (apply registered_iff; eauto).
      specialize (Hwf x _ Hr0). pose proof (cm_length _ _ _ _ Hcalm).
      destruct (callback reg); try done; [lia|].
      destruct Hwf. split; [lia|done].
    + specialize (Hnew x reg HN). by destruct (callback reg).
  - intros x reg id Hin Hid.
    pose proof (cm_next _ _ _ _ Hcalm) as Hnx.
    destruct (cm_fresh _ _ _ _ Hcalm x reg Hin) as [Hin0|HN].
    + destruct (Hids x reg id Hin0 Hid) as (Hlt & cb & Hex). split; [lia|].
      exists cb. intros x' reg' Hin' Hid'.
      destruct (cm_fresh _ _ _ _ Hcalm x' reg' Hin') as [Hin0'|HN'].
      * by apply Hex.
      * specialize (Hnew x' reg' HN').
        destruct (callback reg'); try done. simpl in Hid'.
        injection Hid' as ->. destruct Hnew as (-> & _). lia.
    + pose proof (Hnew x reg HN) as Hn.
      destruct (callback reg) as [| id' s' cb' |] eqn:Ecb; try done.
      simpl in Hid. injection Hid as ->.
      destruct Hn as (-> & Hlt & Hreg & Huniq). split; [done|].
      exists cb'. intros x' reg' Hin' Hid'.
      destruct (cm_fresh _ _ _ _ Hcalm x' reg' Hin') as [Hin0'|HN'].
      * destruct (Hids x' reg' _ Hin0' Hid') as [? _]. lia.
      * destruct (Huniq x' reg' HN') as [-> ->]. done.
  - by apply (cm_reasons _ _ _ _ Hcalm).
Qed.

Lemma inv_heap_signals st st' :
  signals st' = signals st → next_id st ≤ next_id st' →
  inv_heap st → inv_heap st'.
Proof.
  intros Hs Hn [Hwf Hids Hok].
  assert (Hl : ∀ x, listeners_of st' x = listeners_of st x).
  { intros x. unfold listeners_of. by rewrite Hs. }
  split.
  - by apply (wf_listeners_signals st).
  - intros x reg id. rewrite Hl. intros Hin Hid.
    destruct (Hids x reg id Hin Hid) as (Hlt & cb & Hex). split; [lia|].
    exists cb. intros x' reg'. rewrite Hl. apply Hex.
  - intros x. unfold is_aborted, reason_of. rewrite Hs. apply Hok.
Qed.

(** Listeners are only removed. *)
Lemma inv_heap_sub st st' :
  inv_heap st → length (signals st') = length (signals st) →
  next_id st ≤ next_id st' →
  (∀ x reg, reg ∈ listeners_of st' x → reg ∈ listeners_of st x) →
  reasons_ok st' → inv_heap st'.
Proof.
  intros [Hwf Hids Hok] Hlen Hn Hsub Hok'. split; [| |done].
  - intros x l Hr. apply registered_iff in Hr as (reg & Hin & <-).
    apply Hsub in Hin.
    assert (Hr0 : registered st x (callback reg))
      by (apply registered_iff; eauto).
    specialize (Hwf x _ Hr0). rewrite Hlen. done.
  - intros x reg id Hin Hid.
    destruct (Hids x reg id (Hsub _ _ Hin) Hid) as (Hlt & cb & Hex).
    split; [lia|]. exists cb. intros x' reg' Hin'. apply Hex. by apply Hsub.
Qed.

Lemma inv_heap_evolve D st st' : inv_heap st → evolve D st st' → inv_heap st'.
Proof.
  intros Hinv Hev. pose proof (ev_frame _ _ _ Hev) as Hf.
  eapply inv_heap_sub; try done.
  - apply Hf.
  - apply Hf.
  - apply Hf.
  - apply (ev_reasons _ _ _ Hev), Hinv.
Qed.

Lemma inv_range_frame st st' : frame st st' → inv_range st → inv_range st'.
Proof.
  intros Hf [H1 H2 H3 H4 H5 H6].
  pose proof (fr_next _ _ Hf) as Hn.
  split; rewrite ?(fr_length _ _ Hf), ?(fr_owned _ _ Hf), ?(fr_timers _ _ Hf),
    ?(fr_handlers _ _ Hf), ?(fr_registry _ _ Hf), ?(fr_never _ _ Hf); try done.
  - intros t Ht. destruct (H2 t Ht). split; [done|lia].
  - intros f Hin. destruct (H5 f Hin). split; [lia|done].
Qed.

Lemma inv_init : inv init_state.
Proof.
  split; split; simpl; try done.
  - intros x l Hr. apply registered_lt in Hr. simpl in Hr. lia.
  - intros x reg id Hin. unfold listeners_of in Hin. simpl in Hin.
    by apply elem_of_nil in Hin.
  - intros c Hc. by apply elem_of_nil in Hc.
  - intros t Ht. by apply elem_of_nil in Ht.
  - intros t t' Ht. by apply elem_of_nil in Ht.
  - intros h Hh. by apply elem_of_nil in Hh.
  - intros f Hf. by apply elem_of_nil in Hf.
Qed.

Lemma inv_range_grow st st' :
  inv_range st →
  length (signals st) ≤ length (signals st') → next_id st ≤ next_id st' →
  owned st' ⊆ owned st → timers st' ⊆ timers st →
  handlers st' ⊆ handlers st → registry st' ⊆ registry st →
  (∀ s, neverSignal st' = Some s → neverSignal st = Some s) →
  inv_range st'.
Proof.
  intros [H1 H2 H3 H4 H5 H6] Hlen Hn Ho Ht Hh Hr Hnv. split.
  - intros c Hc. apply Ho, H1 in Hc. lia.
  - intros t Hin. apply Ht, H2 in Hin. lia.
  - intros t t' Hin Hin'. apply H3; auto.
  - intros h Hin. apply Hh, H4 in Hin. lia.
  - intros f Hin. apply Hr, H5 in Hin. destruct Hin. split; [lia|done].
  - intros s Hs. apply Hnv, H6 in Hs. lia.
Qed.

Lemma inv_range_calm n N st st1 :
  inv_range st → calm n N st st1 → inv_range st1.
Proof.
  intros Hinv Hc. eapply inv_range_grow; try done.
  - apply Hc.
  - apply Hc.
  - by rewrite (cm_owned _ _ _ _ Hc).
  - by rewrite (cm_timers _ _ _ _ Hc).
  - by rewrite (cm_handlers _ _ _ _ Hc).
  - by rewrite (cm_registry _ _ _ _ Hc).
  - by rewrite (cm_never _ _ _ _ Hc).
Qed.

Lemma inv_range_hand_over c st :
  inv_range st → c < length (signals st) → inv_range (hand_over c st).
Proof.
  intros [H1 H2 H3 H4 H5 H6] Hc. split; try done.
  intros c' Hin. apply elem_of_cons in Hin as [->|Hin]; auto.
Qed.

Lemma inv_range_setTimeout h c ms st :
  inv_range st → c < length (signals st) → inv_range (setTimeout h c ms st).
Proof.
  intros [H1 H2 H3 H4 H5 H6] Hc. split; try done; simpl.
  - intros t Hin. apply elem_of_app in Hin as [Hin|Hin].
    + apply H2 in Hin. lia.
    + apply list_elem_of_singleton in Hin as ->. simpl. lia.
  - intros t t' Hin Hin' Hid.
    apply elem_of_app in Hin as [Hin|Hin];
      apply elem_of_app in Hin' as [Hin'|Hin'].
    + by apply H3.
    + apply list_elem_of_singleton in Hin' as ->. apply H2 in Hin.
      simpl in Hid. lia.
    + apply list_elem_of_singleton in Hin as ->. apply H2 in Hin'.
      simpl in Hid. lia.
    + apply list_elem_of_singleton in Hin as ->.
      by apply list_elem_of_singleton in Hin' as ->.
  - intros f Hin. apply H5 in Hin. destruct Hin. split; [lia|done].
Qed.

Lemma inv_range_target_add t n c o st :
  inv_range st → c < length (signals st) →
  inv_range (target_addEventListener t n c o st).
Proof.
  intros [H1 H2 H3 H4 H5 H6] Hc. split; try done; simpl.
  intros h Hin. apply elem_of_app in Hin as [Hin|Hin]; [auto|].
  by apply list_elem_of_singleton in Hin as ->.
Qed.

Lemma inv_range_set_registry f st :
  inv_range st → fin_cleanupId f < next_id st →
  lid (fin_listener f) = Some (fin_cleanupId f) →
  inv_range (set_registry (registry st ++ [f]) st).
Proof.
  intros [H1 H2 H3 H4 H5 H6] Hf1 Hf2. split; try done; simpl.
  intros f' Hin. apply elem_of_app in Hin as [Hin|Hin]; [auto|].
  by apply list_elem_of_singleton in Hin as ->.
Qed.

Lemma inv_range_set_never c st :
  inv_range st → c < length (signals st) →
  inv_range (set_neverSignal (Some c) st).
Proof.
  intros [H1 H2 H3 H4 H5 H6] Hc. split; try done; simpl.
  by intros s [= <-].
Qed.

Lemma new_ok_none st st1 : new_ok st st1 no_new.
Proof. by intros x reg []. Qed.

Lemma inv_new_controller st :
  inv st → inv (new_controller st).1.
Proof.
  intros [Hh Hr]. split.
  - eapply inv_heap_calm; [done|apply calm_new_controller|apply new_ok_none].
  - eapply inv_range_calm; [done|].
    apply (calm_new_controller 0 no_new).
Qed.

Lemma any_scan_length C sigs rest : ∀ cur,
  C < length (signals cur) → is_aborted cur C = false →
  listeners_of cur C = [] → (∀ s, s ∈ rest → s ≠ C) →
  length (signals (any_scan C (AnyOnAbort C sigs) rest cur))
  = length (signals cur).
Proof.
  induction rest as [|s rest IH]; intros cur Hlt Ha Hl Hrest; simpl; [done|].
  destruct (is_aborted cur s) eqn:Hs.
  - rewrite abort_no_listeners by done. rewrite length_mark.
    by rewrite abort_reason_signals.
  - rewrite IH; try done.
    + by rewrite length_add.
    + by rewrite length_add.
    + by rewrite is_aborted_add.
    + rewrite listeners_of_add_ne; [done|]. apply Hrest. by left.
    + intros s' Hs'. apply Hrest. by right.
Qed.

Lemma any_length st sigs :
  Forall (exists_signal st) sigs →
  length (signals (any st sigs).1) = S (length (signals st)).
Proof.
  intros Hex. unfold any.
  destruct (fresh_controller st) as (Hlt & Ha & Hl).
  change (new_controller st) with ((new_controller st).1, length (signals st)).
  cbv iota beta. simpl fst.
  rewrite any_scan_length; try done.
  - apply length_new_controller.
  - intros s Hs. rewrite Forall_forall in Hex. specialize (Hex s Hs).
    unfold exists_signal in Hex. lia.
Qed.

Lemma follow_length st p :
  length (signals (follow st p).1) = S (length (signals st)).
Proof.
  unfold follow.
  destruct (fresh_controller st) as (Hlt & Ha & Hl).
  change (new_controller st) with ((new_controller st).1, length (signals st)).
  cbv iota beta.
  destruct (is_aborted (new_controller st).1 p); simpl fst.
  - rewrite abort_no_listeners by done. rewrite length_mark.
    rewrite abort_reason_signals. apply length_new_controller.
  - rewrite length_add. apply length_new_controller.
Qed.

Lemma inv_abort st c r : inv st → inv (abort st c r).
Proof.
  intros [Hh Hr]. pose proof (abort_cascade st c r (inv_listeners _ Hh)) as Hc.
  split.
  - eapply inv_heap_evolve with (D := λ _ _, True); [done|].
    eapply evolve_of_cascade; [done|apply abort_reason_defined|done].
  - eapply inv_range_frame; [apply Hc|done].
Qed.

Lemma inv_run_timer id st : inv st → inv (run_timer id st).
Proof.
  intros Hinv. unfold run_timer.
  destruct (filter (λ t, tm_id t = id) (timers st)) as [|t ts]; [done|].
  destruct (bool_decide (tm_due t ≤ now st)%Z); [|done].
  unfold timeout_callback. apply inv_abort. destruct Hinv as [Hh Hr]. split.
  - eapply inv_heap_signals; [| |done]; simpl; [done|lia].
  - eapply inv_range_grow; try done; simpl; try lia.
    intros t' Ht'. by apply list_elem_of_filter in Ht' as [_ ?].
Qed.

Lemma inv_foldl_abort {A} (f : A → sigid) r (hs : list A) : ∀ st,
  inv st → inv (foldl (λ cur h, abort cur (f h) r) st hs).
Proof.
  induction hs as [|h hs IH]; intros st Hinv; simpl; [done|].
  apply IH. by apply inv_abort.
Qed.

Lemma inv_dispatch tg n ev strict st :
  inv st → inv (dispatchEvent tg n ev strict st).
Proof.
  intros [Hh Hr]. unfold dispatchEvent. apply inv_foldl_abort.
  destruct strict; [|done]. split.
  - eapply inv_heap_signals; [| |done]; done.
  - eapply inv_range_grow; try done; simpl.
    intros h Hin. by apply list_elem_of_filter in Hin as [_ ?].
Qed.

Lemma inv_finalize t st : inv st → inv (finalize t st).
Proof.
  intros [Hh Hr]. split.
  - eapply inv_heap_signals; [| |done]; done.
  - eapply inv_range_grow; try done; simpl.
    intros f Hin. by apply list_elem_of_filter in Hin as [_ ?].
Qed.

Lemma inv_any st sigs :
  inv st → Forall (exists_signal st) sigs → inv (any st sigs).1.
Proof.
  intros [Hh Hr] Hex. pose proof (any_calm st sigs Hex) as Hc. split.
  - eapply inv_heap_calm; [done|apply Hc|].
    intros x reg [-> _].
    change (length (signals st) < length (signals (any st sigs).1)).
    rewrite any_length by done. lia.
  - by eapply inv_range_calm.
Qed.

Lemma inv_follow st p : inv st → inv (follow st p).1.
Proof.
  intros [Hh Hr]. pose proof (follow_calm st p) as Hc. split.
  - eapply inv_heap_calm; [done|apply Hc|].
    intros x reg [-> ->].
    change (length (signals st) < length (signals (follow st p).1) ∧ p = p).
    rewrite follow_length. split; [lia|done].
  - by eapply inv_range_calm.
Qed.

Lemma inv_manageLifecycle st t sig cb :
  inv st → inv (manageLifecycle st t sig cb).
Proof.
  intros [Hh Hr]. unfold manageLifecycle.
  destruct (is_aborted st sig) eqn:Ha.
  - split.
    + eapply inv_heap_calm; [done|apply calm_record_none|apply new_ok_none].
    + eapply inv_range_calm; [done|]. apply (calm_record_none 0 no_new).
  - set (st1 := addEventListener _ _ _ _).
    assert (Hc : calm (length (signals st))
                      (lifecycle_new (next_id st) sig cb) st st1).
    { eapply calm_trans; [apply calm_bump|]. by apply calm_add. }
    assert (Hn1 : next_id st1 = S (next_id st)).
    { unfold st1, addEventListener. by destruct (has_listener _ _ _). }
    split.
    + eapply inv_heap_signals with (st := st1); [done|done|].
      eapply inv_heap_calm; [done|apply Hc|].
      intros x reg [-> ->]. simpl. split_and!; try done; [lia|].
      by intros x' reg' [-> ->].
    + apply inv_range_set_registry; simpl; [|lia|done].
      by eapply inv_range_calm.
Qed.

Lemma inv_step st o : inv st → inv (step st o).
Proof.
  intros Hinv.
  destruct o as [|c r|h ms|sigs|t s cb|p|t n| |dt|id|t n ev strict|t];
    cbn [step].
  - (* new AbortController() *)
    pose proof (inv_new_controller st Hinv) as [Hh Hr].
    change (inv (hand_over (length (signals st)) (new_controller st).1)).
    split; [by eapply inv_heap_signals; [| |apply Hh]|].
    apply inv_range_hand_over; [done|]. rewrite length_new_controller. lia.
  - destruct (bool_decide _); [by apply inv_abort|done].
  - (* timeout *)
    pose proof (inv_new_controller st Hinv) as [Hh Hr].
    change (inv (setTimeout h (length (signals st)) ms (new_controller st).1)).
    split.
    + eapply inv_heap_signals; [| |apply Hh]; simpl; [done|lia].
    + apply inv_range_setTimeout; [done|]. rewrite length_new_controller. lia.
  - destruct (bool_decide _) eqn:Hex; [|done].
    apply bool_decide_eq_true in Hex. by apply inv_any.
  - destruct (bool_decide _); [by apply inv_manageLifecycle|done].
  - (* follow *)
    destruct (bool_decide _); [|done].
    pose proof (inv_follow st p Hinv) as [Hh Hr].
    pose proof (follow_length st p) as Hlen.
    pose proof (follow_result st p) as Hres.
    destruct (follow st p) as [st1 c]. simpl in *. subst c.
    split; [by eapply inv_heap_signals; [| |apply Hh]|].
    apply inv_range_hand_over; [done|]. lia.
  - (* fromEvent *)
    pose proof (inv_new_controller st Hinv) as [Hh Hr].
    change (inv (target_addEventListener t n (length (signals st)) true
                                         (new_controller st).1)).
    split; [by eapply inv_heap_signals; [| |apply Hh]|].
    apply inv_range_target_add; [done|]. rewrite length_new_controller. lia.
  - (* never *)
    unfold never. destruct (neverSignal st); [done|].
    pose proof (inv_new_controller st Hinv) as [Hh Hr].
    change (inv (set_neverSignal (Some (length (signals st)))
                                 (new_controller st).1)).
    split; [by eapply inv_heap_signals; [| |apply Hh]|].
    apply inv_range_set_never; [done|]. rewrite length_new_controller. lia.
  - (* the clock advances *)
    destruct Hinv as [Hh Hr]. split.
    + eapply inv_heap_signals; [| |done]; done.
    + eapply inv_range_grow; try done.
  - by apply inv_run_timer.
  - by apply inv_dispatch.
  - by apply inv_finalize.
Qed.

Lemma inv_run tr : ∀ st, inv st → inv (run st tr).
Proof.
  induction tr as [|o tr IH]; intros st Hinv; simpl; [done|].
  apply IH. by apply inv_step.
Qed.


(** ** What an operation does to the rest of the store *)

Record fields (o : op) (st st' : state) : Prop := Fields {
  fl_owned_keep : ∀ c, c ∈ owned st → c ∈ owned st';
  fl_owned_new : ∀ c, c ∈ owned st' → c ∈ owned st ∨ length (signals st) ≤ c;
  fl_timers_keep : ∀ t, t ∈ timers st →
    t ∈ timers st' ∨ (o = OpRunTimer (tm_id t) ∧ (tm_due t ≤ now st)%Z);
  fl_timers_new : ∀ t, t ∈ timers st' →
    t ∈ timers st ∨ length (signals st) ≤ tm_controller t;
  fl_handlers_keep : ∀ h, h ∈ handlers st →
    h ∈ handlers st' ∨ ∃ ev s, o = OpDispatch (h_target h) (h_event h) ev s;
  fl_handlers_new : ∀ h, h ∈ handlers st' →
    h ∈ handlers st ∨ length (signals st) ≤ h_controller h;
  fl_registry_new : ∀ f, f ∈ registry st' →
    f ∈ registry st ∨ next_id st ≤ fin_cleanupId f;
  fl_never : ∀ s, neverSignal st = Some s → neverSignal st' = Some s;
  fl_never_new : ∀ s, neverSignal st' = Some s →
    neverSignal st = Some s ∨ (neverSignal st = None ∧ st' = (never st).1);
  fl_direct : ∀ k R, direct st o k R → k < length (signals st) →
    is_aborted st' k = true
}.

Lemma fields_same o st st' :
  owned st' = owned st → timers st' = timers st → handlers st' = handlers st →
  registry st' = registry st → neverSignal st' = neverSignal st →
  (∀ k R, ¬ direct st o k R) →
  fields o st st'.
Proof.
  intros H1 H2 H3 H4 H5 Hd. split; rewrite ?H1, ?H2, ?H3, ?H4, ?H5; auto.
  intros k R HD. by apply Hd in HD.
Qed.

Local Ltac no_direct := let H := fresh in intros ? ? H; exact H.

Lemma step_fields st o : inv st → fields o st (step st o).
Proof.
  intros [Hh Hr].
  pose proof (inv_listeners _ Hh) as Hwf.
  destruct o as [|c r|h ms|sigs|t s cb|p|t n| |dt|id|t n ev strict|t];
    cbn [step].
  - (* new AbortController() *)
    change (fields OpNewController st
              (hand_over (length (signals st)) (new_controller st).1)).
    split; simpl; auto.
    + intros c Hc. by right.
    + intros c Hc. apply elem_of_cons in Hc as [->|?]; auto.
  - (* controller.abort(r) *)
    destruct (bool_decide (c ∈ owned st)) eqn:Hc.
    + pose proof (abort_cascade st c r Hwf) as Hcs.
      pose proof (cs_frame _ _ _ _ Hcs) as Hf.
      split; rewrite ?(fr_owned _ _ Hf), ?(fr_timers _ _ Hf),
        ?(fr_handlers _ _ Hf), ?(fr_registry _ _ Hf), ?(fr_never _ _ Hf); auto.
      intros k R (-> & _ & _) Hlt. by apply (cs_done _ _ _ _ Hcs).
    + split; auto. intros k R (-> & Hin & _).
      apply bool_decide_eq_false in Hc. done.
  - (* timeout *)
    change (fields (OpTimeout h ms) st
              (setTimeout h (length (signals st)) ms (new_controller st).1)).
    split; simpl; auto.
    + intros t Ht. left. apply elem_of_app. by left.
    + intros t Ht. apply elem_of_app in Ht as [?|Ht]; [by left|].
      apply list_elem_of_singleton in Ht as ->. by right.
  - (* any *)
    destruct (bool_decide (Forall (exists_signal st) sigs)) eqn:Hex.
    + apply bool_decide_eq_true in Hex.
      pose proof (any_calm st sigs Hex) as Hc.
      apply fields_same;
        [apply (cm_owned _ _ _ _ Hc)|apply (cm_timers _ _ _ _ Hc)
        |apply (cm_handlers _ _ _ _ Hc)|apply (cm_registry _ _ _ _ Hc)
        |apply (cm_never _ _ _ _ Hc)|no_direct].
    + apply fields_same; solve [done|no_direct].
  - (* manageLifecycle *)
    destruct (bool_decide (exists_signal st s)); [|apply fields_same; solve [done|no_direct]].
    destruct (manageLifecycle_split st t s cb)
      as (_ & _ & _ & _ & H1 & H2 & H3 & H4).
    split; rewrite ?H1, ?H2, ?H3, ?H4; auto.
    intros f. unfold manageLifecycle. destruct (is_aborted st s); [by left|].
    simpl. intros Hf.
    assert (registry (addEventListener s (LifecycleListener (next_id st) s cb)
                                       true (bump_id st)) = registry st) as Hrg.
    { unfold addEventListener. by destruct (has_listener _ _ _). }
    rewrite Hrg in Hf. apply elem_of_app in Hf as [?|Hf]; [by left|].
    apply list_elem_of_singleton in Hf as ->. by right.
  - (* follow *)
    destruct (bool_decide (exists_signal st p)); [|apply fields_same; solve [done|no_direct]].
    pose proof (follow_calm st p) as Hc.
    pose proof (follow_result st p) as Hres.
    destruct (follow st p) as [st1 c]. simpl in *. subst c.
    split; simpl; rewrite ?(cm_owned _ _ _ _ Hc), ?(cm_timers _ _ _ _ Hc),
      ?(cm_handlers _ _ _ _ Hc), ?(cm_registry _ _ _ _ Hc),
      ?(cm_never _ _ _ _ Hc); auto.
    + intros c Hin. by right.
    + intros c Hin. apply elem_of_cons in Hin as [->|?]; auto.
  - (* fromEvent *)
    change (fields (OpFromEvent t n) st
              (target_addEventListener t n (length (signals st)) true
                                       (new_controller st).1)).
    split; simpl; auto.
    + intros h Hin. left. apply elem_of_app. by left.
    + intros h Hin. apply elem_of_app in Hin as [?|Hin]; [by left|].
      apply list_elem_of_singleton in Hin as ->. by right.
  - (* never *)
    destruct (neverSignal st) as [s0|] eqn:Hn.
    + assert ((never st).1 = st) as -> by (unfold never; by rewrite Hn).
      apply fields_same; solve [done|no_direct].
    + assert (Hnv : (never st).1 =
                    set_neverSignal (Some (length (signals st)))
                                    (new_controller st).1)
        by (unfold never; by rewrite Hn).
      split; rewrite ?Hnv; simpl; auto.
      intros s. by rewrite Hn.
  - (* the clock advances *)
    apply fields_same; solve [done|no_direct].
  - (* a timer runs *)
    unfold run_timer.
    destruct (filter (λ t, tm_id t = id) (timers st)) as [|t ts] eqn:Hflt.
    { split; auto. intros k R (t & Hin & Hid & _).
      assert (t ∈ filter (λ t, tm_id t = id) (timers st)) as Hin'
        by (by apply list_elem_of_filter).
      rewrite Hflt in Hin'. by apply elem_of_nil in Hin'. }
    assert (Hin : t ∈ filter (λ t, tm_id t = id) (timers st))
      by (rewrite Hflt; by left).
    apply list_elem_of_filter in Hin as [Hid Hin].
    assert (Huniq : ∀ t', t' ∈ timers st → tm_id t' = id → t' = t).
    { intros t' Hin' Hid'. apply (inv_timer_ids _ Hr); congruence. }
    destruct (bool_decide (tm_due t ≤ now st)%Z) eqn:Hdue.
    2: { apply bool_decide_eq_false in Hdue. split; auto.
         intros k R (t' & Hin' & Hid' & _ & Hdue' & _).
         rewrite (Huniq t' Hin' Hid') in Hdue'. done. }
    apply bool_decide_eq_true in Hdue. unfold timeout_callback.
    set (st0 := bump_id (set_timers _ st)).
    assert (Hwf0 : wf_listeners st0) by (by apply (wf_listeners_signals st)).
    pose proof (abort_cascade st0 (tm_controller t)
                  (TimeoutError (next_id (set_timers
                     (filter (λ t', tm_id t' ≠ id) (timers st)) st))
                     (Some (timeout_message (tm_ms t)))) Hwf0) as Hcs.
    pose proof (cs_frame _ _ _ _ Hcs) as Hf.
    split; rewrite ?(fr_owned _ _ Hf), ?(fr_timers _ _ Hf),
      ?(fr_handlers _ _ Hf), ?(fr_registry _ _ Hf), ?(fr_never _ _ Hf);
      simpl; auto.
    + intros t' Hin'. destruct (decide (tm_id t' = id)) as [Hid'|Hid'].
      * right. rewrite (Huniq t' Hin' Hid'). by subst id.
      * left. by apply list_elem_of_filter.
    + intros t' Hin'. left. by apply list_elem_of_filter in Hin' as [_ ?].
    + intros k R (t' & Hin' & Hid' & <- & _) Hlt.
      pose proof (Huniq t' Hin' Hid') as ->. by apply (cs_done _ _ _ _ Hcs).
  - (* an event is delivered *)
    destruct (dispatch_evolve t n ev strict st Hwf)
      as (st0 & H1 & H2 & H3 & H4 & H5 & H6 & H7 & H8 & H9 & H9' & H10 & H11).
    pose proof (ev_frame _ _ _ H10) as Hf.
    split; rewrite ?(fr_owned _ _ Hf), ?(fr_timers _ _ Hf),
      ?(fr_handlers _ _ Hf), ?(fr_registry _ _ Hf), ?(fr_never _ _ Hf),
      ?H5, ?H6, ?H7, ?H8; auto.
    + intros h Hin.
      destruct (decide (listens t n h)) as [[<- <-]|Hl]; [right; eauto|].
      left. by apply H9'.
    + intros k R (h & Hin & Hl & <- & _) Hlt. by apply H11.
  - (* a host object is collected *)
    split; simpl; auto.
    intros f Hin. left. by apply list_elem_of_filter in Hin as [_ ?].
Qed.

(** * Runs *)

Section Runs.
Implicit Types (st : state) (o : op) (tr : list op) (x k : sigid).

Lemma step_adv st o :
  inv st → advance (direct st o) st (step st o).
Proof. intros [Hh _]. apply step_advance, Hh. Qed.

Lemma step_mono st o x :
  inv st → is_aborted st x = true →
  is_aborted (step st o) x = true ∧ reason_of (step st o) x = reason_of st x.
Proof. intros Hinv. apply (ad_mono _ _ _ (step_adv st o Hinv)). Qed.

Lemma step_length st o :
  inv st → length (signals st) ≤ length (signals (step st o)).
Proof. intros Hinv. apply (ad_length _ _ _ (step_adv st o Hinv)). Qed.

Lemma step_next st o : inv st → next_id st ≤ next_id (step st o).
Proof. intros Hinv. apply (ad_next _ _ _ (step_adv st o Hinv)). Qed.

Lemma step_now st o : inv st → (now st ≤ now (step st o))%Z.
Proof. intros Hinv. apply (ad_now _ _ _ (step_adv st o Hinv)). Qed.

(** Once aborted, a signal stays aborted, with the same reason. *)
Lemma run_mono tr : ∀ st x,
  inv st → is_aborted st x = true →
  is_aborted (run st tr) x = true ∧ reason_of (run st tr) x = reason_of st x.
Proof.
  induction tr as [|o tr IH]; intros st x Hinv Hx; simpl; [done|].
  destruct (step_mono st o x Hinv Hx) as [H1 H2].
  destruct (IH (step st o) x (inv_step _ _ Hinv) H1) as [H3 H4].
  split; congruence.
Qed.

Lemma run_length tr : ∀ st,
  inv st → length (signals st) ≤ length (signals (run st tr)).
Proof.
  induction tr as [|o tr IH]; intros st Hinv; simpl; [done|].
  pose proof (step_length st o Hinv).
  pose proof (IH (step st o) (inv_step _ _ Hinv)). lia.
Qed.

Lemma run_now tr : ∀ st, inv st → (now st ≤ now (run st tr))%Z.
Proof.
  induction tr as [|o tr IH]; intros st Hinv; simpl; [done|].
  pose proof (step_now st o Hinv).
  pose proof (IH (step st o) (inv_step _ _ Hinv)). lia.
Qed.

Lemma run_snoc st tr o : run st (tr ++ [o]) = step (run st tr) o.
Proof. unfold run. by rewrite foldl_app. Qed.

(** An induction principle for properties of the states of a run. *)
Lemma run_invariant (P : state → Prop) (ok : op → bool) st tr :
  inv st → P st →
  (∀ s o, inv s → P s → ok o = true → P (step s o)) →
  forallb ok tr = true → P (run st tr).
Proof.
  intros Hinv HP Hstep. revert st Hinv HP.
  induction tr as [|o tr IH]; intros st Hinv HP Hok; simpl in *; [done|].
  apply andb_true_iff in Hok as [Ho Hok].
  apply IH; [by apply inv_step|by apply Hstep|done].
Qed.

(** Who can abort [k]: the caller if it holds the controller and [Ow],
    the timers in [T], the event listeners in [H], the abort listeners
    in [L]. *)
Record caps (st : state) (k : sigid) (Ow : Prop) (T : timer → Prop)
    (H : handler → Prop) (L : sigid → listener → Prop) : Prop := Caps {
  cp_owned : k ∈ owned st → Ow;
  cp_timers : ∀ t, t ∈ timers st → tm_controller t = k → T t;
  cp_handlers : ∀ h, h ∈ handlers st → h_controller h = k → H h;
  cp_listeners : ∀ x l, registered st x l → ctrl l = Some k → L x l
}.

Lemma caps_step st o k Ow T H L :
  inv st → k < length (signals st) →
  caps st k Ow T H L → caps (step st o) k Ow T H L.
Proof.
  intros Hinv Hk [H1 H2 H3 H4].
  pose proof (step_fields st o Hinv) as Hfl.
  pose proof (step_adv st o Hinv) as Had.
  split.
  - intros Hin. apply (fl_owned_new _ _ _ Hfl) in Hin as [?|?]; [auto|lia].
  - intros t Hin Ht. apply (fl_timers_new _ _ _ Hfl) in Hin as [?|?];
      [auto|lia].
  - intros h Hin Hh. apply (fl_handlers_new _ _ _ Hfl) in Hin as [?|?];
      [auto|lia].
  - intros x l Hr Hl. apply registered_iff in Hr as (reg & Hin & <-).
    apply (ad_fresh _ _ _ Had) in Hin as [Hin|[Hf _]].
    + apply H4; [|done]. apply registered_iff. eauto.
    + specialize (Hf k Hl). lia.
Qed.

(** A controller that does not exist yet has no capability on it. *)
Lemma caps_fresh st k Ow T H L :
  inv st → length (signals st) ≤ k → caps st k Ow T H L.
Proof.
  intros [Hh Hr] Hk. split.
  - intros Hin. apply (inv_owned _ Hr) in Hin. lia.
  - intros t Hin Ht. apply (inv_timers _ Hr) in Hin. lia.
  - intros h Hin Ht. apply (inv_handlers _ Hr) in Hin. lia.
  - intros x l Hreg Hl. pose proof (inv_listeners _ Hh x l Hreg) as Hwf.
    destruct l; simpl in Hl; try done; injection Hl as ->; lia.
Qed.

(** Why [k] became aborted during an operation. *)
Lemma step_newly st o k Ow T H L :
  inv st → k < length (signals st) → caps st k Ow T H L →
  newly st (step st o) k →
  (Ow ∧ ∃ r, o = OpAbort k r ∧ k ∈ owned st
             ∧ reason_of (step st o) k = (abort_reason st r).2)
  ∨ (∃ t, t ∈ timers st ∧ T t ∧ tm_controller t = k
          ∧ o = OpRunTimer (tm_id t) ∧ (tm_due t ≤ now st)%Z
          ∧ reason_of (step st o) k =
            TimeoutError (next_id st) (Some (timeout_message (tm_ms t))))
  ∨ (∃ h ev s, h ∈ handlers st ∧ H h ∧ h_controller h = k
               ∧ o = OpDispatch (h_target h) (h_event h) ev s
               ∧ (ev ≠ VUndefined → reason_of (step st o) k = ev))
  ∨ (∃ x l, L x l ∧ registered st x l ∧ newly st (step st o) x
            ∧ reason_of (step st o) k = reason_of (step st o) x
            ∧ cleaned (step st o) l).
Proof.
  intros Hinv Hk [H1 H2 H3 H4] Hn.
  destruct (ad_cause _ _ _ (step_adv st o Hinv) k Hk Hn)
    as [Hd|(x & l & Hr & Hl & Hx & HR & Hcl)].
  - destruct o; simpl in Hd; try done.
    + destruct Hd as (-> & Hin & HR). left. split; [auto|]. eauto.
    + destruct Hd as (t & Hin & <- & Hc & Hdue & HR).
      right. left. exists t. split_and!; auto.
    + destruct Hd as (h & Hin & [<- <-] & Hc & HR).
      right. right. left. exists h, event, strict. split_and!; auto.
  - right. right. right. exists x, l. split_and!; auto.
Qed.
End Runs.

(** * Signals nobody can abort *)

Definition sealed (st : state) (k : sigid) : Prop :=
  caps st k False (λ _, False) (λ _, False) (λ _ _, False).

Lemma sealed_step st o k :
  inv st → k < length (signals st) → sealed st k → is_aborted st k = false →
  sealed (step st o) k ∧ is_aborted (step st o) k = false.
Proof.
  intros Hinv Hk Hs Ha. split; [by apply caps_step|].
  destruct (is_aborted (step st o) k) eqn:E; [|done].
  destruct (step_newly st o k _ _ _ _ Hinv Hk Hs (conj Ha E))
    as [[[] _]|[(t & _ & [] & _)|[(h & ev & s & _ & [] & _)
       |(x & l & [] & _)]]].
Qed.

Lemma sealed_run tr : ∀ st k,
  inv st → k < length (signals st) → sealed st k → is_aborted st k = false →
  is_aborted (run st tr) k = false.
Proof.
  induction tr as [|o tr IH]; intros st k Hinv Hk Hs Ha; simpl; [done|].
  destruct (sealed_step st o k Hinv Hk Hs Ha) as [Hs' Ha'].
  apply IH; try done; [by apply inv_step|].
  pose proof (step_length st o Hinv). lia.
Qed.

Lemma sealed_new_controller st :
  inv st →
  sealed (new_controller st).1 (length (signals st))
  ∧ is_aborted (new_controller st).1 (length (signals st)) = false.
Proof.
  intros Hinv.
  destruct (caps_fresh st (length (signals st)) False (λ _, False)
              (λ _, False) (λ _ _, False) Hinv) as [H1 H2 H3 H4]; [done|].
  destruct (new_controller_view st) as (Ha & _ & Hl).
  split; [split; try done|].
  - intros x l. unfold registered. rewrite Hl. apply H4.
  - apply fresh_controller.
Qed.

(** The signal cached in [#neverSignal] is one nobody can abort. *)
Definition never_ok (st : state) : Prop :=
  ∀ s, neverSignal st = Some s →
       s < length (signals st) ∧ sealed st s ∧ is_aborted st s = false.

Lemma never_ok_never st :
  inv st → never_ok st →
  inv (never st).1 ∧ never_ok (never st).1
  ∧ neverSignal (never st).1 = Some (never st).2.
Proof.
  intros Hinv Hok. unfold never.
  destruct (neverSignal st) as [s|] eqn:Hn; [done|].
  change (new_controller st) with ((new_controller st).1, length (signals st)).
  cbv iota beta. simpl fst. simpl snd.
  destruct (sealed_new_controller st Hinv) as [Hs Ha].
  split; [|split; [|done]].
  - pose proof (inv_step st OpNever Hinv) as Hi. cbn [step] in Hi.
    unfold never in Hi. by rewrite Hn in Hi.
  - intros s [= <-]. split; [|split].
    + change (length (signals st) < length (signals (new_controller st).1)).
      rewrite length_new_controller. lia.
    + destruct Hs as [H1 H2 H3 H4]. by split.
    + done.
Qed.

Lemma never_ok_step st o : inv st → never_ok st → never_ok (step st o).
Proof.
  intros Hinv Hok s Hs.
  destruct (fl_never_new _ _ _ (step_fields st o Hinv) s Hs) as [Hs0|[Hn He]].
  - destruct (Hok s Hs0) as (Hlt & Hse & Ha).
    destruct (sealed_step st o s Hinv Hlt Hse Ha).
    split; [|done]. pose proof (step_length st o Hinv). lia.
  - rewrite He in *. by apply (never_ok_never st Hinv Hok).
Qed.

Lemma never_ok_run tr : ∀ st, inv st → never_ok st → never_ok (run st tr).
Proof.
  induction tr as [|o tr IH]; intros st Hinv Hok; simpl; [done|].
  apply IH; [by apply inv_step|by apply never_ok_step].
Qed.

Lemma never_kept_run tr : ∀ st s,
  inv st → neverSignal st = Some s → neverSignal (run st tr) = Some s.
Proof.
  induction tr as [|o tr IH]; intros st s Hinv Hs; simpl; [done|].
  apply IH; [by apply inv_step|].
  by apply (fl_never _ _ _ (step_fields st o Hinv)).
Qed.

(** C3. [never()] gives the same signal on every call: the first call of a
    process creates it (no signal is cached initially, and a call allocates
    a signal exactly when none is cached), every later call returns the
    cached signal and leaves the store unchanged; and whatever
    the program does before, between and after the calls, that signal is
    not aborted. *)
Theorem never_singleton (tr1 tr2 : list op) :
  let st := run init_state tr1 in
  let st1 := (never st).1 in
  let s := (never st).2 in
  let st2 := run st1 tr2 in
  neverSignal init_state = None
  ∧ length (signals st1) =
      (if neverSignal st is Some _ then length (signals st)
       else S (length (signals st)))
  ∧ never st2 = (st2, s)
  ∧ is_aborted st2 s = false.
Proof.
  intros st st1 s st2.
  assert (Hlen : length (signals st1) =
      (if neverSignal st is Some _ then length (signals st)
       else S (length (signals st)))).
  { subst st1. unfold never. destruct (neverSignal st); [done|].
    cbn. apply length_new_controller. }
  assert (Hinv : inv st) by apply inv_run, inv_init.
  assert (Hok : never_ok st).
  { apply never_ok_run; [apply inv_init|]. by intros x [=]. }
  destruct (never_ok_never st Hinv Hok) as (Hinv1 & Hok1 & Hs1).
  fold st1 s in Hinv1, Hok1, Hs1.
  assert (Hs2 : neverSignal st2 = Some s) by by apply never_kept_run.
  split; [done|]. split; [exact Hlen|]. split.
  - unfold never. by rewrite Hs2.
  - by apply (never_ok_run tr2 st1 Hinv1 Hok1 s).
Qed.

(** C8. The signal of [any([])] is never aborted, whatever the program does
    afterwards. *)
Theorem any_empty_never_aborts (tr1 tr2 : list op) :
  let st := run init_state tr1 in
  let st1 := (any st []).1 in
  let c := (any st []).2 in
  is_aborted st1 c = false ∧ is_aborted (run st1 tr2) c = false.
Proof.
  intros st st1 c.
  assert (Hinv : inv st) by apply inv_run, inv_init.
  destruct (sealed_new_controller st Hinv) as [Hs Ha].
  split; [done|].
  apply sealed_run; try done.
  - by apply inv_new_controller.
  - change (length (signals st) < length (signals (new_controller st).1)).
    rewrite length_new_controller. lia.
Qed.

(** * [timeout] *)

(** Both hosts use the delay asked for when it lies between 1 and
    [TIMEOUT_MAX]. *)
Lemma delay_in_range h d :
  (1 ≤ num_val d ≤ TIMEOUT_MAX)%Z → delay h d = num_val d.
Proof.
  unfold TIMEOUT_MAX. intros Hd. destruct h; simpl.
  - rewrite bool_decide_eq_true_2; [done|]. unfold TIMEOUT_MAX. lia.
  - unfold ToInt32. rewrite Z.mod_small; lia.
Qed.

(** Neither host waits longer than a millisecond for a delay between
    [-2^31] and 0. *)
Lemma delay_below_one h d :
  (- 2147483648 ≤ num_val d ≤ 0)%Z → (0 ≤ delay h d ≤ 1)%Z.
Proof.
  intros Hd. destruct h; simpl.
  - rewrite bool_decide_eq_false_2; lia.
  - unfold ToInt32. rewrite Z.mod_small; lia.
Qed.

Section Timeout.
Variables (st : state) (h : host) (d : number).
Hypothesis Hinv : inv st.

Let C := length (signals st).
Let t0 := Timer (next_id st) (now st + delay h d) C d.

(** The timer is pending and the signal not aborted, or the clock has
    reached the due time and the signal is aborted with the
    [TimeoutError]. *)
Definition timeout_inv (s' : state) : Prop :=
  C < length (signals s')
  ∧ caps s' C False (λ t, t = t0) (λ _, False) (λ _ _, False)
  ∧ ((t0 ∈ timers s' ∧ is_aborted s' C = false)
     ∨ (is_aborted s' C = true ∧ (now st + delay h d ≤ now s')%Z
        ∧ ∃ o, reason_of s' C =
               VError o "TimeoutError"%string (timeout_message d))).

Lemma timeout_result :
  timeout st h d = (setTimeout h C d (new_controller st).1, C).
Proof. done. Qed.

Lemma timeout_inv_init : timeout_inv (timeout st h d).1.
Proof.
  rewrite timeout_result. simpl fst.
  destruct (caps_fresh st C False (λ t, t = t0) (λ _, False) (λ _ _, False)
              Hinv) as [H1 H2 H3 H4]; [done|].
  destruct (new_controller_view st) as (Ha & _ & Hl).
  split; [|split].
  - change (C < length (signals (new_controller st).1)).
    rewrite length_new_controller. unfold C. lia.
  - split; try done.
    + intros t Hin Ht. simpl in Hin. apply elem_of_app in Hin as [Hin|Hin].
      * by apply H2 in Hin.
      * by apply list_elem_of_singleton in Hin as ->.
    + intros x l. unfold registered.
      change (l ∈ callback <$> listeners_of (new_controller st).1 x
              → ctrl l = Some C → False).
      rewrite Hl. apply H4.
  - left. split.
    + simpl. apply elem_of_app. right. by apply list_elem_of_singleton.
    + change (is_aborted (new_controller st).1 C = false).
      apply fresh_controller.
Qed.

Lemma timeout_inv_step s' o :
  inv s' → timeout_inv s' → timeout_inv (step s' o).
Proof.
  intros Hi (Hlt & Hcaps & Hcase).
  pose proof (step_length s' o Hi) as Hlen.
  pose proof (step_now s' o Hi) as Hnow.
  split; [lia|]. split; [by apply caps_step|].
  destruct Hcase as [[Hin Ha]|(Ha & Hdue & o' & HR)].
  - destruct (is_aborted (step s' o) C) eqn:E.
    + right. split; [done|].
      destruct (step_newly s' o C _ _ _ _ Hi Hlt Hcaps (conj Ha E))
        as [[[] _]|[(t & _ & -> & _ & _ & Hdue & HR)
           |[(h' & ev & s & _ & [] & _)|(x & l & [] & _)]]].
      simpl in Hdue. split; [lia|]. rewrite HR. simpl. eauto.
    + left. split; [|done].
      destruct (fl_timers_keep _ _ _ (step_fields s' o Hi) t0 Hin)
        as [?|[-> Hdue]]; [done|].
      assert (direct s' (OpRunTimer (tm_id t0)) C
                (TimeoutError (next_id s')
                              (Some (timeout_message (tm_ms t0))))) as Hdir.
      { exists t0. split_and!; done. }
      apply (fl_direct _ _ _ (step_fields s' _ Hi)) in Hdir; [|done].
      congruence.
  - right. destruct (step_mono s' o C Hi Ha) as [H1 H2].
    split; [done|]. split; [lia|]. exists o'. congruence.
Qed.

Lemma timeout_inv_run tr : timeout_inv (run (timeout st h d).1 tr).
Proof.
  assert (Hi1 : inv (timeout st h d).1)
    by apply (inv_step st (OpTimeout h d) Hinv).
  generalize timeout_inv_init. generalize Hi1.
  generalize ((timeout st h d).1). clear Hi1.
  induction tr as [|o tr IH]; intros s' Hi HT; simpl; [done|].
  apply IH; [by apply inv_step|by apply timeout_inv_step].
Qed.
End Timeout.

(** What C6 says of [timeout(d)], called on the host [h] after the program
    [tr1] and followed by the program [tr2]: the signal is not aborted when
    the call returns; it is not aborted as long as the clock has not
    advanced by [d] milliseconds; once it has, running the timer aborts it;
    and whenever it is aborted its reason is a [TimeoutError] whose message
    is [Signal timed out after {d}ms]. *)
Definition timeout_outcome (h : host) (tr1 tr2 : list op) (d : number)
    : Prop :=
  let st := run init_state tr1 in
  let st1 := (timeout st h d).1 in
  let s := (timeout st h d).2 in
  let st2 := run st1 tr2 in
  is_aborted st1 s = false
  ∧ ((now st2 < now st + num_val d)%Z → is_aborted st2 s = false)
  ∧ ((now st + num_val d ≤ now st2)%Z →
     is_aborted (step st2 (OpRunTimer (next_id st))) s = true)
  ∧ (is_aborted st2 s = true →
     ∃ o, reason_of st2 s =
          VError o "TimeoutError"%string
                 ("Signal timed out after " +:+ pretty (num_val d) +:+ "ms")%string).

(** The scheduler of Node.js honours no delay above [TIMEOUT_MAX]. *)
Definition two_pow_31 : number := Number 2147483648 eq_refl.

(** C6, as stated for every [d >= 0], fails: on Node.js the signal of
    [timeout(2^31)] is aborted one millisecond after the call, long before
    2^31 milliseconds have passed. *)
Theorem timeout_unbounded_fails :
  ¬ (∀ (h : host) (tr1 tr2 : list op) (d : number),
       (0 ≤ num_val d)%Z → timeout_outcome h tr1 tr2 d).
Proof.
  intros H.
  destruct (H Node [] [OpAdvance 1; OpRunTimer 0] two_pow_31)
    as (_ & H2 & _); [done|].
  vm_compute in H2. by specialize (H2 eq_refl).
Qed.

(** C6, amended. For an integral [d] with [1 <= d <= 2^31 - 1], on either
    host, the signal of [timeout(d)] is not aborted when the call returns;
    it is not aborted as long as the clock has not advanced by [d]
    milliseconds; once it has, running the timer aborts it; and whenever it
    is aborted its reason is a [TimeoutError] whose message is
    [Signal timed out after {d}ms], with [d] in decimal digits. *)
Theorem timeout_spec (h : host) (tr1 tr2 : list op) (d : number) :
  (1 ≤ num_val d ≤ 2147483647)%Z → timeout_outcome h tr1 tr2 d.
Proof.
  intros Hd. unfold timeout_outcome.
  set (st := run init_state tr1). set (st1 := (timeout st h d).1).
  set (s := (timeout st h d).2). set (st2 := run st1 tr2).
  assert (Hinv : inv st) by apply inv_run, inv_init.
  assert (Hinv1 : inv st1) by apply (inv_step st (OpTimeout h d) Hinv).
  assert (Hinv2 : inv st2) by by apply inv_run.
  pose proof (timeout_inv_run st h d Hinv tr2) as (Hlt & Hcaps & H2).
  rewrite (delay_in_range h d Hd) in H2.
  fold st1 st2 in Hlt, Hcaps, H2.
  change (length (signals st)) with s in *.
  split_and!.
  - change (is_aborted (new_controller st).1 (length (signals st)) = false).
    apply fresh_controller.
  - intros Hnow. destruct H2 as [[_ ?]|(_ & Hn & _)]; [done|lia].
  - intros Hnow. destruct H2 as [[Hin Ha]|(Ha & _)].
    + apply (fl_direct _ _ _ (step_fields st2 _ Hinv2) s
               (TimeoutError (next_id st2) (Some (timeout_message d))));
        [|done].
      exists (Timer (next_id st) (now st + num_val d) s d). split_and!; done.
    + by apply step_mono.
  - intros Ha. destruct H2 as [[_ ?]|(_ & _ & HR)]; [congruence|done].
Qed.

Lemma timeout_spec_witness :
  (1 ≤ 50 ≤ 2147483647)%Z
  ∧ timeout_outcome Browser [] [OpAdvance 50] (Number 50 eq_refl).
Proof.
  split; [lia|]. apply (timeout_spec Browser [] [OpAdvance 50]). simpl. lia.
Defined.

(** * [fromEvent] *)

(** [o] delivers the event [n] to the target [tg]. *)
Definition dispatches (tg : objid) (n : string) (o : op) : bool :=
  match o with
  | OpDispatch tg' n' _ _ => bool_decide (tg' = tg ∧ n' = n)
  | _ => false
  end.

Section FromEvent.
Variables (st : state) (tg : objid) (n : string).
Hypothesis Hinv : inv st.

Let C := length (signals st).

(** Until the event is delivered, the listener stays on the target and the
    signal is not aborted. *)
Definition fromEvent_inv (s' : state) : Prop :=
  C < length (signals s')
  ∧ caps s' C False (λ _, False) (listens tg n) (λ _ _, False)
  ∧ Handler tg n C true ∈ handlers s'
  ∧ is_aborted s' C = false.

Lemma fromEvent_result :
  fromEvent st tg n =
  (target_addEventListener tg n C true (new_controller st).1, C).
Proof. done. Qed.

Lemma fromEvent_inv_init : fromEvent_inv (fromEvent st tg n).1.
Proof.
  rewrite fromEvent_result. simpl fst.
  destruct (caps_fresh st C False (λ _, False) (listens tg n) (λ _ _, False)
              Hinv) as [H1 H2 H3 H4]; [done|].
  destruct (new_controller_view st) as (Ha & _ & Hl).
  split_and!.
  - change (C < length (signals (new_controller st).1)).
    rewrite length_new_controller. unfold C. lia.
  - split; try done.
    + intros h Hin Hh. simpl in Hin. apply elem_of_app in Hin as [Hin|Hin].
      * by apply H3 in Hin.
      * by apply list_elem_of_singleton in Hin as ->.
    + intros x l. unfold registered.
      change (l ∈ callback <$> listeners_of (new_controller st).1 x
              → ctrl l = Some C → False).
      rewrite Hl. apply H4.
  - simpl. apply elem_of_app. right. by apply list_elem_of_singleton.
  - change (is_aborted (new_controller st).1 C = false).
    apply fresh_controller.
Qed.

Lemma fromEvent_inv_step s' o :
  inv s' → fromEvent_inv s' → negb (dispatches tg n o) = true →
  fromEvent_inv (step s' o).
Proof.
  intros Hi (Hlt & Hcaps & Hin & Ha) Hok.
  pose proof (step_length s' o Hi) as Hlen.
  assert (Hnd : ∀ ev s, o ≠ OpDispatch tg n ev s).
  { intros ev s ->. simpl in Hok. rewrite bool_decide_eq_true_2 in Hok; done. }
  split_and!; [lia|by apply caps_step| |].
  - destruct (fl_handlers_keep _ _ _ (step_fields s' o Hi) _ Hin)
      as [?|(ev & s & Ho)]; [done|]. by apply Hnd in Ho.
  - destruct (is_aborted (step s' o) C) eqn:E; [|done].
    destruct (step_newly s' o C _ _ _ _ Hi Hlt Hcaps (conj Ha E))
      as [[[] _]|[(t & _ & [] & _)|[(h & ev & s & _ & [<- <-] & _ & Ho & _)
         |(x & l & [] & _)]]].
    by apply Hnd in Ho.
Qed.

Lemma fromEvent_inv_run tr :
  forallb (λ o, negb (dispatches tg n o)) tr = true →
  fromEvent_inv (run (fromEvent st tg n).1 tr).
Proof.
  apply run_invariant.
  - apply (inv_step st (OpFromEvent tg n) Hinv).
  - apply fromEvent_inv_init.
  - intros s o Hi HP Hok. by apply fromEvent_inv_step.
Qed.

(** The delivery of the event aborts the signal with the event. *)
Lemma fromEvent_dispatch s' ev strict :
  inv s' → fromEvent_inv s' → ev ≠ VUndefined →
  is_aborted (step s' (OpDispatch tg n ev strict)) C = true
  ∧ reason_of (step s' (OpDispatch tg n ev strict)) C = ev.
Proof.
  intros Hi (Hlt & Hcaps & Hin & Ha) Hev.
  assert (Hd : direct s' (OpDispatch tg n ev strict) C ev).
  { exists (Handler tg n C true). split_and!; done. }
  pose proof (fl_direct _ _ _ (step_fields s' _ Hi) C ev Hd Hlt) as E.
  split; [done|].
  destruct (step_newly s' _ C _ _ _ _ Hi Hlt Hcaps (conj Ha E))
    as [[[] _]|[(t & _ & [] & _)|[(h & ev' & s & _ & _ & _ & Ho & HR)
       |(x & l & [] & _)]]].
  injection Ho as _ _ <- _. by apply HR.
Qed.
End FromEvent.

(** C7. The signal of [fromEvent(target, eventName)] is not aborted when the
    call returns, and stays so until the event is delivered to the target;
    the listener is registered with [{ once: true }]; the first delivery
    aborts the signal with the event itself as reason; after that, nothing
    changes it, in particular not a second delivery of the event. *)
Theorem fromEvent_spec (tr1 tr2 tr3 : list op) (tg : objid) (n : string)
    (ev ev2 : value) (strict strict2 : bool) :
  forallb (λ o, negb (dispatches tg n o)) tr2 = true →
  ev ≠ VUndefined →
  let st := run init_state tr1 in
  let st1 := (fromEvent st tg n).1 in
  let s := (fromEvent st tg n).2 in
  let st2 := run st1 tr2 in
  let st3 := step st2 (OpDispatch tg n ev strict) in
  let st4 := step st3 (OpDispatch tg n ev2 strict2) in
  Handler tg n s true ∈ handlers st1
  ∧ is_aborted st1 s = false
  ∧ is_aborted st2 s = false
  ∧ (is_aborted st3 s = true ∧ reason_of st3 s = ev)
  ∧ (is_aborted st4 s = true ∧ reason_of st4 s = ev)
  ∧ (is_aborted (run st3 tr3) s = true ∧ reason_of (run st3 tr3) s = ev).
Proof.
  intros Hok Hev st st1 s st2 st3 st4.
  assert (Hinv : inv st) by apply inv_run, inv_init.
  assert (Hinv1 : inv st1) by apply (inv_step st (OpFromEvent tg n) Hinv).
  assert (Hinv2 : inv st2) by by apply inv_run.
  assert (Hinv3 : inv st3) by by apply inv_step.
  pose proof (fromEvent_inv_init st tg n Hinv) as (_ & _ & Hin1 & Ha1).
  pose proof (fromEvent_inv_run st tg n Hinv tr2 Hok) as Hinv_e.
  pose proof Hinv_e as (_ & _ & _ & Ha2).
  destruct (fromEvent_dispatch st tg n st2 ev strict Hinv2 Hinv_e Hev)
    as [Ha3 HR3].
  fold st1 in Hin1, Ha1. fold st1 st2 in Ha2. fold st1 st2 st3 in Ha3, HR3.
  change (length (signals st)) with s in *.
  split_and!; try done.
  - by apply step_mono.
  - rewrite <- HR3. by apply step_mono.
  - by apply run_mono.
  - rewrite <- HR3. by apply run_mono.
Qed.

Lemma fromEvent_spec_witness :
  let st1 := (fromEvent init_state 1 "click").1 in
  let s := (fromEvent init_state 1 "click").2 in
  let st2 := run st1 [OpNewController] in
  let st3 := step st2 (OpDispatch 1 "click" (VObj 7) true) in
  let st4 := step st3 (OpDispatch 1 "click" (VObj 8) true) in
  Handler 1 "click" s true ∈ handlers st1
  ∧ is_aborted st1 s = false
  ∧ is_aborted st2 s = false
  ∧ (is_aborted st3 s = true ∧ reason_of st3 s = VObj 7)
  ∧ (is_aborted st4 s = true ∧ reason_of st4 s = VObj 7)
  ∧ (is_aborted (run st3 [OpAdvance 5]) s = true
     ∧ reason_of (run st3 [OpAdvance 5]) s = VObj 7).
Proof.
  apply (fromEvent_spec [] [OpNewController] [OpAdvance 5] 1 "click"
                        (VObj 7) (VObj 8) true true).
  - reflexivity.
  - discriminate.
Defined.

(** * [follow] *)

(** [o] is a call of [c.abort] by the caller. *)
Definition aborts (c : sigid) (o : op) : bool :=
  match o with
  | OpAbort c' _ => bool_decide (c' = c)
  | _ => false
  end.

Lemma owned_run tr : ∀ st c, inv st → c ∈ owned st → c ∈ owned (run st tr).
Proof.
  induction tr as [|o tr IH]; intros st c Hinv Hc; simpl; [done|].
  apply IH; [by apply inv_step|].
  by apply (fl_owned_keep _ _ _ (step_fields st o Hinv)).
Qed.

Section Follow.
Variables (st : state) (p : sigid).
Hypothesis Hinv : inv st.
Hypothesis Hp : exists_signal st p.

Let c := length (signals st).
Let lf := FollowOnAbort c p.

Lemma follow_unfold :
  follow st p =
  if is_aborted st p then
    (abort (new_controller st).1 c (reason_of st p), c)
  else (addEventListener p lf true (new_controller st).1, c).
Proof.
  unfold follow.
  change (new_controller st) with ((new_controller st).1, c).
  cbv iota beta.
  destruct (new_controller_view st) as (Ha & Hr & _).
  rewrite Ha, Hr. done.
Qed.

(** The parent is already aborted. *)
Lemma follow_pre_aborted :
  is_aborted st p = true →
  is_aborted (follow st p).1 c = true
  ∧ reason_of (follow st p).1 c = reason_of st p.
Proof.
  intros Ha. rewrite follow_unfold, Ha. simpl fst.
  destruct (fresh_controller st) as (Hlt & Hf & Hl).
  rewrite abort_no_listeners by done.
  assert (Hdef : reason_of st p ≠ VUndefined).
  { destruct Hinv as [Hh _]. by apply (inv_reasons _ Hh). }
  rewrite abort_reason_id by done. simpl.
  split; [by apply is_aborted_mark_eq|by apply reason_of_mark_eq].
Qed.

(** Child and parent are both not aborted, with the listener in place, or
    both aborted with the same reason. *)
Definition follow_inv (s' : state) : Prop :=
  c < length (signals s')
  ∧ caps s' c True (λ _, False) (λ _, False) (λ x l, l = lf ∧ x = p)
  ∧ ((is_aborted s' c = false ∧ is_aborted s' p = false ∧ registered s' p lf)
     ∨ (is_aborted s' c = true ∧ is_aborted s' p = true
        ∧ reason_of s' c = reason_of s' p)).

Lemma follow_inv_init :
  is_aborted st p = false →
  follow_inv (hand_over c (follow st p).1)
  ∧ is_aborted (follow st p).1 c = false.
Proof.
  intros Ha. rewrite follow_unfold, Ha. simpl fst.
  destruct (caps_fresh st c True (λ _, False) (λ _, False)
              (λ _ _, False) Hinv) as [H1 H2 H3 H4]; [done|].
  destruct (new_controller_view st) as (Hab & _ & Hl).
  destruct (fresh_controller st) as (Hlt & Hf & _).
  assert (Hc : is_aborted (addEventListener p lf true (new_controller st).1) c
               = false) by (by rewrite is_aborted_add).
  split; [|done]. split_and!.
  - change (c < length (signals
                (addEventListener p lf true (new_controller st).1))).
    by rewrite length_add.
  - pose proof (calm_add 0 (λ _ _, True) p lf true (new_controller st).1 I)
      as Hcm.
    split; [done|..].
    + intros t Hin.
      change (t ∈ timers (addEventListener p lf true (new_controller st).1))
        in Hin.
      rewrite (cm_timers _ _ _ _ Hcm) in Hin. by apply H2.
    + intros h Hin.
      change (h ∈ handlers (addEventListener p lf true (new_controller st).1))
        in Hin.
      rewrite (cm_handlers _ _ _ _ Hcm) in Hin. by apply H3.
    + intros x l Hr Hl'.
      change (registered (addEventListener p lf true (new_controller st).1)
                         x l) in Hr.
      apply registered_add in Hr as [Hr|(-> & _ & ->)]; [|done].
      exfalso. unfold registered in Hr. rewrite Hl in Hr. by eapply H4.
  - left. split_and!; try done.
    + change (is_aborted (addEventListener p lf true (new_controller st).1) p
              = false). by rewrite is_aborted_add, Hab.
    + change (registered (addEventListener p lf true (new_controller st).1)
                         p lf).
      apply registered_add. right. split_and!; try done.
      rewrite length_new_controller. unfold exists_signal in Hp. lia.
Qed.

Lemma follow_inv_step s' o :
  inv s' → follow_inv s' → negb (aborts c o) = true → follow_inv (step s' o).
Proof.
  intros Hi (Hlt & Hcaps & Hcase) Hok.
  pose proof (step_length s' o Hi) as Hlen.
  pose proof (step_adv s' o Hi) as Had.
  assert (Hna : ∀ r, o ≠ OpAbort c r).
  { intros r ->. simpl in Hok. rewrite bool_decide_eq_true_2 in Hok; done. }
  split_and!; [lia|by apply caps_step|].
  assert (Hwhy : newly s' (step s' o) c →
                 newly s' (step s' o) p
                 ∧ reason_of (step s' o) c = reason_of (step s' o) p).
  { intros Hn.
    destruct (step_newly s' o c _ _ _ _ Hi Hlt Hcaps Hn)
      as [[_ (r & Ho & _)]|[(t & _ & [] & _)|[(h & ev & s & _ & [] & _)
         |(x & l & [-> ->] & _ & Hx & HR & _)]]]; [|done].
    by apply Hna in Ho. }
  destruct Hcase as [(Hc & Hpa & Hr)|(Hc & Hpa & HR)].
  - destruct (is_aborted (step s' o) p) eqn:Ep.
    + right.
      assert (Ec : is_aborted (step s' o) c = true).
      { by eapply (ad_push _ _ _ Had p lf c). }
      split_and!; try done. by apply Hwhy.
    + left.
      destruct (is_aborted (step s' o) c) eqn:Ec.
      { destruct Hwhy as [[_ ?] _]; [done|congruence]. }
      split_and!; try done.
      destruct (ad_keep _ _ _ Had p lf Hr)
        as [?|[[_ ?]|(k & [= <-] & ?)]]; try done; try congruence.
  - right. destruct (step_mono s' o c Hi Hc) as [H1 H2].
    destruct (step_mono s' o p Hi Hpa) as [H3 H4].
    split_and!; try done. congruence.
Qed.

Lemma follow_inv_run tr :
  is_aborted st p = false →
  forallb (λ o, negb (aborts c o)) tr = true →
  follow_inv (run (hand_over c (follow st p).1) tr).
Proof.
  intros Ha. apply run_invariant.
  - pose proof (inv_step st (OpFollow p) Hinv) as Hi. cbn [step] in Hi.
    rewrite bool_decide_eq_true_2 in Hi by done.
    pose proof (follow_result st p) as Hres.
    destruct (follow st p) as [st1 c']. simpl in *. by subst c'.
  - by apply follow_inv_init.
  - intros s o Hi HP Hok. by apply follow_inv_step.
Qed.
End Follow.

(** C4. [follow(parent)]: when the parent is already aborted, the signal of
    the returned controller is aborted with the parent's reason when the
    call returns. Otherwise it is not aborted when the call returns and,
    as long as the caller does not abort the returned controller itself,
    it is aborted exactly when the parent is, with the parent's reason. *)
Theorem follow_mirrors_parent (tr1 tr2 : list op) (p : sigid) :
  exists_signal (run init_state tr1) p →
  forallb (λ o, negb (aborts (follow (run init_state tr1) p).2 o)) tr2 = true →
  let st := run init_state tr1 in
  let st1 := (follow st p).1 in
  let c := (follow st p).2 in
  let st2 := run (hand_over c st1) tr2 in
  if is_aborted st p then
    is_aborted st1 c = true ∧ reason_of st1 c = reason_of st p
  else
    is_aborted st1 c = false
    ∧ is_aborted st2 c = is_aborted st2 p
    ∧ (is_aborted st2 p = true → reason_of st2 c = reason_of st2 p).
Proof.
  intros Hp Hok st st1 c st2.
  assert (Hinv : inv st) by apply inv_run, inv_init.
  assert (Hc : c = length (signals st)) by apply follow_result.
  destruct (is_aborted st p) eqn:Ha.
  - rewrite Hc. by apply follow_pre_aborted.
  - rewrite follow_result in Hok.
    destruct (follow_inv_init st p Hinv Hp Ha) as [_ H1].
    destruct (follow_inv_run st p Hinv Hp tr2 Ha Hok) as (_ & _ & H2).
    unfold st2, st1. rewrite Hc. split; [done|].
    destruct H2 as [(-> & -> & _)|(-> & -> & ->)]; done.
Qed.

Lemma follow_mirrors_parent_witness :
  let st := run init_state [OpNewController] in
  let st1 := (follow st 0).1 in
  let c := (follow st 0).2 in
  let st2 := run (hand_over c st1) [OpAbort 0 (VStr "Parent Aborted")] in
  if is_aborted st 0 then
    is_aborted st1 c = true ∧ reason_of st1 c = reason_of st 0
  else
    is_aborted st1 c = false
    ∧ is_aborted st2 c = is_aborted st2 0
    ∧ (is_aborted st2 0 = true → reason_of st2 c = reason_of st2 0).
Proof.
  apply (follow_mirrors_parent [OpNewController]
           [OpAbort 0 (VStr "Parent Aborted")] 0).
  - vm_compute. lia.
  - reflexivity.
Defined.

(** C10. [follow(parent)] with a parent that is not aborted: when the caller
    aborts the returned controller with its own reason [R] while the parent
    is not aborted, the child's signal is aborted with [R], and stays so
    with the same reason whatever happens next, in particular when the
    parent is aborted with another reason. *)
Theorem follow_child_keeps_own_reason (tr1 tr2 tr3 : list op) (p : sigid)
    (R R2 : value) :
  exists_signal (run init_state tr1) p →
  forallb (λ o, negb (aborts (follow (run init_state tr1) p).2 o)) tr2 = true →
  is_aborted (run (hand_over (follow (run init_state tr1) p).2
                             (follow (run init_state tr1) p).1) tr2) p
  = false →
  R ≠ VUndefined →
  let st := run init_state tr1 in
  let st1 := (follow st p).1 in
  let c := (follow st p).2 in
  let st2 := run (hand_over c st1) tr2 in
  let st3 := step st2 (OpAbort c R) in
  let st4 := step st3 (OpAbort p R2) in
  (is_aborted st3 c = true ∧ reason_of st3 c = R)
  ∧ (is_aborted st4 c = true ∧ reason_of st4 c = R)
  ∧ (is_aborted (run st3 tr3) c = true ∧ reason_of (run st3 tr3) c = R).
Proof.
  intros Hp Hok Hpa HR st st1 c st2 st3 st4.
  assert (Hinv : inv st) by apply inv_run, inv_init.
  assert (Hc : c = length (signals st)) by apply follow_result.
  fold st st1 c st2 in Hpa. fold st in Hok. fold c in Hok.
  clearbody c. subst c.
  assert (Hinv1 : inv (hand_over (length (signals st)) st1)).
  { pose proof (inv_step st (OpFollow p) Hinv) as Hi. cbn [step] in Hi.
    rewrite bool_decide_eq_true_2 in Hi by done.
    pose proof (follow_result st p) as Hres. unfold st1.
    destruct (follow st p) as [s1 c1]. simpl in *. by subst c1. }
  assert (Ha : is_aborted st p = false).
  { destruct (is_aborted st p) eqn:E; [|done].
    assert (E1 : is_aborted (hand_over (length (signals st)) st1) p = true).
    { pose proof (step_mono st (OpFollow p) p Hinv E) as [Hm _].
      cbn [step] in Hm. rewrite bool_decide_eq_true_2 in Hm by done.
      pose proof (follow_result st p) as Hres. unfold st1.
      destruct (follow st p) as [s1 c1]. simpl in *. by subst c1. }
    destruct (run_mono tr2 _ p Hinv1 E1) as [Hm _]. fold st2 in Hm.
    congruence. }
  pose proof (follow_inv_run st p Hinv Hp tr2 Ha Hok) as Hfi.
  unfold follow_inv in Hfi. fold st1 st2 in Hfi.
  destruct Hfi as (Hlt & _ & Hcase).
  assert (Hinv2 : inv st2) by by apply inv_run.
  assert (Hinv3 : inv st3) by by apply inv_step.
  assert (Hown : length (signals st) ∈ owned st2).
  { apply owned_run; [done|]. by left. }
  assert (Hca : is_aborted st2 (length (signals st)) = false).
  { destruct Hcase as [(? & _)|(_ & ? & _)]; [done|congruence]. }
  assert (H3 : is_aborted st3 (length (signals st)) = true
               ∧ reason_of st3 (length (signals st)) = R).
  { unfold st3. cbn [step]. rewrite bool_decide_eq_true_2 by done.
    destruct Hinv2 as [Hh2 _].
    pose proof (abort_cascade st2 (length (signals st)) R
                  (inv_listeners _ Hh2)) as Hcs.
    rewrite abort_reason_id in Hcs by done. simpl in Hcs.
    pose proof (cs_done _ _ _ _ Hcs Hlt) as Hd. split; [done|].
    by destruct (cs_effect _ _ _ _ Hcs _ (conj Hca Hd)) as [-> _]. }
  destruct H3 as [H3a H3r]. split_and!; try done.
  - by apply step_mono.
  - rewrite <- H3r. by apply step_mono.
  - by apply run_mono.
  - rewrite <- H3r. by apply run_mono.
Qed.

Lemma follow_child_keeps_own_reason_witness :
  let st := run init_state [OpNewController] in
  let st1 := (follow st 0).1 in
  let c := (follow st 0).2 in
  let st2 := run (hand_over c st1) [OpAdvance 3] in
  let st3 := step st2 (OpAbort c (VStr "child")) in
  let st4 := step st3 (OpAbort 0 (VStr "parent")) in
  (is_aborted st3 c = true ∧ reason_of st3 c = VStr "child")
  ∧ (is_aborted st4 c = true ∧ reason_of st4 c = VStr "child")
  ∧ (is_aborted (run st3 [OpAbort 0 VUndefined]) c = true
     ∧ reason_of (run st3 [OpAbort 0 VUndefined]) c = VStr "child").
Proof.
  apply (follow_child_keeps_own_reason [OpNewController] [OpAdvance 3]
           [OpAbort 0 VUndefined] 0 (VStr "child") (VStr "parent")).
  - vm_compute. lia.
  - reflexivity.
  - reflexivity.
  - discriminate.
Defined.

(** * [any] *)

(** The loop of [any] up to the first aborted input. *)
Lemma any_scan_app C l pre : ∀ rest cur,
  Forall (λ s, is_aborted cur s = false) pre →
  any_scan C l (pre ++ rest) cur =
  any_scan C l rest (foldl (λ cur s, addEventListener s l false cur) cur pre).
Proof.
  induction pre as [|s pre IH]; intros rest cur Hpre; simpl; [done|].
  apply Forall_cons in Hpre as [Hs Hpre]. rewrite Hs. apply IH.
  eapply Forall_impl; [done|]. intros y Hy. by rewrite is_aborted_add.
Qed.

Lemma any_scan_all C l rest cur :
  Forall (λ s, is_aborted cur s = false) rest →
  any_scan C l rest cur =
  foldl (λ cur s, addEventListener s l false cur) cur rest.
Proof.
  intros Hun. rewrite <- (app_nil_r rest) at 1.
  by rewrite any_scan_app.
Qed.

Lemma foldl_add_view l (pre : list sigid) : ∀ cur,
  let res := foldl (λ cur s, addEventListener s l false cur) cur pre in
  (∀ x, is_aborted res x = is_aborted cur x)
  ∧ (∀ x, reason_of res x = reason_of cur x)
  ∧ length (signals res) = length (signals cur)
  ∧ (∀ x l', registered res x l' ↔
             registered cur x l'
             ∨ (l' = l ∧ x ∈ pre ∧ x < length (signals cur))).
Proof.
  induction pre as [|s pre IH]; intros cur; simpl.
  - split_and!; try done. intros x l'. split; [by left|].
    intros [?|(_ & Hin & _)]; [done|]. by apply elem_of_nil in Hin.
  - destruct (IH (addEventListener s l false cur)) as (H1 & H2 & H3 & H4).
    split_and!.
    + intros x. by rewrite H1, is_aborted_add.
    + intros x. by rewrite H2, reason_of_add.
    + by rewrite H3, length_add.
    + intros x l'. rewrite H4, registered_add, length_add, elem_of_cons.
      naive_solver.
Qed.

Section Any.
Variables (st : state) (sigs : list sigid).
Hypothesis Hinv : inv st.
Hypothesis Hex : Forall (exists_signal st) sigs.

Let C := length (signals st).
Let la := AnyOnAbort C sigs.

(** No input is aborted: the listener is attached to every input. *)
Lemma any_attached :
  Forall (λ s, is_aborted st s = false) sigs →
  is_aborted (any st sigs).1 C = false
  ∧ ∀ y, y ∈ sigs →
         is_aborted (any st sigs).1 y = false ∧ registered (any st sigs).1 y la.
Proof.
  intros Hun. unfold any.
  change (new_controller st) with ((new_controller st).1, C).
  cbv iota beta. simpl fst.
  destruct (new_controller_view st) as (Ha & _ & Hl).
  destruct (fresh_controller st) as (Hlt & Hf & _).
  assert (Hun1 : Forall (λ s, is_aborted (new_controller st).1 s = false) sigs).
  { eapply Forall_impl; [done|]. intros y Hy. by rewrite Ha. }
  rewrite any_scan_all by done.
  destruct (foldl_add_view la sigs (new_controller st).1)
    as (H1 & _ & _ & H4).
  split; [by rewrite H1|].
  intros y Hy. rewrite Forall_forall in Hun, Hex.
  split; [rewrite H1, Ha; by apply Hun|].
  apply H4. right. split_and!; try done.
  rewrite length_new_controller. specialize (Hex y Hy).
  unfold exists_signal in Hex. lia.
Qed.

(** Until an input is aborted the listener is on every input; from then on
    the output is aborted with the reason of an aborted input and the
    listener is on no input. *)
Definition any_inv (s' : state) : Prop :=
  C < length (signals s')
  ∧ caps s' C False (λ _, False) (λ _, False) (λ x l, l = la ∧ x ∈ sigs)
  ∧ ((is_aborted s' C = false
      ∧ ∀ y, y ∈ sigs → is_aborted s' y = false ∧ registered s' y la)
     ∨ (is_aborted s' C = true
        ∧ (∃ y, y ∈ sigs ∧ is_aborted s' y = true
                ∧ reason_of s' C = reason_of s' y)
        ∧ ∀ y, y ∈ sigs → ¬ registered s' y la)).

Lemma any_inv_init :
  Forall (λ s, is_aborted st s = false) sigs → any_inv (any st sigs).1.
Proof.
  intros Hun. destruct (any_attached Hun) as [H1 H2].
  pose proof (any_calm st sigs Hex) as Hcm.
  destruct (caps_fresh st C False (λ _, False) (λ _, False)
              (λ _ _, False) Hinv) as [H3 H4 H5 H6]; [done|].
  split_and!.
  - rewrite any_length by done. unfold C. lia.
  - split.
    + by rewrite (cm_owned _ _ _ _ Hcm).
    + by rewrite (cm_timers _ _ _ _ Hcm).
    + by rewrite (cm_handlers _ _ _ _ Hcm).
    + intros x l Hr Hl. apply registered_iff in Hr as (reg & Hin & <-).
      destruct (cm_fresh _ _ _ _ Hcm x reg Hin) as [Hin0|[-> ?]]; [|done].
      exfalso. apply (H6 x (callback reg)); [|done].
      apply registered_iff. eauto.
  - left. done.
Qed.

Lemma any_inv_step s' o : inv s' → any_inv s' → any_inv (step s' o).
Proof.
  intros Hi (Hlt & Hcaps & Hcase).
  pose proof (step_length s' o Hi) as Hlen.
  pose proof (step_adv s' o Hi) as Had.
  split_and!; [lia|by apply caps_step|].
  assert (Hwhy : newly s' (step s' o) C →
                 ∃ y, y ∈ sigs ∧ newly s' (step s' o) y
                      ∧ reason_of (step s' o) C = reason_of (step s' o) y
                      ∧ cleaned (step s' o) la).
  { intros Hn.
    destruct (step_newly s' o C _ _ _ _ Hi Hlt Hcaps Hn)
      as [[[] _]|[(t & _ & [] & _)|[(h & ev & s & _ & [] & _)
         |(x & l & [-> Hx] & _ & Hnx & HR & Hcl)]]].
    exists x. done. }
  destruct Hcase as [(Hc & Hin)|(Hc & (y & Hy & Hya & HR) & Hnr)].
  - destruct (is_aborted (step s' o) C) eqn:Ec.
    + right. destruct (Hwhy (conj Hc Ec)) as (y & Hy & [_ Hya] & HR & Hcl).
      split_and!; [done|by exists y|]. intros z Hz. by apply Hcl.
    + left. split; [done|]. intros y Hy. destruct (Hin y Hy) as [Hya Hr].
      destruct (is_aborted (step s' o) y) eqn:Ey.
      { pose proof (ad_push _ _ _ Had y la C (conj Hya Ey) Hr eq_refl).
        congruence. }
      split; [done|].
      destruct (ad_keep _ _ _ Had y la Hr)
        as [?|[[_ ?]|(k & [= <-] & ?)]]; try done; try congruence.
  - right. destruct (step_mono s' o C Hi Hc) as [H1 H2].
    destruct (step_mono s' o y Hi Hya) as [H3 H4].
    split_and!; [done|exists y; split_and!; [done|done|congruence]|].
    intros z Hz Hr. apply registered_iff in Hr as (reg & Hr & Hcb).
    destruct (ad_fresh _ _ _ Had z reg Hr) as [Hr0|[Hf _]].
    + apply (Hnr z Hz). apply registered_iff. eauto.
    + rewrite Hcb in Hf. specialize (Hf C eq_refl). lia.
Qed.

Lemma any_inv_run tr :
  Forall (λ s, is_aborted st s = false) sigs →
  any_inv (run (any st sigs).1 tr).
Proof.
  intros Hun.
  assert (Hi1 : inv (any st sigs).1) by (by apply inv_any).
  pose proof (any_inv_init Hun) as HI.
  revert Hi1 HI. generalize ((any st sigs).1).
  induction tr as [|o tr IH]; intros s' Hi HI; simpl; [done|].
  apply IH; [by apply inv_step|by apply any_inv_step].
Qed.
End Any.

(** C2. [any(signals)] on inputs none of which is aborted: the output is not
    aborted when the call returns; when later exactly one input [x] is
    aborted, with reason [R], the output is aborted with reason [R] and the
    shared listener is registered on no input any more; and from then on
    the output keeps this state and this reason whatever happens, in
    particular when a second input is aborted with another reason. *)
Theorem any_first_abort_wins (tr1 tr2 tr3 : list op) (sigs : list sigid)
    (x : sigid) (R : value) :
  Forall (exists_signal (run init_state tr1)) sigs →
  Forall (λ s, is_aborted (run init_state tr1) s = false) sigs →
  x ∈ sigs →
  is_aborted (run (any (run init_state tr1) sigs).1 tr2) x = true →
  reason_of (run (any (run init_state tr1) sigs).1 tr2) x = R →
  Forall (λ y, is_aborted (run (any (run init_state tr1) sigs).1 tr2) y = true
               → y = x) sigs →
  let st := run init_state tr1 in
  let st1 := (any st sigs).1 in
  let c := (any st sigs).2 in
  let st2 := run st1 tr2 in
  let st3 := run st2 tr3 in
  is_aborted st1 c = false
  ∧ (is_aborted st2 c = true ∧ reason_of st2 c = R)
  ∧ (∀ y, y ∈ sigs → ¬ registered st2 y (AnyOnAbort c sigs))
  ∧ (is_aborted st3 c = true ∧ reason_of st3 c = R).
Proof.
  intros Hex Hun Hx Hxa HxR Hone st st1 c st2 st3.
  assert (Hinv : inv st) by apply inv_run, inv_init.
  assert (Hinv1 : inv st1) by (by apply inv_any).
  assert (Hinv2 : inv st2) by (by apply inv_run).
  destruct (any_attached st sigs Hex Hun) as [H1 _].
  destruct (any_inv_run st sigs Hinv Hex tr2 Hun) as (_ & _ & Hcase).
  fold st in Hxa, HxR, Hone. fold st1 in Hxa, HxR, Hone, Hcase.
  fold st2 in Hxa, HxR, Hone, Hcase.
  change (length (signals st)) with c in *.
  destruct Hcase as [(_ & Hin)|(Hc & (y & Hy & Hya & HR) & Hnr)].
  { destruct (Hin x Hx) as [? _]. congruence. }
  rewrite Forall_forall in Hone. rewrite (Hone y Hy Hya) in HR.
  split_and!; try done.
  - congruence.
  - by apply run_mono.
  - destruct (run_mono tr3 st2 c Hinv2 Hc) as [_ Hm]. fold st3 in Hm.
    congruence.
Qed.

Lemma any_first_abort_wins_witness :
  let st := run init_state [OpNewController; OpNewController] in
  let st1 := (any st [0; 1]).1 in
  let c := (any st [0; 1]).2 in
  let st2 := run st1 [OpAbort 0 (VStr "controller 1 aborted")] in
  let st3 := run st2 [OpAbort 1 (VStr "late")] in
  is_aborted st1 c = false
  ∧ (is_aborted st2 c = true ∧ reason_of st2 c = VStr "controller 1 aborted")
  ∧ (∀ y, y ∈ [0; 1] → ¬ registered st2 y (AnyOnAbort c [0; 1]))
  ∧ (is_aborted st3 c = true ∧ reason_of st3 c = VStr "controller 1 aborted").
Proof.
  apply (any_first_abort_wins [OpNewController; OpNewController]
           [OpAbort 0 (VStr "controller 1 aborted")]
           [OpAbort 1 (VStr "late")] [0; 1] 0 (VStr "controller 1 aborted")).
  - repeat constructor.
  - repeat constructor.
  - by left.
  - reflexivity.
  - reflexivity.
  - repeat constructor; vm_compute; congruence.
Defined.

(** ** The short-circuit of [any] *)

Lemma foldl_add_listeners l (pre : list sigid) x : ∀ cur,
  x ∉ pre →
  listeners_of (foldl (λ cur s, addEventListener s l false cur) cur pre) x
  = listeners_of cur x.
Proof.
  induction pre as [|s pre IH]; intros cur Hx; simpl; [done|].
  apply not_elem_of_cons in Hx as [Hne Hx].
  rewrite IH by done. by apply listeners_of_add_ne.
Qed.

(** An input is already aborted: the output is aborted with the reason of
    the first such input, and the listener stays on the inputs before it. *)
Lemma any_short_circuit st pre x post :
  inv st → Forall (exists_signal st) (pre ++ x :: post) →
  Forall (λ s, is_aborted st s = false) pre → is_aborted st x = true →
  let sigs := pre ++ x :: post in
  let st1 := (any st sigs).1 in
  let c := (any st sigs).2 in
  is_aborted st1 c = true
  ∧ reason_of st1 c = reason_of st x
  ∧ (∀ y, y ∈ pre → registered st1 y (AnyOnAbort c sigs))
  ∧ (∀ y, y ∈ x :: post → y ∉ pre →
          listeners_of st1 y = listeners_of st y).
Proof.
  intros Hinv Hex Hun Hxa sigs st1 c. subst sigs.
  set (sigs := pre ++ x :: post) in *.
  set (l := AnyOnAbort (length (signals st)) sigs).
  set (s0 := (new_controller st).1).
  set (s1 := foldl (λ cur s, addEventListener s l false cur) s0 pre).
  destruct (new_controller_view st) as (Ha & Hr & Hl).
  destruct (fresh_controller st) as (Hlt & Hf & Hnl).
  fold s0 in Ha, Hr, Hl, Hlt, Hf, Hnl.
  destruct (foldl_add_view l pre s0) as (H1 & H2 & H3 & H4). fold s1 in H1, H2, H3, H4.
  rewrite Forall_forall in Hex.
  assert (Hlow : ∀ y, y ∈ sigs → y < length (signals st)).
  { intros y Hy. by apply Hex. }
  assert (Hcpre : length (signals st) ∉ pre).
  { intros Hin. assert (length (signals st) ∈ sigs) as Hin'
      by (apply elem_of_app; by left). apply Hlow in Hin'. lia. }
  assert (Est : st1 = abort s1 (length (signals st)) (reason_of s1 x)).
  { unfold st1, any.
    change (new_controller st) with (s0, length (signals st)).
    cbv iota beta. simpl fst. fold l. unfold sigs.
    rewrite any_scan_app.
    - fold s1. simpl. by rewrite H1, Ha, Hxa.
    - eapply Forall_impl; [done|]. intros y Hy. by rewrite Ha. }
  assert (Hdef : reason_of s1 x ≠ VUndefined).
  { rewrite H2, Hr. destruct Hinv as [Hh _]. by apply (inv_reasons _ Hh). }
  rewrite abort_no_listeners in Est; try done.
  2: { by rewrite H3. }
  2: { by rewrite H1. }
  2: { unfold s1. by rewrite foldl_add_listeners. }
  rewrite abort_reason_id in Est by done. simpl in Est.
  change c with (length (signals st)). rewrite Est. split_and!.
  - apply is_aborted_mark_eq. by rewrite H3.
  - rewrite reason_of_mark_eq by (by rewrite H3). by rewrite H2, Hr.
  - intros y Hy. apply registered_mark, H4. right. split_and!; try done.
    assert (y < length (signals st)); [|lia].
    apply Hlow, elem_of_app. by left.
  - intros y _ Hy. rewrite listeners_of_mark. unfold s1.
    by rewrite foldl_add_listeners.
Qed.

(** C1. [Abort.any([a.signal, b.signal])] where [a] is not aborted and [b]
    has been aborted with a reason: the output is aborted with that reason
    when the call returns, but the listener attached to [a.signal] before
    the scan reached [b.signal] is still registered. *)
Theorem any_short_circuit_leaves_listener :
  let st := run init_state [OpNewController; OpNewController;
                            OpAbort 1 (VStr "already aborted")] in
  let st1 := (any st [0; 1]).1 in
  let c := (any st [0; 1]).2 in
  listeners_of st 0 = []
  ∧ is_aborted st1 c = true
  ∧ reason_of st1 c = VStr "already aborted"
  ∧ listeners_of st1 0 = [Reg (AnyOnAbort c [0; 1]) false].
Proof. vm_compute. done. Qed.

(** * [manageLifecycle] *)

(** [o] is the collection of the host object [t]. *)
Definition finalizes (t : objid) (o : op) : bool :=
  match o with
  | OpFinalize t' => bool_decide (t' = t)
  | _ => false
  end.

(** Symbols that are not created yet label no call. *)
Definition calls_fresh (st : state) : Prop :=
  ∀ id, next_id st ≤ id → calls_via id st = [].

Lemma calls_fresh_step st o : inv st → calls_fresh st → calls_fresh (step st o).
Proof.
  intros Hinv Hcf id Hid.
  pose proof (step_next st o Hinv) as Hn.
  destruct Hinv as [Hh Hr].
  assert (Hex : excl st id 0 0).
  { intros x reg Hin Hl. destruct (inv_ids _ Hh x reg id Hin Hl). lia. }
  destruct (ad_calls _ _ _ (step_advance st o (inv_listeners _ Hh))
                     id 0 0 Hex) as [_ Hc].
  rewrite Hc; [apply Hcf; lia|].
  intros [_ Hreg]. apply registered_iff in Hreg as (reg & Hin & Hcb).
  destruct (inv_ids _ Hh 0 reg id Hin); [by rewrite Hcb|lia].
Qed.

Lemma calls_fresh_run tr : ∀ st, inv st → calls_fresh st → calls_fresh (run st tr).
Proof.
  induction tr as [|o tr IH]; intros st Hinv Hcf; simpl; [done|].
  apply IH; [by apply inv_step|by apply calls_fresh_step].
Qed.

Section Lifecycle.
Variables (st : state) (t : objid) (sig : sigid) (cb : cbid).
Hypothesis Hinv : inv st.
Hypothesis Hfresh : calls_fresh st.
Hypothesis Hsig : exists_signal st sig.

Let id := next_id st.
Let ll := LifecycleListener id sig cb.

(** The signal is already aborted: one synchronous call, no subscription. *)
Lemma manageLifecycle_pre_aborted :
  is_aborted st sig = true →
  manageLifecycle st t sig cb = record_call None cb (reason_of st sig) st.
Proof. intros Ha. unfold manageLifecycle. by rewrite Ha. Qed.

(** The listener is in place and no call has been made, or the signal is
    aborted, the listener is gone and exactly one call has been made, with
    the reason of the signal. *)
Definition lifecycle_inv (s' : state) : Prop :=
  id < next_id s'
  ∧ excl s' id sig cb
  ∧ ((is_aborted s' sig = false ∧ registered s' sig ll
      ∧ calls_via id s' = [])
     ∨ (is_aborted s' sig = true ∧ ¬ registered s' sig ll
        ∧ calls_via id s' = [Call (Some id) cb (reason_of s' sig)])).

Lemma lifecycle_inv_init :
  is_aborted st sig = false → lifecycle_inv (manageLifecycle st t sig cb).
Proof.
  intros Ha. destruct Hinv as [Hh Hr].
  unfold manageLifecycle. rewrite Ha. fold id ll.
  set (s1 := addEventListener sig ll true (bump_id st)).
  assert (Hn1 : next_id s1 = S id).
  { unfold s1, addEventListener. by destruct (has_listener _ _ _). }
  assert (Hr1 : registry s1 = registry st).
  { unfold s1, addEventListener. by destruct (has_listener _ _ _). }
  assert (Hc1 : calls s1 = calls st).
  { unfold s1, addEventListener. by destruct (has_listener _ _ _). }
  split_and!.
  - simpl. lia.
  - intros x reg Hin Hl.
    change (reg ∈ listeners_of s1 x) in Hin.
    apply elem_of_add in Hin as [Hin|(-> & _ & -> & _)]; [|done].
    destruct (inv_ids _ Hh x reg id Hin Hl). unfold id in *. lia.
  - left. split_and!.
    + change (is_aborted s1 sig = false). unfold s1.
      by rewrite is_aborted_add.
    + change (registered s1 sig ll). apply registered_add. right. done.
    + unfold calls_via. simpl. rewrite Hc1. by apply Hfresh.
Qed.

Lemma lifecycle_inv_step s' o :
  inv s' → lifecycle_inv s' → lifecycle_inv (step s' o).
Proof.
  intros Hi (Hid & Hex & Hcase).
  pose proof (step_next s' o Hi) as Hn.
  pose proof (step_adv s' o Hi) as Had.
  assert (Hold : ∀ x reg, reg ∈ listeners_of (step s' o) x →
                          lid (callback reg) = Some id →
                          reg ∈ listeners_of s' x).
  { intros x reg Hin Hl.
    destruct (ad_fresh _ _ _ Had x reg Hin) as [?|[_ Hf]]; [done|].
    specialize (Hf id Hl). lia. }
  destruct (ad_calls _ _ _ Had id sig cb Hex) as [Hhit Hmiss].
  fold ll in Hhit, Hmiss.
  split_and!; [lia| |].
  - intros x reg Hin Hl. apply Hex; [by apply Hold|done].
  - destruct Hcase as [(Ha & Hrg & Hcalls)|(Ha & Hrg & Hcalls)].
    + destruct (is_aborted (step s' o) sig) eqn:E.
      * right. destruct (Hhit (conj (conj Ha E) Hrg)) as [Hc Hnr].
        rewrite Hcalls in Hc. done.
      * left. rewrite Hmiss by (intros [[_ ?] _]; congruence).
        split_and!; try done.
        destruct (ad_keep _ _ _ Had sig ll Hrg)
          as [?|[[_ ?]|(k & ? & _)]]; try done; try congruence.
    + right. destruct (step_mono s' o sig Hi Ha) as [H1 H2].
      rewrite Hmiss by (by intros [_ ?]). rewrite H2.
      split_and!; try done.
      intros Hrg'. apply registered_iff in Hrg' as (reg & Hin & Hcb).
      apply Hrg, registered_iff. exists reg. split; [|done].
      apply Hold; [done|]. by rewrite Hcb.
Qed.

Lemma lifecycle_inv_run tr :
  is_aborted st sig = false →
  lifecycle_inv (run (manageLifecycle st t sig cb) tr).
Proof.
  intros Ha. apply (run_invariant _ (λ _, true)).
  - by apply inv_manageLifecycle.
  - by apply lifecycle_inv_init.
  - intros s o Hi HP _. by apply lifecycle_inv_step.
  - by induction tr.
Qed.
End Lifecycle.

(** What [manageLifecycle(target, signal, onAbort)] is expected to do, for a
    program [tr1] before the call and a program [tr2] after it: an aborted
    signal gives one synchronous call with its reason and no subscription;
    otherwise the calls made through the listener of this registration are
    exactly one call with the reason of the signal once the signal is
    aborted, and none before. *)
Definition manageLifecycle_outcome (tr1 tr2 : list op) (t : objid)
    (sig : sigid) (cb : cbid) : Prop :=
  let st := run init_state tr1 in
  let st1 := manageLifecycle st t sig cb in
  let id := next_id st in
  let st2 := run st1 tr2 in
  if is_aborted st sig then
    calls st1 = calls st ++ [Call None cb (reason_of st sig)]
    ∧ signals st1 = signals st
    ∧ registry st1 = registry st
  else
    calls st1 = calls st
    ∧ calls_via id st2 =
      if is_aborted st2 sig then [Call (Some id) cb (reason_of st2 sig)]
      else [].

(** C5. [manageLifecycle(target, signal, onAbort)]: when the signal is
    already aborted the callback is invoked synchronously with its reason
    and nothing is subscribed; otherwise the callback is invoked through
    this registration exactly once, with the reason of the signal, in the
    operation that aborts the signal, and not before; this holds whatever
    the program does after the call, also when the host object is collected
    before or after the abort. *)
Theorem manageLifecycle_spec (tr1 tr2 : list op) (t : objid) (sig : sigid)
    (cb : cbid) :
  exists_signal (run init_state tr1) sig →
  manageLifecycle_outcome tr1 tr2 t sig cb.
Proof.
  intros Hsig. unfold manageLifecycle_outcome.
  set (st := run init_state tr1) in *.
  assert (Hinv : inv st) by apply inv_run, inv_init.
  assert (Hcf : calls_fresh st).
  { apply calls_fresh_run; [apply inv_init|done]. }
  destruct (is_aborted st sig) eqn:Ha.
  - by rewrite manageLifecycle_pre_aborted.
  - split.
    + unfold manageLifecycle. rewrite Ha. simpl.
      unfold addEventListener. by destruct (has_listener _ _ _).
    + destruct (lifecycle_inv_run st t sig cb Hinv Hcf Hsig tr2 Ha)
        as (_ & _ & [(-> & _ & ->)|(-> & _ & ->)]); done.
Qed.

Lemma manageLifecycle_spec_witness :
  manageLifecycle_outcome [OpNewController]
    [OpFinalize 7; OpAdvance 1; OpAbort 0 (VStr "Test Abort"); OpFinalize 7]
    7 0 9.
Proof. apply manageLifecycle_spec. vm_compute. lia. Defined.

(** Running the registry callbacks of a host object removes their
    listeners. *)
Lemma finalizers_remove fs : ∀ st f,
  f ∈ fs → fin_held f = fin_cleanupId f →
  ¬ registered (foldl (λ cur f, run_finalizer f cur) st fs)
               (fin_signal f) (fin_listener f).
Proof.
  induction fs as [|f' fs IH]; intros st f Hin Hheld; simpl.
  - by apply elem_of_nil in Hin.
  - apply elem_of_cons in Hin as [->|Hin]; [|by apply IH].
    intros Hr. apply registered_iff in Hr as (reg & Hr & Hcb).
    apply (sh_sub _ _ _ (shrunk_foldl fs _)) in Hr.
    unfold run_finalizer in Hr. rewrite bool_decide_eq_true_2 in Hr by done.
    apply elem_of_remove in Hr as [_ Hr]. by apply Hr.
Qed.

(** Once the registry callbacks of the host object of a [manageLifecycle]
    registration have run, its listener is no longer registered on the
    signal. *)
Lemma finalize_deregisters st t sig cb :
  is_aborted st sig = false →
  ¬ registered (run_finalizers t (manageLifecycle st t sig cb)) sig
               (LifecycleListener (next_id st) sig cb).
Proof.
  intros Ha. unfold manageLifecycle. rewrite Ha.
  set (s1 := addEventListener _ _ _ _).
  set (f := Finalizer t (next_id st) (next_id st) sig
                      (LifecycleListener (next_id st) sig cb)).
  apply (finalizers_remove _ _ f); [|done].
  apply list_elem_of_filter. split; [done|]. simpl.
  apply elem_of_app. right. by apply list_elem_of_singleton.
Qed.

(** * Further properties of [any] *)

(** The inputs up to the first one that is aborted. *)
Lemma first_aborted st (sigs : list sigid) :
  Forall (λ s, is_aborted st s = false) sigs
  ∨ ∃ pre x post, sigs = pre ++ x :: post
      ∧ Forall (λ s, is_aborted st s = false) pre ∧ is_aborted st x = true.
Proof.
  induction sigs as [|s sigs IH]; [left; constructor|].
  destruct (is_aborted st s) eqn:E.
  - right. exists [], s, sigs. done.
  - destruct IH as [IH|(pre & x & post & -> & Hpre & Hx)].
    + left. by constructor.
    + right. exists (s :: pre), x, post. split_and!; [done|by constructor|done].
Qed.

(** The output of [any] follows its inputs, whether or not one of them is
    aborted at the call. *)
Lemma any_mirror st sigs tr :
  inv st → Forall (exists_signal st) sigs →
  let s2 := run (any st sigs).1 tr in
  let c := length (signals st) in
  (is_aborted s2 c = true →
   ∃ y, y ∈ sigs ∧ is_aborted s2 y = true ∧ reason_of s2 c = reason_of s2 y)
  ∧ (∀ y, y ∈ sigs → is_aborted s2 y = true → is_aborted s2 c = true).
Proof.
  intros Hinv Hex s2 c.
  assert (Hinv1 : inv (any st sigs).1) by (by apply inv_any).
  destruct (first_aborted st sigs) as [Hun|(pre & x & post & Hs & Hpre & Hx)].
  - destruct (any_inv_run st sigs Hinv Hex tr Hun) as (_ & _ & Hcase).
    fold s2 c in Hcase.
    destruct Hcase as [(Hc & Hin)|(Hc & (y & Hy & Hya & HR) & _)].
    + split; [congruence|]. intros y Hy Hya.
      destruct (Hin y Hy) as [? _]. congruence.
    + split; [|done]. intros _. by exists y.
  - assert (Hxin : x ∈ sigs) by (rewrite Hs; apply elem_of_app; right; by left).
    rewrite Hs in Hex.
    destruct (any_short_circuit st pre x post Hinv Hex Hpre Hx)
      as (Hc & HR & _). rewrite <- Hs in Hc, HR.
    change ((any st sigs).2) with c in Hc, HR.
    rewrite <- Hs in Hex.
    pose proof (any_calm st sigs Hex) as Hcm.
    assert (Hxlt : x < length (signals st)).
    { rewrite Forall_forall in Hex. by apply Hex. }
    destruct (cm_same _ _ _ _ Hcm x Hxlt) as [Hx1 HRx].
    rewrite Hx in Hx1.
    destruct (run_mono tr _ c Hinv1 Hc) as [Hc2 HR2].
    destruct (run_mono tr _ x Hinv1 Hx1) as [Hx2 HRx2].
    fold s2 in Hc2, HR2, Hx2, HRx2.
    split; [|done]. intros _. exists x. split_and!; try done. congruence.
Qed.

(** X1. At any time after [any(signals)], the output is aborted exactly when
    one of the inputs is, and then it carries the reason of an aborted
    input; this holds whether or not an input is aborted at the call. *)
Theorem any_aborted_iff_input (tr1 tr2 : list op) (sigs : list sigid) :
  Forall (exists_signal (run init_state tr1)) sigs →
  let st := run init_state tr1 in
  let c := (any st sigs).2 in
  let st2 := run (any st sigs).1 tr2 in
  (is_aborted st2 c = true ↔ ∃ y, y ∈ sigs ∧ is_aborted st2 y = true)
  ∧ (is_aborted st2 c = true →
     ∃ y, y ∈ sigs ∧ is_aborted st2 y = true
          ∧ reason_of st2 c = reason_of st2 y).
Proof.
  intros Hex st c st2.
  assert (Hinv : inv st) by apply inv_run, inv_init.
  destruct (any_mirror st sigs tr2 Hinv Hex) as [H1 H2].
  split; [|done]. split.
  - intros Hc. destruct (H1 Hc) as (y & ? & ? & _). by exists y.
  - intros (y & Hy & Hya). by apply (H2 y).
Qed.

Lemma any_aborted_iff_input_witness :
  let st := run init_state [OpNewController; OpNewController] in
  let c := (any st [0; 1]).2 in
  let st2 := run (any st [0; 1]).1 [OpAbort 1 (VStr "stop")] in
  (is_aborted st2 c = true ↔ ∃ y, y ∈ [0; 1] ∧ is_aborted st2 y = true)
  ∧ (is_aborted st2 c = true →
     ∃ y, y ∈ [0; 1] ∧ is_aborted st2 y = true
          ∧ reason_of st2 c = reason_of st2 y).
Proof.
  apply (any_aborted_iff_input [OpNewController; OpNewController]
           [OpAbort 1 (VStr "stop")] [0; 1]).
  repeat constructor.
Defined.

(** X2. [any(signals)] on inputs none of which is aborted: at any later
    time, the shared listener is registered on an input exactly as long as
    the output is not aborted. *)
Theorem any_listener_until_abort (tr1 tr2 : list op) (sigs : list sigid)
    (y : sigid) :
  Forall (exists_signal (run init_state tr1)) sigs →
  Forall (λ s, is_aborted (run init_state tr1) s = false) sigs →
  y ∈ sigs →
  let st := run init_state tr1 in
  let c := (any st sigs).2 in
  let st2 := run (any st sigs).1 tr2 in
  registered st2 y (AnyOnAbort c sigs) ↔ is_aborted st2 c = false.
Proof.
  intros Hex Hun Hy st c st2.
  assert (Hinv : inv st) by apply inv_run, inv_init.
  destruct (any_inv_run st sigs Hinv Hex tr2 Hun) as (_ & _ & Hcase).
  fold st2 in Hcase. change (length (signals st)) with c in Hcase.
  destruct Hcase as [(Hc & Hin)|(Hc & _ & Hnr)].
  - split; [done|]. intros _. by apply Hin.
  - split; [|congruence]. intros Hr. by apply Hnr in Hr.
Qed.

Lemma any_listener_until_abort_witness :
  let st := run init_state [OpNewController; OpNewController] in
  let c := (any st [0; 1]).2 in
  let st2 := run (any st [0; 1]).1 [OpAbort 1 (VStr "stop")] in
  registered st2 0 (AnyOnAbort c [0; 1]) ↔ is_aborted st2 c = false.
Proof.
  apply (any_listener_until_abort [OpNewController; OpNewController]
           [OpAbort 1 (VStr "stop")] [0; 1] 0).
  - repeat constructor.
  - repeat constructor.
  - by left.
Defined.

(** X3. [any(signals)] with an input that is already aborted: the output is
    aborted when the call returns, with the reason of the first aborted
    input, and keeps this state and reason; the shared listener has been
    attached to every input before that one and to no other. *)
Theorem any_pre_aborted (tr1 tr2 : list op) (pre post : list sigid)
    (x : sigid) :
  Forall (exists_signal (run init_state tr1)) (pre ++ x :: post) →
  Forall (λ s, is_aborted (run init_state tr1) s = false) pre →
  is_aborted (run init_state tr1) x = true →
  let st := run init_state tr1 in
  let sigs := pre ++ x :: post in
  let st1 := (any st sigs).1 in
  let c := (any st sigs).2 in
  let st2 := run st1 tr2 in
  (is_aborted st1 c = true ∧ reason_of st1 c = reason_of st x)
  ∧ (is_aborted st2 c = true ∧ reason_of st2 c = reason_of st x)
  ∧ (∀ y, y ∈ pre → registered st1 y (AnyOnAbort c sigs))
  ∧ (∀ y, y ∈ x :: post → y ∉ pre → listeners_of st1 y = listeners_of st y).
Proof.
  intros Hex Hpre Hx st sigs st1 c st2.
  assert (Hinv : inv st) by apply inv_run, inv_init.
  assert (Hinv1 : inv st1) by (by apply inv_any).
  destruct (any_short_circuit st pre x post Hinv Hex Hpre Hx)
    as (Hc & HR & Hl & Hk).
  fold sigs st1 c in Hc, HR, Hl, Hk.
  destruct (run_mono tr2 st1 c Hinv1 Hc) as [Hc2 HR2]. fold st2 in Hc2, HR2.
  split_and!; try done. congruence.
Qed.

Lemma any_pre_aborted_witness :
  let st := run init_state [OpNewController; OpNewController;
                            OpAbort 1 (VStr "already aborted")] in
  let sigs := [0] ++ 1 :: [] in
  let st1 := (any st sigs).1 in
  let c := (any st sigs).2 in
  let st2 := run st1 [OpAbort 0 (VStr "late")] in
  (is_aborted st1 c = true ∧ reason_of st1 c = reason_of st 1)
  ∧ (is_aborted st2 c = true ∧ reason_of st2 c = reason_of st 1)
  ∧ (∀ y, y ∈ [0] → registered st1 y (AnyOnAbort c sigs))
  ∧ (∀ y, y ∈ 1 :: [] → y ∉ [0] → listeners_of st1 y = listeners_of st y).
Proof.
  apply (any_pre_aborted [OpNewController; OpNewController;
                          OpAbort 1 (VStr "already aborted")]
           [OpAbort 0 (VStr "late")] [0] [] 1).
  - repeat constructor.
  - repeat constructor.
  - reflexivity.
Defined.

(** ** Combinations of [any] *)

Lemma run_cons st o tr : run st (o :: tr) = run (step st o) tr.
Proof. done. Qed.

(** X4. [any] of the output of another [any] and further signals: the outer
    output is aborted exactly when one of the signals of the two lists is,
    with the reason of an aborted one. *)
Theorem any_nested (tr1 tr2 : list op) (inner outer : list sigid) :
  Forall (exists_signal (run init_state tr1)) inner →
  Forall (exists_signal (run init_state tr1)) outer →
  let st := run init_state tr1 in
  let st1 := (any st inner).1 in
  let ci := (any st inner).2 in
  let c := (any st1 (ci :: outer)).2 in
  let st2 := run (any st1 (ci :: outer)).1 tr2 in
  (is_aborted st2 c = true ↔
   ∃ y, y ∈ inner ++ outer ∧ is_aborted st2 y = true)
  ∧ (is_aborted st2 c = true →
     ∃ y, y ∈ inner ++ outer ∧ is_aborted st2 y = true
          ∧ reason_of st2 c = reason_of st2 y).
Proof.
  intros Hexi Hexo st st1 ci c st2.
  assert (Hinv : inv st) by apply inv_run, inv_init.
  assert (Hinv1 : inv st1) by (by apply inv_any).
  assert (Hlen : length (signals st1) = S (length (signals st)))
    by (by apply any_length).
  assert (Hex1 : Forall (exists_signal st1) (ci :: outer)).
  { constructor.
    - unfold exists_signal. rewrite Hlen.
      apply Nat.lt_succ_diag_r.
    - eapply Forall_impl; [exact Hexo|]. intros y Hy.
      fold st in Hy. unfold exists_signal in Hy |- *. rewrite Hlen. lia. }
  destruct (any_mirror st1 (ci :: outer) tr2 Hinv1 Hex1) as [Ho1 Ho2].
  destruct (any_mirror st inner (OpAny (ci :: outer) :: tr2) Hinv Hexi)
    as [Hi1 Hi2].
  rewrite run_cons in Hi1, Hi2. cbn [step] in Hi1, Hi2.
  fold st1 in Hi1, Hi2.
  rewrite bool_decide_eq_true_2 in Hi1, Hi2 by done.
  fold st2 in Ho1, Ho2, Hi1, Hi2.
  change (length (signals st1)) with c in Ho1, Ho2.
  change (length (signals st)) with ci in Hi1, Hi2.
  assert (Hwhy : is_aborted st2 c = true →
     ∃ y, y ∈ inner ++ outer ∧ is_aborted st2 y = true
          ∧ reason_of st2 c = reason_of st2 y).
  { intros Hc. destruct (Ho1 Hc) as (y & Hy & Hya & HR).
    apply elem_of_cons in Hy as [->|Hy].
    - destruct (Hi1 Hya) as (z & Hz & Hza & HRz).
      exists z. split_and!; [apply elem_of_app; by left|done|congruence].
    - exists y. split_and!; [apply elem_of_app; by right|done|done]. }
  split; [|done]. split.
  - intros Hc. destruct (Hwhy Hc) as (y & ? & ? & _). by exists y.
  - intros (y & Hy & Hya). apply elem_of_app in Hy as [Hy|Hy].
    + apply (Ho2 ci); [by left|]. by apply (Hi2 y).
    + apply (Ho2 y); [by right|done].
Qed.

Lemma any_nested_witness :
  let st := run init_state [OpNewController; OpNewController;
                            OpNewController] in
  let st1 := (any st [0; 1]).1 in
  let ci := (any st [0; 1]).2 in
  let c := (any st1 (ci :: [2])).2 in
  let st2 := run (any st1 (ci :: [2])).1 [OpAbort 1 (VStr "stop")] in
  (is_aborted st2 c = true ↔
   ∃ y, y ∈ [0; 1] ++ [2] ∧ is_aborted st2 y = true)
  ∧ (is_aborted st2 c = true →
     ∃ y, y ∈ [0; 1] ++ [2] ∧ is_aborted st2 y = true
          ∧ reason_of st2 c = reason_of st2 y).
Proof.
  apply (any_nested [OpNewController; OpNewController; OpNewController]
           [OpAbort 1 (VStr "stop")] [0; 1] [2]).
  - repeat constructor.
  - repeat constructor.
Defined.

(** X5. The signal of [never()] is neutral for [any]: the output of
    [any([never(), ...signals])] is aborted exactly when one of [signals]
    is. *)
Theorem any_never_neutral (tr1 tr2 : list op) (sigs : list sigid) :
  Forall (exists_signal (run init_state tr1)) sigs →
  let st := run init_state tr1 in
  let st1 := (never st).1 in
  let s := (never st).2 in
  let c := (any st1 (s :: sigs)).2 in
  let st2 := run (any st1 (s :: sigs)).1 tr2 in
  is_aborted st2 s = false
  ∧ (is_aborted st2 c = true ↔ ∃ y, y ∈ sigs ∧ is_aborted st2 y = true).
Proof.
  intros Hex st st1 s c st2.
  assert (Hinv : inv st) by apply inv_run, inv_init.
  assert (Hok : never_ok st).
  { apply never_ok_run; [apply inv_init|]. by intros x [=]. }
  destruct (never_ok_never st Hinv Hok) as (Hinv1 & Hok1 & Hs1).
  fold st1 s in Hinv1, Hok1, Hs1.
  destruct (Hok1 s Hs1) as (Hslt & _ & _).
  assert (Hex1 : Forall (exists_signal st1) (s :: sigs)).
  { constructor; [done|].
    eapply Forall_impl; [exact Hex|]. intros y Hy.
    pose proof (step_length st OpNever Hinv) as Hl. cbn [step] in Hl.
    fold st1 in Hl. fold st in Hy. unfold exists_signal in Hy |- *. lia. }
  assert (Hrun : run st1 (OpAny (s :: sigs) :: tr2) = st2).
  { rewrite run_cons. cbn [step]. by rewrite bool_decide_eq_true_2. }
  assert (Hs2 : is_aborted st2 s = false).
  { rewrite <- Hrun. apply (never_ok_run _ st1 Hinv1 Hok1 s).
    by apply never_kept_run. }
  destruct (any_mirror st1 (s :: sigs) tr2 Hinv1 Hex1) as [H1 H2].
  fold st2 in H1, H2. change (length (signals st1)) with c in H1, H2.
  split; [done|]. split.
  - intros Hc. destruct (H1 Hc) as (y & Hy & Hya & _).
    apply elem_of_cons in Hy as [->|Hy]; [congruence|]. by exists y.
  - intros (y & Hy & Hya). apply (H2 y); [by right|done].
Qed.

Lemma any_never_neutral_witness :
  let st := run init_state [OpNewController] in
  let st1 := (never st).1 in
  let s := (never st).2 in
  let c := (any st1 (s :: [0])).2 in
  let st2 := run (any st1 (s :: [0])).1 [OpAbort 0 (VStr "stop")] in
  is_aborted st2 s = false
  ∧ (is_aborted st2 c = true ↔ ∃ y, y ∈ [0] ∧ is_aborted st2 y = true).
Proof.
  apply (any_never_neutral [OpNewController] [OpAbort 0 (VStr "stop")] [0]).
  repeat constructor.
Defined.

(** * The methods leave the existing signals alone *)

(** [o] is a call of one of the methods of [AbortManager]. *)
Definition constructs (o : op) : bool :=
  match o with
  | OpTimeout _ _ | OpAny _ | OpManageLifecycle _ _ _ | OpFollow _
  | OpFromEvent _ _ | OpNever => true
  | _ => false
  end.

(** The existing signals keep their state, their reason and their
    listeners, and no listener has run. *)
Record untouched (st st' : state) : Prop := Untouched {
  ut_aborted : ∀ x, exists_signal st x → is_aborted st' x = is_aborted st x;
  ut_reason : ∀ x, exists_signal st x → reason_of st' x = reason_of st x;
  ut_listeners : ∀ x reg, reg ∈ listeners_of st x → reg ∈ listeners_of st' x;
  ut_calls : ∀ id, calls_via id st' = calls_via id st
}.

Lemma untouched_refl st : untouched st st.
Proof. by split. Qed.

Lemma untouched_calm N st st1 st' :
  calm (length (signals st)) N st st1 →
  signals st' = signals st1 → calls st' = calls st1 → untouched st st'.
Proof.
  intros Hc Hs Hcl.
  assert (Ha : ∀ x, is_aborted st' x = is_aborted st1 x)
    by (intros x; unfold is_aborted; by rewrite Hs).
  assert (Hr : ∀ x, reason_of st' x = reason_of st1 x)
    by (intros x; unfold reason_of; by rewrite Hs).
  assert (Hl : ∀ x, listeners_of st' x = listeners_of st1 x)
    by (intros x; unfold listeners_of; by rewrite Hs).
  split.
  - intros x Hx. rewrite Ha. by apply (cm_same _ _ _ _ Hc).
  - intros x Hx. rewrite Hr. by apply (cm_same _ _ _ _ Hc).
  - intros x reg Hin. rewrite Hl. by apply (cm_keep _ _ _ _ Hc).
  - intros id. unfold calls_via. rewrite Hcl. apply (cm_calls _ _ _ _ Hc).
Qed.

Lemma step_untouched st o : constructs o = true → untouched st (step st o).
Proof.
  intros Ho.
  destruct o as [|c r|h ms|sigs|t s cb|p|t n| |dt|id|t n ev strict|t];
    try discriminate; cbn [step].
  - eapply untouched_calm with (N := no_new);
      [apply calm_new_controller|done|done].
  - destruct (bool_decide (Forall (exists_signal st) sigs)) eqn:Hex;
      [|apply untouched_refl].
    apply bool_decide_eq_true in Hex.
    eapply untouched_calm; [by apply any_calm|done|done].
  - destruct (bool_decide (exists_signal st s)); [|apply untouched_refl].
    destruct (manageLifecycle_split st t s cb) as (H1 & H2 & _).
    eapply untouched_calm; [apply manageLifecycle_calm|done|done].
  - destruct (bool_decide (exists_signal st p)); [|apply untouched_refl].
    pose proof (follow_calm st p) as Hcalm.
    destruct (follow st p) as [st1 c]. simpl in Hcalm.
    eapply untouched_calm; [apply Hcalm|done|done].
  - eapply untouched_calm with (N := no_new);
      [apply calm_new_controller|done|done].
  - unfold never. destruct (neverSignal st); [apply untouched_refl|].
    eapply untouched_calm with (N := no_new);
      [apply calm_new_controller|done|done].
Qed.

(** X6. No method of [AbortManager] aborts an existing signal, changes its
    reason, removes one of its listeners or runs a listener: whatever the
    state of the program, [timeout], [any], [manageLifecycle], [follow],
    [fromEvent] and [never] only add to the store. *)
Theorem methods_touch_no_signal (tr : list op) (o : op) :
  constructs o = true →
  untouched (run init_state tr) (step (run init_state tr) o).
Proof. apply step_untouched. Qed.

Lemma methods_touch_no_signal_witness :
  untouched (run init_state [OpNewController; OpAbort 0 (VStr "stop")])
            (step (run init_state [OpNewController; OpAbort 0 (VStr "stop")])
                  (OpFollow 0)).
Proof. apply methods_touch_no_signal. reflexivity. Defined.

(** * Aborts reach younger signals only

    A listener of [any] or [follow] aborts a controller that was created
    after the signal it is registered on. *)

Definition ordered (st : state) : Prop :=
  ∀ x l k, registered st x l → ctrl l = Some k → x < k.

Lemma listeners_of_signals st st' x :
  signals st' = signals st → listeners_of st' x = listeners_of st x.
Proof. intros Hs. unfold listeners_of. by rewrite Hs. Qed.

Lemma registered_signals st st' x l :
  signals st' = signals st → registered st' x l ↔ registered st x l.
Proof. intros Hs. unfold registered. by rewrite (listeners_of_signals st st'). Qed.

Lemma is_aborted_signals st st' x :
  signals st' = signals st → is_aborted st' x = is_aborted st x.
Proof. intros Hs. unfold is_aborted. by rewrite Hs. Qed.

(** A property of every registration of the store. *)
Definition all_regs (Φ : sigid → registration → Prop) (st : state) : Prop :=
  ∀ x reg, reg ∈ listeners_of st x → Φ x reg.

Lemma all_regs_sub Φ st st' :
  (∀ x reg, reg ∈ listeners_of st' x → reg ∈ listeners_of st x) →
  all_regs Φ st → all_regs Φ st'.
Proof. intros Hs H x reg Hin. by apply H, Hs. Qed.

Lemma all_regs_signals Φ st st' :
  signals st' = signals st → all_regs Φ st → all_regs Φ st'.
Proof.
  intros Hs. apply all_regs_sub. intros x reg.
  by rewrite (listeners_of_signals st st').
Qed.

Lemma all_regs_calm Φ n N st st' :
  calm n N st st' → (∀ x reg, N x reg → Φ x reg) →
  all_regs Φ st → all_regs Φ st'.
Proof.
  intros Hc HN H x reg Hin.
  destruct (cm_fresh _ _ _ _ Hc x reg Hin) as [?|?]; auto.
Qed.

(** [Φ] holds of the registrations that the methods make. *)
Record made_ok (Φ : sigid → registration → Prop) : Prop := MadeOk {
  mk_any : ∀ C sigs x, x ∈ sigs → x < C → Φ x (Reg (AnyOnAbort C sigs) false);
  mk_follow : ∀ C p, p < C → Φ p (Reg (FollowOnAbort C p) true);
  mk_lifecycle : ∀ id sig cb, Φ sig (Reg (LifecycleListener id sig cb) true)
}.

Lemma all_regs_step Φ st o :
  made_ok Φ → inv st → all_regs Φ st → all_regs Φ (step st o).
Proof.
  intros [Hany Hfol Hlif] Hinv Ho. pose proof Hinv as [Hh Hr].
  pose proof (inv_listeners _ Hh) as Hwf.
  destruct o as [|c r|h ms|sigs|t s cb|p|t n| |dt|id|t n ev strict|t];
    cbn [step].
  - apply (all_regs_signals Φ (new_controller st).1); [done|].
    eapply all_regs_calm with (n := 0) (N := no_new);
      [apply calm_new_controller|by intros ? ? []|done].
  - destruct (bool_decide (c ∈ owned st)); [|done].
    eapply all_regs_sub; [|done].
    apply (fr_sub _ _ (cs_frame _ _ _ _ (abort_cascade st c r Hwf))).
  - apply (all_regs_signals Φ (new_controller st).1); [done|].
    eapply all_regs_calm with (n := 0) (N := no_new);
      [apply calm_new_controller|by intros ? ? []|done].
  - destruct (bool_decide (Forall (exists_signal st) sigs)) eqn:Hex; [|done].
    apply bool_decide_eq_true in Hex.
    eapply all_regs_calm; [by apply any_calm| |done].
    intros x reg [-> Hx]. apply Hany; [done|].
    rewrite Forall_forall in Hex. by apply Hex.
  - destruct (bool_decide (exists_signal st s)); [|done].
    destruct (manageLifecycle_split st t s cb) as (H1 & _).
    apply (all_regs_signals Φ (manageLifecycle_heap st s cb)); [done|].
    eapply all_regs_calm with (n := 0); [apply manageLifecycle_calm| |done].
    intros x reg [-> ->]. apply Hlif.
  - destruct (bool_decide (exists_signal st p)) eqn:Hp; [|done].
    apply bool_decide_eq_true in Hp.
    pose proof (follow_calm st p) as Hcalm.
    destruct (follow st p) as [st1 c]. simpl in Hcalm.
    apply (all_regs_signals Φ st1); [done|].
    eapply all_regs_calm; [apply Hcalm| |done].
    intros x reg [-> ->]. by apply Hfol.
  - apply (all_regs_signals Φ (new_controller st).1); [done|].
    eapply all_regs_calm with (n := 0) (N := no_new);
      [apply calm_new_controller|by intros ? ? []|done].
  - unfold never. destruct (neverSignal st); [done|].
    apply (all_regs_signals Φ (new_controller st).1); [done|].
    eapply all_regs_calm with (n := 0) (N := no_new);
      [apply calm_new_controller|by intros ? ? []|done].
  - by apply (all_regs_signals Φ st).
  - destruct (run_timer_evolve id st Hwf) as (st0 & H1 & _ & _ & _ & H5).
    eapply all_regs_sub; [|apply (all_regs_signals Φ st st0 H1 Ho)].
    apply (fr_sub _ _ (ev_frame _ _ _ H5)).
  - destruct (dispatch_evolve t n ev strict st Hwf)
      as (st0 & H1 & _ & _ & _ & _ & _ & _ & _ & _ & _ & H5 & _).
    eapply all_regs_sub; [|apply (all_regs_signals Φ st st0 H1 Ho)].
    apply (fr_sub _ _ (ev_frame _ _ _ H5)).
  - by apply (all_regs_signals Φ st).
Qed.

Lemma all_regs_run Φ tr : ∀ st,
  made_ok Φ → inv st → all_regs Φ st → all_regs Φ (run st tr).
Proof.
  induction tr as [|o tr IH]; intros st Hm Hinv Ho; simpl; [done|].
  apply IH; [done|by apply inv_step|by apply all_regs_step].
Qed.

Lemma all_regs_init Φ : all_regs Φ init_state.
Proof. intros x reg Hin. by apply elem_of_nil in Hin. Qed.

Lemma ordered_all_regs st :
  ordered st ↔
  all_regs (λ x reg, ∀ k, ctrl (callback reg) = Some k → x < k) st.
Proof.
  split.
  - intros Ho x reg Hin k Hk. apply (Ho x (callback reg)); [|done].
    apply registered_iff. eauto.
  - intros Ha x l k Hr Hl. apply registered_iff in Hr as (reg & Hin & <-).
    by apply (Ha x reg).
Qed.

Lemma ordered_init : ordered init_state.
Proof. apply ordered_all_regs, all_regs_init. Qed.

Lemma ordered_step st o : inv st → ordered st → ordered (step st o).
Proof.
  intros Hinv Ho. apply ordered_all_regs. apply all_regs_step; [|done|].
  - split.
    + by intros C sigs x _ Hx k [= <-].
    + by intros C p Hp k [= <-].
    + by intros id sig cb k.
  - by apply ordered_all_regs.
Qed.

Lemma ordered_run tr : ∀ st, inv st → ordered st → ordered (run st tr).
Proof.
  induction tr as [|o tr IH]; intros st Hinv Ho; simpl; [done|].
  apply IH; [by apply inv_step|by apply ordered_step].
Qed.

(** A signal that becomes aborted during an operation is not older than
    a controller the operation itself aborts. *)
Lemma step_downstream st o :
  inv st → ordered st →
  ∀ x, x < length (signals st) → newly st (step st o) x →
       ∃ k R, direct st o k R ∧ k ≤ x.
Proof.
  intros Hinv Hord x. induction x as [x IH] using lt_wf_ind. intros Hlt Hn.
  destruct (ad_cause _ _ _ (step_adv st o Hinv) x Hlt Hn)
    as [HD|(y & l & Hr & Hl & Hy & _)].
  - exists x, (reason_of (step st o) x). done.
  - pose proof (Hord y l x Hr Hl) as Hyx.
    destruct (IH y) as (k & R & HD & Hk); [lia|lia|done|].
    exists k, R. split; [done|lia].
Qed.

(** * Listeners that [abort] does not remove

    [controller.abort] removes the [once] listeners of the signals that
    become aborted, and [cleanup] removes the listener of [any]; every
    other registration stays. *)

Definition not_any (l : listener) : Prop :=
  match l with AnyOnAbort _ _ => False | _ => True end.

Record kept (st st' : state) : Prop := Kept {
  kp_frame : frame st st';
  kp_keep : ∀ x l, registered st x l → not_any l →
    is_aborted st' x = false → registered st' x l
}.

Lemma kept_refl st : kept st st.
Proof. split; [apply frame_refl|auto]. Qed.

Lemma kept_trans st1 st2 st3 : kept st1 st2 → kept st2 st3 → kept st1 st3.
Proof.
  intros [Hf1 Hk1] [Hf2 Hk2]. split; [by eapply frame_trans|].
  intros x l Hr Hl Hx. apply Hk2; [|done|done]. apply Hk1; [done|done|].
  by eapply frame_not_aborted.
Qed.

Lemma kept_signals st st' :
  frame st st' → signals st' = signals st → kept st st'.
Proof.
  intros Hf Hs. split; [done|]. intros x l Hr _ _.
  by apply (registered_signals st st').
Qed.

Lemma kept_remove this l st :
  is_aborted st this = true → kept st (removeEventListener this l st).
Proof.
  intros Hthis. split; [apply frame_remove|].
  intros x l' Hr _ Hx. apply registered_remove. split; [done|].
  intros [-> _]. rewrite is_aborted_remove in Hx. congruence.
Qed.

Lemma kept_cleanup c arr st : kept st (any_cleanup (AnyOnAbort c arr) arr st).
Proof.
  pose proof (quiet_cleanup (AnyOnAbort c arr) arr st) as Hq.
  split; [apply Hq|]. intros x l Hr Hl _.
  apply (qt_keep _ _ _ Hq); [|done]. by intros ->.
Qed.

Lemma kept_mark c R st :
  is_aborted st c = false → kept st (mark_aborted c R st).
Proof.
  intros Hc. split; [by apply frame_mark|].
  intros x l Hr _ _. by apply registered_mark.
Qed.

Lemma fire_kept (ab : state → sigid → value → option state) this :
  (∀ st c r st', ab st c r = Some st' → kept st st') →
  ∀ snapshot st st', is_aborted st this = true →
    fire ab this snapshot st = Some st' → kept st st'.
Proof.
  intros Hab. induction snapshot as [|[l o] rest IH]; intros st st' Hthis; simpl.
  - intros [= <-]. apply kept_refl.
  - destruct (has_listener st this l); [|by apply IH].
    assert (H1 : kept st (if o then removeEventListener this l st else st)).
    { destruct o; [by apply kept_remove|apply kept_refl]. }
    revert H1. generalize (if o then removeEventListener this l st else st).
    intros st1 H1.
    destruct (invoke ab this l st1) as [st2|] eqn:Hi; [|done]. simpl.
    intros Hf.
    assert (H2 : kept st1 st2).
    { destruct l as [ctl arr|id sig cb|ctl p]; simpl in Hi.
      - destruct (ab st1 ctl (reason_of st1 this)) as [s|] eqn:E; [|done].
        simpl in Hi. injection Hi as <-.
        eapply kept_trans; [by eapply Hab|apply kept_cleanup].
      - injection Hi as <-.
        apply kept_signals; [apply frame_record_call|done].
      - by eapply Hab. }
    eapply kept_trans; [exact H1|]. eapply kept_trans; [exact H2|].
    apply IH; [|done].
    eapply frame_aborted; [|done].
    eapply frame_trans; [apply H1|apply H2].
Qed.

Lemma abort_fuel_kept fuel : ∀ st c r st',
  abort_fuel fuel st c r = Some st' → kept st st'.
Proof.
  induction fuel as [|f IH]; intros st c r st'; simpl; [done|].
  destruct (signals st !! c) as [sg|] eqn:Hl;
    [|intros [= <-]; apply kept_refl].
  destruct (aborted sg) eqn:Ha; [intros [= <-]; apply kept_refl|].
  pose proof (abort_reason_signals st r) as Hs.
  pose proof (frame_abort_reason st r) as Hfr.
  destruct (abort_reason st r) as [st1 R]. simpl in Hs, Hfr. intros Hf.
  assert (Hc : is_aborted st1 c = false).
  { unfold is_aborted. by rewrite Hs, Hl. }
  eapply kept_trans; [by apply kept_signals|].
  eapply kept_trans; [by apply (kept_mark c R)|].
  eapply fire_kept; [apply IH| |exact Hf].
  apply is_aborted_mark_eq. rewrite Hs. by eapply lookup_lt_Some.
Qed.

Lemma abort_kept st c r : kept st (abort st c r).
Proof.
  unfold abort. destruct (abort_fuel _ st c r) eqn:E; simpl.
  - by eapply abort_fuel_kept.
  - apply kept_refl.
Qed.

Lemma foldl_abort_kept {A} (f : A → sigid) r (hs : list A) : ∀ st,
  kept st (foldl (λ cur h, abort cur (f h) r) st hs).
Proof.
  induction hs as [|h hs IH]; intros st; simpl; [apply kept_refl|].
  eapply kept_trans; [apply abort_kept|apply IH].
Qed.

(** A listener of [follow] stays on its signal through every operation
    that does not abort this signal. *)
Lemma step_keeps_follow st o x c p :
  inv st → registered st x (FollowOnAbort c p) →
  is_aborted (step st o) x = false →
  registered (step st o) x (FollowOnAbort c p).
Proof.
  intros Hinv Hr. pose proof Hinv as [Hh Hrg].
  destruct (decide (constructs o = true)) as [Hc|Hc].
  { intros _. apply registered_iff in Hr as (reg & Hin & Hcb).
    apply registered_iff. exists reg. split; [|done].
    by apply (ut_listeners _ _ (step_untouched st o Hc)). }
  destruct o as [|k r|h ms|sigs|t s cb|p'|t n| |dt|id|t n ev strict|t];
    try (by destruct Hc); cbn [step].
  - intros _. apply (registered_signals (new_controller st).1); [done|].
    unfold registered. by rewrite (proj2 (proj2 (new_controller_view st))).
  - destruct (bool_decide (k ∈ owned st)); [|done].
    intros Hx. by apply (kp_keep _ _ (abort_kept st k r)).
  - intros _. by apply (registered_signals st).
  - unfold run_timer.
    destruct (filter (λ t, tm_id t = id) (timers st)) as [|t ts]; [done|].
    destruct (bool_decide (tm_due t ≤ now st)%Z); [|done].
    unfold timeout_callback. intros Hx.
    apply (kp_keep _ _ (abort_kept _ _ _)); [|done|done].
    by apply (registered_signals st).
  - unfold dispatchEvent. intros Hx.
    apply (kp_keep _ _ (foldl_abort_kept h_controller ev _ _)); [|done|done].
    apply (registered_signals st); [|done]. by destruct strict.
  - intros _. by apply (registered_signals st).
Qed.

Lemma run_keeps_follow tr : ∀ st x c p,
  inv st → registered st x (FollowOnAbort c p) →
  is_aborted (run st tr) x = false →
  registered (run st tr) x (FollowOnAbort c p).
Proof.
  induction tr as [|o tr IH]; intros st x c p Hinv Hr Hx; simpl; [done|].
  assert (Hinv' : inv (step st o)) by (by apply inv_step).
  apply IH; [done| |done].
  apply step_keeps_follow; [done|done|].
  destruct (is_aborted (step st o) x) eqn:E; [|done].
  destruct (run_mono tr _ x Hinv' E) as [Hm _]. simpl in Hx. congruence.
Qed.

(** X8. [follow(parent)] with a parent that is not aborted: when the caller
    aborts the returned controller, with a reason or without one (the
    reason is then a new "AbortError"), the parent is not aborted by it,
    and the listener of [follow] is still registered on the parent; it
    stays there as long as the parent is not aborted. *)
Theorem follow_child_abort_leaves_parent (tr1 tr2 : list op) (p : sigid)
    (r : value) :
  exists_signal (run init_state tr1) p →
  forallb (λ o, negb (aborts (follow (run init_state tr1) p).2 o)) tr2 = true →
  is_aborted (run (hand_over (follow (run init_state tr1) p).2
                             (follow (run init_state tr1) p).1) tr2) p
  = false →
  let st := run init_state tr1 in
  let st1 := (follow st p).1 in
  let c := (follow st p).2 in
  let st2 := run (hand_over c st1) tr2 in
  let st3 := step st2 (OpAbort c r) in
  (is_aborted st3 c = true ∧ reason_of st3 c = (abort_reason st2 r).2)
  ∧ is_aborted st3 p = false
  ∧ (∀ tr3, is_aborted (run st3 tr3) p = false →
            registered (run st3 tr3) p (FollowOnAbort c p)).
Proof.
  intros Hp Hok Hpa st st1 c st2 st3.
  assert (Hinv : inv st) by apply inv_run, inv_init.
  assert (Hord : ordered st).
  { apply ordered_run; [apply inv_init|apply ordered_init]. }
  assert (Hc : c = length (signals st)) by apply follow_result.
  fold st st1 c st2 in Hpa. fold st in Hok. fold c in Hok.
  clearbody c. subst c.
  assert (Hstep : step st (OpFollow p) = hand_over (length (signals st)) st1).
  { cbn [step]. rewrite bool_decide_eq_true_2 by done.
    pose proof (follow_result st p) as Hres. unfold st1.
    destruct (follow st p) as [s1 c1]. simpl in *. by subst c1. }
  assert (Hinv1 : inv (hand_over (length (signals st)) st1)).
  { rewrite <- Hstep. by apply inv_step. }
  assert (Hord1 : ordered (hand_over (length (signals st)) st1)).
  { rewrite <- Hstep. by apply ordered_step. }
  assert (Ha : is_aborted st p = false).
  { destruct (is_aborted st p) eqn:E; [|done].
    pose proof (step_mono st (OpFollow p) p Hinv E) as [Hm _].
    rewrite Hstep in Hm.
    destruct (run_mono tr2 _ p Hinv1 Hm) as [Hm2 _]. fold st2 in Hm2.
    congruence. }
  pose proof (follow_inv_run st p Hinv Hp tr2 Ha Hok) as Hfi.
  unfold follow_inv in Hfi. fold st1 st2 in Hfi.
  destruct Hfi as (Hlt & _ & Hcase).
  assert (Hinv2 : inv st2) by by apply inv_run.
  assert (Hord2 : ordered st2) by by apply ordered_run.
  assert (Hinv3 : inv st3) by by apply inv_step.
  assert (Hown : length (signals st) ∈ owned st2).
  { apply owned_run; [done|]. by left. }
  destruct Hcase as [(Hca & _ & Hreg)|(_ & ? & _)]; [|congruence].
  assert (H3 : is_aborted st3 (length (signals st)) = true
               ∧ reason_of st3 (length (signals st)) = (abort_reason st2 r).2).
  { unfold st3. cbn [step]. rewrite bool_decide_eq_true_2 by done.
    destruct Hinv2 as [Hh2 _].
    pose proof (abort_cascade st2 (length (signals st)) r
                  (inv_listeners _ Hh2)) as Hcs.
    pose proof (cs_done _ _ _ _ Hcs Hlt) as Hd. split; [done|].
    by destruct (cs_effect _ _ _ _ Hcs _ (conj Hca Hd)) as [-> _]. }
  assert (Hp3 : is_aborted st3 p = false).
  { destruct (is_aborted st3 p) eqn:E; [|done]. exfalso.
    pose proof Hp as Hp'. fold st in Hp'. unfold exists_signal in Hp'.
    destruct (step_downstream st2 (OpAbort (length (signals st)) r)
                Hinv2 Hord2 p) as (k & R & (Hk0 & _) & Hk); [lia|done|lia]. }
  split_and!; try done; try apply H3.
  intros tr3 Hp4. apply run_keeps_follow; [done| |done].
  by apply step_keeps_follow.
Qed.

Lemma follow_child_abort_leaves_parent_witness :
  let st := run init_state [OpNewController] in
  let st1 := (follow st 0).1 in
  let c := (follow st 0).2 in
  let st2 := run (hand_over c st1) [OpAdvance 3] in
  let st3 := step st2 (OpAbort c VUndefined) in
  (is_aborted st3 c = true ∧ reason_of st3 c = (abort_reason st2 VUndefined).2)
  ∧ is_aborted st3 0 = false
  ∧ (∀ tr3, is_aborted (run st3 tr3) 0 = false →
            registered (run st3 tr3) 0 (FollowOnAbort c 0)).
Proof.
  apply (follow_child_abort_leaves_parent [OpNewController] [OpAdvance 3]
           0 VUndefined).
  - vm_compute. lia.
  - reflexivity.
  - reflexivity.
Defined.

(** * Chains of [follow] *)

Lemma step_follow st p :
  exists_signal st p →
  step st (OpFollow p) = hand_over (length (signals st)) (follow st p).1.
Proof.
  intros Hp. cbn [step]. rewrite bool_decide_eq_true_2 by done.
  pose proof (follow_result st p) as Hres.
  destruct (follow st p) as [s1 c1]. simpl in *. by subst c1.
Qed.

(** The child of [follow] mirrors the parent as long as the caller does not
    abort it, whether or not the parent is aborted at the call. *)
Lemma follow_mirror st p tr :
  inv st → exists_signal st p →
  forallb (λ o, negb (aborts (length (signals st)) o)) tr = true →
  is_aborted (run (hand_over (length (signals st)) (follow st p).1) tr)
             (length (signals st))
  = is_aborted (run (hand_over (length (signals st)) (follow st p).1) tr) p
  ∧ (is_aborted (run (hand_over (length (signals st)) (follow st p).1) tr) p
     = true →
     reason_of (run (hand_over (length (signals st)) (follow st p).1) tr)
               (length (signals st))
     = reason_of (run (hand_over (length (signals st)) (follow st p).1) tr) p).
Proof.
  intros Hinv Hp Hok.
  assert (Hinv1 : inv (hand_over (length (signals st)) (follow st p).1)).
  { rewrite <- step_follow by done. by apply inv_step. }
  destruct (is_aborted st p) eqn:Ha.
  - destruct (follow_pre_aborted st p Hinv Ha) as [Hc HR].
    pose proof (step_mono st (OpFollow p) p Hinv Ha) as [Hp1 HRp].
    rewrite step_follow in Hp1, HRp by done.
    destruct (run_mono tr _ (length (signals st)) Hinv1 Hc) as [Hc2 HRc2].
    destruct (run_mono tr _ p Hinv1 Hp1) as [Hp2 HRp2].
    split; [congruence|]. intros _.
    rewrite HRc2, HRp2, HRp.
    change (reason_of (hand_over (length (signals st)) (follow st p).1)
                      (length (signals st)))
      with (reason_of (follow st p).1 (length (signals st))). done.
  - destruct (follow_inv_run st p Hinv Hp tr Ha Hok) as (_ & _ & Hcase).
    destruct Hcase as [(-> & -> & _)|(-> & -> & ->)]; done.
Qed.

(** X9. A chain [follow(follow(parent).signal)]: as long as the caller
    aborts neither of the two controllers itself, the signal at the end of
    the chain is aborted exactly when the parent is, with the parent's
    reason. *)
Theorem follow_chain (tr1 tr2 : list op) (p : sigid) :
  exists_signal (run init_state tr1) p →
  forallb (λ o, negb (aborts (follow (run init_state tr1) p).2 o)) tr2 = true →
  forallb (λ o, negb (aborts (S (follow (run init_state tr1) p).2) o)) tr2
  = true →
  let st := run init_state tr1 in
  let c1 := (follow st p).2 in
  let st1 := hand_over c1 (follow st p).1 in
  let c2 := (follow st1 c1).2 in
  let st2 := hand_over c2 (follow st1 c1).1 in
  let st3 := run st2 tr2 in
  c2 = S c1
  ∧ is_aborted st3 c2 = is_aborted st3 p
  ∧ (is_aborted st3 p = true → reason_of st3 c2 = reason_of st3 p).
Proof.
  intros Hp Hok1 Hok2 st c1 st1 c2 st2 st3.
  assert (Hinv : inv st) by apply inv_run, inv_init.
  assert (Hc1 : c1 = length (signals st)) by apply follow_result.
  fold st in Hp, Hok1, Hok2. fold c1 in Hok1, Hok2.
  clearbody c1. subst c1.
  assert (Hinv1 : inv st1).
  { unfold st1. rewrite <- step_follow by done. by apply inv_step. }
  assert (Hlen1 : length (signals st1) = S (length (signals st))).
  { apply (follow_length st p). }
  assert (Hc2 : c2 = S (length (signals st))).
  { unfold c2. by rewrite follow_result. }
  clearbody c2. subst c2.
  assert (Hex1 : exists_signal st1 (length (signals st))).
  { unfold exists_signal. rewrite Hlen1. lia. }
  assert (Hst2 : st2 = step st1 (OpFollow (length (signals st)))).
  { rewrite step_follow by done. unfold st2. by rewrite Hlen1. }
  destruct (follow_mirror st p (OpFollow (length (signals st)) :: tr2) Hinv Hp)
    as [Ha1 HR1]; [done|].
  rewrite run_cons in Ha1, HR1. fold st1 in Ha1, HR1.
  rewrite <- Hst2 in Ha1, HR1. fold st3 in Ha1, HR1.
  destruct (follow_mirror st1 (length (signals st)) tr2 Hinv1 Hex1)
    as [Ha2 HR2]; [by rewrite Hlen1|].
  rewrite Hlen1 in Ha2, HR2. fold st2 st3 in Ha2, HR2.
  split; [done|]. split; [congruence|].
  intros Hpa. rewrite HR2 by congruence. by apply HR1.
Qed.

Lemma follow_chain_witness :
  let st := run init_state [OpNewController] in
  let c1 := (follow st 0).2 in
  let st1 := hand_over c1 (follow st 0).1 in
  let c2 := (follow st1 c1).2 in
  let st2 := hand_over c2 (follow st1 c1).1 in
  let st3 := run st2 [OpAbort 0 (VStr "Parent Aborted")] in
  c2 = S c1
  ∧ is_aborted st3 c2 = is_aborted st3 0
  ∧ (is_aborted st3 0 = true → reason_of st3 c2 = reason_of st3 0).
Proof.
  apply (follow_chain [OpNewController] [OpAbort 0 (VStr "Parent Aborted")] 0).
  - vm_compute. lia.
  - reflexivity.
  - reflexivity.
Defined.

(** * A click or a timeout, whichever comes first

    The example of the README:
    [Abort.any([Abort.fromEvent(target, name), Abort.timeout(d)])]. *)

Lemma now_dispatch tg n ev strict st :
  inv st → now (step st (OpDispatch tg n ev strict)) = now st.
Proof.
  intros [Hh _]. cbn [step].
  destruct (dispatch_evolve tg n ev strict st (inv_listeners _ Hh))
    as (st0 & _ & _ & _ & H4 & _ & _ & _ & _ & _ & _ & H5 & _).
  by rewrite (fr_now _ _ (ev_frame _ _ _ H5)).
Qed.

(** X10. For an integral [d] with [1 <= d <= 2^31 - 1], on either host,
    let [c] be the output of
    [any([fromEvent(target, name), timeout(d)])]. As long as the event has
    not been delivered and the clock has not advanced by [d] milliseconds,
    [c] is not aborted. If the event is then delivered first, [c] is
    aborted with the event as reason; if the timer runs first, [c] is
    aborted with the [TimeoutError]; in both cases it keeps this reason
    whatever happens afterwards. *)
Theorem click_or_timeout (h : host) (tr1 tr2 : list op) (tg : objid)
    (n : string) (d : number) (ev : value) (strict : bool) :
  (1 ≤ num_val d ≤ 2147483647)%Z →
  forallb (λ o, negb (dispatches tg n o)) tr2 = true →
  ev ≠ VUndefined →
  let st := run init_state tr1 in
  let sa := (fromEvent st tg n).1 in
  let u := (fromEvent st tg n).2 in
  let sb := (timeout sa h d).1 in
  let t := (timeout sa h d).2 in
  let sc := (any sb [u; t]).1 in
  let c := (any sb [u; t]).2 in
  let st2 := run sc tr2 in
  ((now st2 < now st + num_val d)%Z → is_aborted st2 c = false)
  ∧ ((now st2 < now st + num_val d)%Z →
     ∀ tr3, let st3 := run (step st2 (OpDispatch tg n ev strict)) tr3 in
            is_aborted st3 c = true ∧ reason_of st3 c = ev)
  ∧ ((now st + num_val d ≤ now st2)%Z →
     ∀ tr3, let st3 := run (step st2 (OpRunTimer (next_id st))) tr3 in
            is_aborted st3 c = true
            ∧ ∃ o, reason_of st3 c =
                   VError o "TimeoutError"%string
                     ("Signal timed out after " +:+ pretty (num_val d) +:+ "ms")%string).
Proof.
  intros Hd Hok Hev st sa u sb t sc c st2.
  pose proof (delay_in_range h d Hd) as Hdel.
  assert (Hinv : inv st) by apply inv_run, inv_init.
  assert (Hinva : inv sa) by apply (inv_step st (OpFromEvent tg n) Hinv).
  assert (Hinvb : inv sb) by apply (inv_step sa (OpTimeout h d) Hinva).
  assert (Hla : length (signals sa) = S (length (signals st)))
    by apply length_new_controller.
  assert (Hlb : length (signals sb) = S (length (signals sa)))
    by apply length_new_controller.
  assert (Hu : u = length (signals st)) by done.
  assert (Ht : t = length (signals sa)) by done.
  assert (Hex : Forall (exists_signal sb) [u; t]).
  { unfold exists_signal. repeat constructor; lia. }
  assert (Hinvc : inv sc) by (by apply inv_any).
  assert (Hinv2 : inv st2) by (by apply inv_run).
  assert (Hsc : step sb (OpAny [u; t]) = sc).
  { cbn [step]. by rewrite bool_decide_eq_true_2. }
  (* the three invariants at any state reached from [sc] *)
  assert (HU : ∀ tr, forallb (λ o, negb (dispatches tg n o)) tr = true →
                     fromEvent_inv st tg n (run sc tr)).
  { intros tr Htr.
    pose proof (fromEvent_inv_run st tg n Hinv
                  (OpTimeout h d :: OpAny [u; t] :: tr) Htr) as H.
    rewrite !run_cons in H. fold sa in H.
    change (step sa (OpTimeout h d)) with sb in H. by rewrite Hsc in H. }
  assert (HT : ∀ tr, timeout_inv sa h d (run sc tr)).
  { intros tr.
    pose proof (timeout_inv_run sa h d Hinva (OpAny [u; t] :: tr)) as H.
    rewrite run_cons in H. fold sb in H. by rewrite Hsc in H. }
  assert (HA : ∀ tr,
    (is_aborted (run sc tr) c = true →
     ∃ y, y ∈ [u; t] ∧ is_aborted (run sc tr) y = true
          ∧ reason_of (run sc tr) c = reason_of (run sc tr) y)
    ∧ (∀ y, y ∈ [u; t] → is_aborted (run sc tr) y = true →
            is_aborted (run sc tr) c = true)).
  { intros tr. apply (any_mirror sb [u; t] tr Hinvb Hex). }
  assert (Hnow : now sa = now st) by done.
  destruct (HU tr2 Hok) as (_ & _ & _ & Hu2). fold st2 in Hu2.
  change (length (signals st)) with u in Hu2.
  pose proof (HT tr2) as (_ & _ & Ht2). fold st2 in Ht2.
  change (length (signals sa)) with t in Ht2. rewrite Hnow in Ht2.
  split_and!.
  - intros Hlt. destruct (is_aborted st2 c) eqn:Ec; [|done].
    destruct (proj1 (HA tr2) Ec) as (y & Hy & Hya & _). fold st2 in Hya.
    destruct Ht2 as [[_ Ht2]|(_ & ? & _)]; [|lia].
    apply elem_of_cons in Hy as [->|Hy]; [congruence|].
    apply list_elem_of_singleton in Hy as ->. congruence.
  - intros Hlt tr3 st3. subst st3.
    set (s3 := step st2 (OpDispatch tg n ev strict)).
    assert (Hinv3 : inv s3) by (by apply inv_step).
    assert (Hs3 : s3 = run sc (tr2 ++ [OpDispatch tg n ev strict])).
    { by rewrite run_snoc. }
    destruct (fromEvent_dispatch st tg n st2 ev strict Hinv2 (HU tr2 Hok) Hev)
      as [Hu3 HRu3]. fold s3 in Hu3, HRu3.
    change (length (signals st)) with u in Hu3, HRu3.
    assert (Ht3 : is_aborted s3 t = false).
    { pose proof (HT (tr2 ++ [OpDispatch tg n ev strict])) as (_ & _ & H).
      rewrite <- Hs3 in H. change (length (signals sa)) with t in H.
      destruct H as [[_ ?]|(_ & H & _)]; [done|].
      unfold s3 in H. rewrite now_dispatch in H by done. lia. }
    destruct (HA (tr2 ++ [OpDispatch tg n ev strict])) as [H1 H2].
    rewrite <- Hs3 in H1, H2.
    assert (Hc3 : is_aborted s3 c = true) by (apply (H2 u); [by left|done]).
    assert (HRc3 : reason_of s3 c = ev).
    { destruct (H1 Hc3) as (y & Hy & Hya & HR).
      apply elem_of_cons in Hy as [->|Hy]; [congruence|].
      apply list_elem_of_singleton in Hy as ->. congruence. }
    destruct (run_mono tr3 s3 c Hinv3 Hc3) as [Hm HRm].
    split; congruence.
  - intros Hge tr3 st3. subst st3.
    set (s3 := step st2 (OpRunTimer (next_id st))).
    assert (Hinv3 : inv s3) by (by apply inv_step).
    assert (Hs3 : s3 = run sc (tr2 ++ [OpRunTimer (next_id st)])).
    { by rewrite run_snoc. }
    assert (Hu3 : is_aborted s3 u = false).
    { destruct (HU (tr2 ++ [OpRunTimer (next_id st)])) as (_ & _ & _ & H).
      - rewrite forallb_app, Hok. done.
      - by rewrite <- Hs3 in H. }
    assert (Ht3 : is_aborted s3 t = true).
    { destruct Ht2 as [[Hin Ha]|(Ha & _)]; [|by apply step_mono].
      apply (fl_direct _ _ _ (step_fields st2 _ Hinv2) t
               (TimeoutError (next_id st2) (Some (timeout_message d)))).
      - exists (Timer (next_id st) (now st + delay h d) t d).
        split_and!; try done. simpl. lia.
      - pose proof (run_length tr2 sc Hinvc) as Hl. fold st2 in Hl.
        pose proof (any_length sb [u; t] Hex) as Hlc. fold sc in Hlc. lia. }
    assert (HRt3 : ∃ o, reason_of s3 t =
                        VError o "TimeoutError"%string (timeout_message d)).
    { pose proof (HT (tr2 ++ [OpRunTimer (next_id st)])) as (_ & _ & H).
      rewrite <- Hs3 in H. change (length (signals sa)) with t in H.
      destruct H as [[_ ?]|(_ & _ & H)]; [congruence|done]. }
    destruct (HA (tr2 ++ [OpRunTimer (next_id st)])) as [H1 H2].
    rewrite <- Hs3 in H1, H2.
    assert (Hc3 : is_aborted s3 c = true)
      by (apply (H2 t); [right; by left|done]).
    assert (HRc3 : reason_of s3 c = reason_of s3 t).
    { destruct (H1 Hc3) as (y & Hy & Hya & HR).
      apply elem_of_cons in Hy as [->|Hy]; [congruence|].
      by apply list_elem_of_singleton in Hy as ->. }
    destruct (run_mono tr3 s3 c Hinv3 Hc3) as [Hm HRm].
    split; [done|].
    destruct HRt3 as [o Ho]. exists o. by rewrite HRm, HRc3.
Qed.

Lemma click_or_timeout_witness :
  let st := run init_state [] in
  let sa := (fromEvent st 1 "click").1 in
  let u := (fromEvent st 1 "click").2 in
  let sb := (timeout sa Browser (Number 50 eq_refl)).1 in
  let t := (timeout sa Browser (Number 50 eq_refl)).2 in
  let sc := (any sb [u; t]).1 in
  let c := (any sb [u; t]).2 in
  let st2 := run sc [OpAdvance 10] in
  ((now st2 < now st + 50)%Z → is_aborted st2 c = false)
  ∧ ((now st2 < now st + 50)%Z →
     ∀ tr3, let st3 := run (step st2 (OpDispatch 1 "click" (VObj 7) true)) tr3 in
            is_aborted st3 c = true ∧ reason_of st3 c = VObj 7)
  ∧ ((now st + 50 ≤ now st2)%Z →
     ∀ tr3, let st3 := run (step st2 (OpRunTimer (next_id st))) tr3 in
            is_aborted st3 c = true
            ∧ ∃ o, reason_of st3 c =
                   VError o "TimeoutError"%string
                     ("Signal timed out after " +:+ pretty 50%Z +:+ "ms")%string).
Proof.
  apply (click_or_timeout Browser [] [OpAdvance 10] 1 "click"
           (Number 50 eq_refl) (VObj 7) true).
  - simpl. lia.
  - reflexivity.
  - discriminate.
Defined.

(** * More on [manageLifecycle] *)

(** The registration with the symbol [id] is over: no listener carries the
    symbol any more, and the calls made through it are [cs], for good. *)
Definition lifecycle_over (id : nat) (cs : list call) (s' : state) : Prop :=
  id < next_id s'
  ∧ (∀ x reg, reg ∈ listeners_of s' x → lid (callback reg) ≠ Some id)
  ∧ calls_via id s' = cs.

Lemma lifecycle_over_step id cs s' o :
  inv s' → lifecycle_over id cs s' → lifecycle_over id cs (step s' o).
Proof.
  intros Hi (Hid & Hno & Hc).
  pose proof (step_next s' o Hi) as Hn.
  pose proof (step_adv s' o Hi) as Had.
  split_and!; [lia| |].
  - intros x reg Hin Hl.
    destruct (ad_fresh _ _ _ Had x reg Hin) as [Hold|[_ Hf]].
    + by apply (Hno x reg).
    + specialize (Hf id Hl). lia.
  - destruct (ad_calls _ _ _ Had id 0 0) as [_ Hmiss].
    { intros x reg Hin Hl. by apply Hno in Hin. }
    rewrite Hmiss; [done|].
    intros [_ Hr]. apply registered_iff in Hr as (reg & Hin & Hcb).
    apply (Hno _ _ Hin). by rewrite Hcb.
Qed.

Lemma lifecycle_over_run id cs tr : ∀ s',
  inv s' → lifecycle_over id cs s' → lifecycle_over id cs (run s' tr).
Proof.
  induction tr as [|o tr IH]; intros s' Hi Hd; simpl; [done|].
  apply IH; [by apply inv_step|by apply lifecycle_over_step].
Qed.



(** X12. Two calls of [manageLifecycle] on the same signal, not aborted,
    make two registrations, also when they are given the same host object
    and the same callback: as long as no host is finalized, the callback
    of each registration is invoked exactly once when the signal aborts,
    with the reason of the signal. *)
Theorem manageLifecycle_twice (tr1 tr2 : list op) (t1 t2 : objid)
    (sig : sigid) (cb1 cb2 : cbid) :
  exists_signal (run init_state tr1) sig →
  is_aborted (run init_state tr1) sig = false →
  forallb (λ o, negb (finalizes t1 o)) tr2 = true →
  forallb (λ o, negb (finalizes t2 o)) tr2 = true →
  let st := run init_state tr1 in
  let id1 := next_id st in
  let st1 := manageLifecycle st t1 sig cb1 in
  let id2 := next_id st1 in
  let st2 := run (manageLifecycle st1 t2 sig cb2) tr2 in
  id2 = S id1
  ∧ calls_via id1 st2 =
    (if is_aborted st2 sig then [Call (Some id1) cb1 (reason_of st2 sig)]
     else [])
  ∧ calls_via id2 st2 =
    (if is_aborted st2 sig then [Call (Some id2) cb2 (reason_of st2 sig)]
     else []).
Proof.
  intros Hsig Ha Hok1 Hok2 st id1 st1 id2 st2.
  assert (Hinv : inv st) by apply inv_run, inv_init.
  assert (Hcf : calls_fresh st).
  { apply calls_fresh_run; [apply inv_init|done]. }
  fold st in Hsig, Ha.
  assert (Hstep : step st (OpManageLifecycle t1 sig cb1) = st1).
  { cbn [step]. by rewrite bool_decide_eq_true_2. }
  assert (Hinv1 : inv st1) by (by apply inv_manageLifecycle).
  assert (Hcf1 : calls_fresh st1).
  { rewrite <- Hstep. by apply calls_fresh_step. }
  assert (Hsig1 : exists_signal st1 sig).
  { pose proof (step_length st (OpManageLifecycle t1 sig cb1) Hinv) as Hl.
    rewrite Hstep in Hl. unfold exists_signal in *. lia. }
  assert (Ha1 : is_aborted st1 sig = false).
  { rewrite <- Hstep, <- Ha.
    by apply (ut_aborted _ _
                (step_untouched st (OpManageLifecycle t1 sig cb1) eq_refl)). }
  assert (Hid : id2 = S id1).
  { unfold id2, st1, manageLifecycle. rewrite Ha. simpl.
    unfold addEventListener. by destruct (has_listener _ _ _). }
  destruct (lifecycle_inv_run st t1 sig cb1 Hinv Hcf Hsig
              (OpManageLifecycle t2 sig cb2 :: tr2) Ha)
    as (_ & _ & Hc1).
  rewrite run_cons in Hc1. fold st1 in Hc1. cbn [step] in Hc1.
  rewrite bool_decide_eq_true_2 in Hc1 by done. fold st2 id1 in Hc1.
  destruct (lifecycle_inv_run st1 t2 sig cb2 Hinv1 Hcf1 Hsig1 tr2 Ha1)
    as (_ & _ & Hc2).
  fold st2 id2 in Hc2.
  split; [done|].
  destruct Hc1 as [(E & _ & ->)|(E & _ & ->)];
    destruct Hc2 as [(E' & _ & ->)|(E' & _ & ->)]; try congruence.
  all: rewrite E; done.
Qed.

Lemma manageLifecycle_twice_witness :
  let st := run init_state [OpNewController] in
  let id1 := next_id st in
  let st1 := manageLifecycle st 7 0 9 in
  let id2 := next_id st1 in
  let st2 := run (manageLifecycle st1 7 0 9) [OpAbort 0 (VStr "Test Abort")] in
  id2 = S id1
  ∧ calls_via id1 st2 =
    (if is_aborted st2 0 then [Call (Some id1) 9 (reason_of st2 0)] else [])
  ∧ calls_via id2 st2 =
    (if is_aborted st2 0 then [Call (Some id2) 9 (reason_of st2 0)] else []).
Proof.
  apply (manageLifecycle_twice [OpNewController]
           [OpAbort 0 (VStr "Test Abort")] 7 7 0 9 9).
  - vm_compute. lia.
  - reflexivity.
  - reflexivity.
  - reflexivity.
Defined.

(** * [timeout] with a duration below one millisecond *)

(** X13. [timeout(d)] with an integral [d] between [-2^31] and 0, on either
    host: the signal is not aborted when the call returns; no host waits
    longer than one millisecond, so that the signal is aborted as soon as
    the scheduler runs the timer once the clock has advanced by one
    millisecond; and the message of the [TimeoutError] carries [d] as it
    was given, with its sign when it is negative. *)
Theorem timeout_below_one (h : host) (tr1 tr2 : list op) (d : number) :
  (- 2147483648 ≤ num_val d ≤ 0)%Z →
  let st := run init_state tr1 in
  let st1 := (timeout st h d).1 in
  let s := (timeout st h d).2 in
  let st2 := run st1 tr2 in
  is_aborted st1 s = false
  ∧ ((now st + 1 ≤ now st2)%Z →
     is_aborted (step st2 (OpRunTimer (next_id st))) s = true)
  ∧ (is_aborted st2 s = true →
     ∃ o, reason_of st2 s =
          VError o "TimeoutError"%string
                 ("Signal timed out after " +:+ pretty (num_val d) +:+ "ms")%string).
Proof.
  intros Hd st st1 s st2.
  pose proof (delay_below_one h d Hd) as Hdel.
  assert (Hinv : inv st) by apply inv_run, inv_init.
  assert (Hinv1 : inv st1) by apply (inv_step st (OpTimeout h d) Hinv).
  assert (Hinv2 : inv st2) by by apply inv_run.
  pose proof (timeout_inv_run st h d Hinv tr2) as (Hlt & Hcaps & H2).
  fold st1 st2 in Hlt, Hcaps, H2.
  change (length (signals st)) with s in *.
  split_and!.
  - change (is_aborted (new_controller st).1 (length (signals st)) = false).
    apply fresh_controller.
  - intros Hnow. destruct H2 as [[Hin Ha]|(Ha & _)]; [|by apply step_mono].
    apply (fl_direct _ _ _ (step_fields st2 _ Hinv2) s
             (TimeoutError (next_id st2) (Some (timeout_message d))));
      [|done].
    exists (Timer (next_id st) (now st + delay h d) s d).
    split_and!; try done. simpl. lia.
  - intros Ha. destruct H2 as [[_ ?]|(_ & _ & HR)]; [congruence|done].
Qed.

Lemma timeout_below_one_witness :
  let st := run init_state [] in
  let st1 := (timeout st Node (Number (-5) eq_refl)).1 in
  let s := (timeout st Node (Number (-5) eq_refl)).2 in
  let st2 := run st1 [OpAdvance 1] in
  is_aborted st1 s = false
  ∧ ((now st + 1 ≤ now st2)%Z →
     is_aborted (step st2 (OpRunTimer (next_id st))) s = true)
  ∧ (is_aborted st2 s = true →
     ∃ o, reason_of st2 s =
          VError o "TimeoutError"%string
                 ("Signal timed out after " +:+ pretty (-5)%Z +:+ "ms")%string).
Proof.
  apply (timeout_below_one Node [] [OpAdvance 1] (Number (-5) eq_refl)).
  simpl. lia.
Defined.

(** * [abort] returns *)

(** X14. In every state a program can reach, a call of [abort] returns: the
    listeners of [any] and [follow] make calls of [abort] nest, but never
    deeper than the number of signals that are not aborted yet. *)
Theorem abort_returns (tr : list op) (c : sigid) (r : value) (n : nat) :
  let st := run init_state tr in
  abort_fuel (S (live st) + n) st c r = Some (abort st c r)
  ∧ live (abort st c r) ≤ live st.
Proof.
  intros st.
  assert (Hinv : inv st) by apply inv_run, inv_init.
  destruct Hinv as [Hh _]. pose proof (inv_listeners _ Hh) as Hwf.
  split.
  - apply abort_fuel_enough; [done|lia].
  - apply (fr_live _ _ (cs_frame _ _ _ _ (abort_cascade st c r Hwf))).
Qed.

(** * Several [fromEvent] on one target *)

(** X15. Two calls of [fromEvent] for the same event of the same target
    give two signals; neither is aborted before the event is delivered,
    and one delivery aborts both, with the event as reason. *)
Theorem fromEvent_twice (tr1 tr2 : list op) (tg : objid) (n : string)
    (ev : value) (strict : bool) :
  forallb (λ o, negb (dispatches tg n o)) tr2 = true →
  ev ≠ VUndefined →
  let st := run init_state tr1 in
  let sa := (fromEvent st tg n).1 in
  let u1 := (fromEvent st tg n).2 in
  let sb := (fromEvent sa tg n).1 in
  let u2 := (fromEvent sa tg n).2 in
  let st2 := run sb tr2 in
  let st3 := step st2 (OpDispatch tg n ev strict) in
  u1 ≠ u2
  ∧ (is_aborted st2 u1 = false ∧ is_aborted st2 u2 = false)
  ∧ (is_aborted st3 u1 = true ∧ reason_of st3 u1 = ev)
  ∧ (is_aborted st3 u2 = true ∧ reason_of st3 u2 = ev).
Proof.
  intros Hok Hev st sa u1 sb u2 st2 st3.
  assert (Hinv : inv st) by apply inv_run, inv_init.
  assert (Hinva : inv sa) by apply (inv_step st (OpFromEvent tg n) Hinv).
  assert (Hinvb : inv sb) by apply (inv_step sa (OpFromEvent tg n) Hinva).
  assert (Hinv2 : inv st2) by (by apply inv_run).
  pose proof (fromEvent_inv_run st tg n Hinv (OpFromEvent tg n :: tr2) Hok)
    as H1.
  rewrite run_cons in H1. fold sa in H1.
  change (step sa (OpFromEvent tg n)) with sb in H1. fold st2 in H1.
  pose proof (fromEvent_inv_run sa tg n Hinva tr2 Hok) as H2.
  fold sb st2 in H2.
  destruct (fromEvent_dispatch st tg n st2 ev strict Hinv2 H1 Hev) as [A1 R1].
  destruct (fromEvent_dispatch sa tg n st2 ev strict Hinv2 H2 Hev) as [A2 R2].
  destruct H1 as (_ & _ & _ & N1). destruct H2 as (_ & _ & _ & N2).
  split_and!; try done.
  unfold u1, u2. simpl. rewrite length_app. simpl. lia.
Qed.

Lemma fromEvent_twice_witness :
  let st := run init_state [] in
  let sa := (fromEvent st 1 "click").1 in
  let u1 := (fromEvent st 1 "click").2 in
  let sb := (fromEvent sa 1 "click").1 in
  let u2 := (fromEvent sa 1 "click").2 in
  let st2 := run sb [OpAdvance 5] in
  let st3 := step st2 (OpDispatch 1 "click" (VObj 7) false) in
  u1 ≠ u2
  ∧ (is_aborted st2 u1 = false ∧ is_aborted st2 u2 = false)
  ∧ (is_aborted st3 u1 = true ∧ reason_of st3 u1 = VObj 7)
  ∧ (is_aborted st3 u2 = true ∧ reason_of st3 u2 = VObj 7).
Proof.
  apply (fromEvent_twice [] [OpAdvance 5] 1 "click" (VObj 7) false).
  - reflexivity.
  - discriminate.
Defined.

(** X16. [manageLifecycle] on a signal that is not aborted: once the signal
    has aborted before the host object was finalized, the callback has been
    invoked exactly once through this registration, and this stays so
    whatever happens afterwards, in particular when the host object is
    finalized later. *)
Theorem manageLifecycle_once_for_good (tr1 tr2 tr3 : list op) (t : objid)
    (sig : sigid) (cb : cbid) :
  exists_signal (run init_state tr1) sig →
  is_aborted (run init_state tr1) sig = false →
  forallb (λ o, negb (finalizes t o)) tr2 = true →
  is_aborted (run (manageLifecycle (run init_state tr1) t sig cb) tr2) sig
  = true →
  let st := run init_state tr1 in
  let id := next_id st in
  let st2 := run (manageLifecycle st t sig cb) tr2 in
  let st3 := run st2 tr3 in
  calls_via id st3 = [Call (Some id) cb (reason_of st2 sig)]
  ∧ reason_of st3 sig = reason_of st2 sig
  ∧ ¬ registered st3 sig (LifecycleListener id sig cb).
Proof.
  intros Hsig Ha Hok Ha2 st id st2 st3.
  assert (Hinv : inv st) by apply inv_run, inv_init.
  assert (Hcf : calls_fresh st).
  { apply calls_fresh_run; [apply inv_init|done]. }
  assert (Hinv1 : inv (manageLifecycle st t sig cb))
    by (by apply inv_manageLifecycle).
  assert (Hinv2 : inv st2) by (by apply inv_run).
  fold st in Hsig, Ha, Ha2. fold st2 in Ha2.
  destruct (lifecycle_inv_run st t sig cb Hinv Hcf Hsig tr2 Ha)
    as (Hid & Hex & Hcase).
  fold st2 id in Hid, Hex, Hcase.
  destruct Hcase as [(Hab & _)|(_ & Hnr & Hcalls)]; [congruence|].
  assert (Hover : lifecycle_over id [Call (Some id) cb (reason_of st2 sig)]
                                 st2).
  { split_and!; try done. intros x reg Hin Hl.
    destruct (Hex x reg Hin Hl) as [-> ->].
    apply Hnr. apply registered_iff. by exists (Reg (LifecycleListener id sig cb) true). }
  destruct (lifecycle_over_run id _ tr3 st2 Hinv2 Hover) as (_ & Hno & Hc3).
  fold st3 in Hno, Hc3.
  destruct (run_mono tr3 st2 sig Hinv2 Ha2) as [_ HR]. fold st3 in HR.
  split_and!; try done.
  intros Hr. apply registered_iff in Hr as (reg & Hin & Hcb).
  apply (Hno _ _ Hin). by rewrite Hcb.
Qed.

Lemma manageLifecycle_once_for_good_witness :
  let st := run init_state [OpNewController] in
  let id := next_id st in
  let st2 := run (manageLifecycle st 7 0 9) [OpAbort 0 (VStr "Test Abort")] in
  let st3 := run st2 [OpFinalize 7; OpAbort 0 (VStr "again")] in
  calls_via id st3 = [Call (Some id) 9 (reason_of st2 0)]
  ∧ reason_of st3 0 = reason_of st2 0
  ∧ ¬ registered st3 0 (LifecycleListener id 0 9).
Proof.
  apply (manageLifecycle_once_for_good [OpNewController]
           [OpAbort 0 (VStr "Test Abort")]
           [OpFinalize 7; OpAbort 0 (VStr "again")] 7 0 9).
  - vm_compute. lia.
  - reflexivity.
  - reflexivity.
  - reflexivity.
Defined.

(** X17. [manageLifecycle] on the output of [any(signals)], no input being
    aborted: as long as the host object is not finalized, the callback is
    not invoked while no input is aborted, and it has been invoked exactly
    once, with the reason of an aborted input, once an input is aborted. *)
Theorem manageLifecycle_on_any (tr1 tr2 : list op) (sigs : list sigid)
    (t : objid) (cb : cbid) :
  Forall (exists_signal (run init_state tr1)) sigs →
  Forall (λ s, is_aborted (run init_state tr1) s = false) sigs →
  forallb (λ o, negb (finalizes t o)) tr2 = true →
  let st := run init_state tr1 in
  let sb := (any st sigs).1 in
  let c := (any st sigs).2 in
  let id := next_id sb in
  let st2 := run (manageLifecycle sb t c cb) tr2 in
  (Forall (λ s, is_aborted st2 s = false) sigs → calls_via id st2 = [])
  ∧ (∀ x, x ∈ sigs → is_aborted st2 x = true →
       ∃ y, y ∈ sigs ∧ is_aborted st2 y = true
            ∧ calls_via id st2 = [Call (Some id) cb (reason_of st2 y)]).
Proof.
  intros Hex Hun Hok st sb c id st2.
  assert (Hinv : inv st) by apply inv_run, inv_init.
  assert (Hinvb : inv sb) by (by apply inv_any).
  assert (Hcf : calls_fresh sb).
  { assert (Hs : step st (OpAny sigs) = sb).
    { cbn [step]. by rewrite bool_decide_eq_true_2. }
    rewrite <- Hs. apply calls_fresh_step; [done|].
    apply calls_fresh_run; [apply inv_init|done]. }
  assert (Hc : exists_signal sb c).
  { unfold exists_signal, sb. rewrite any_length by done.
    change c with (length (signals st)). lia. }
  destruct (any_attached st sigs Hex Hun) as [Hca _].
  fold sb in Hca. change (length (signals st)) with c in Hca.
  destruct (lifecycle_inv_run sb t c cb Hinvb Hcf Hc tr2 Hca)
    as (_ & _ & Hcase).
  fold st2 id in Hcase.
  destruct (any_mirror st sigs (OpManageLifecycle t c cb :: tr2) Hinv Hex)
    as [H1 H2].
  rewrite run_cons in H1, H2. fold sb in H1, H2. cbn [step] in H1, H2.
  rewrite bool_decide_eq_true_2 in H1, H2 by done.
  fold st2 in H1, H2. change (length (signals st)) with c in H1, H2.
  split.
  - intros Hun2. destruct Hcase as [(_ & _ & ?)|(Hab & _)]; [done|].
    destruct (H1 Hab) as (y & Hy & Hya & _).
    rewrite Forall_forall in Hun2. specialize (Hun2 y Hy). congruence.
  - intros x Hx Hxa. pose proof (H2 x Hx Hxa) as Hab.
    destruct Hcase as [(? & _)|(_ & _ & Hcalls)]; [congruence|].
    destruct (H1 Hab) as (y & Hy & Hya & HR).
    exists y. split_and!; try done. by rewrite Hcalls, HR.
Qed.

Lemma manageLifecycle_on_any_witness :
  let st := run init_state [OpNewController; OpNewController] in
  let sb := (any st [0; 1]).1 in
  let c := (any st [0; 1]).2 in
  let id := next_id sb in
  let st2 := run (manageLifecycle sb 7 c 9) [OpAbort 1 (VStr "stop")] in
  (Forall (λ s, is_aborted st2 s = false) [0; 1] → calls_via id st2 = [])
  ∧ (∀ x, x ∈ [0; 1] → is_aborted st2 x = true →
       ∃ y, y ∈ [0; 1] ∧ is_aborted st2 y = true
            ∧ calls_via id st2 = [Call (Some id) 9 (reason_of st2 y)]).
Proof.
  apply (manageLifecycle_on_any [OpNewController; OpNewController]
           [OpAbort 1 (VStr "stop")] [0; 1] 7 9).
  - repeat constructor.
  - repeat constructor.
  - reflexivity.
Defined.

(** * Aborted for good *)

(** X18. In every state a program can reach, an aborted signal has a reason
    that is not [undefined], and no operation, of the library or of the
    platform, makes it not aborted again or changes its reason. *)
Theorem aborted_for_good (tr1 tr2 : list op) (x : sigid) :
  is_aborted (run init_state tr1) x = true →
  let st := run init_state tr1 in
  let st2 := run st tr2 in
  reason_of st x ≠ VUndefined
  ∧ is_aborted st2 x = true
  ∧ reason_of st2 x = reason_of st x.
Proof.
  intros Ha st st2.
  assert (Hinv : inv st) by apply inv_run, inv_init.
  destruct (run_mono tr2 st x Hinv Ha) as [H1 H2].
  split_and!; try done.
  destruct Hinv as [Hh _]. by apply (inv_reasons _ Hh).
Qed.

Lemma aborted_for_good_witness :
  let st := run init_state [OpNewController; OpAbort 0 VUndefined] in
  let st2 := run st [OpAbort 0 (VStr "again"); OpFollow 0] in
  reason_of st 0 ≠ VUndefined
  ∧ is_aborted st2 0 = true
  ∧ reason_of st2 0 = reason_of st 0.
Proof.
  apply (aborted_for_good [OpNewController; OpAbort 0 VUndefined]
           [OpAbort 0 (VStr "again"); OpFollow 0] 0).
  reflexivity.
Defined.

(** * The listener of [any] and its [cleanup]

    [onAbort] of [any] runs [cleanup] each time it is invoked, also when the
    output is aborted already. So the listener leaves all the inputs
    together, and it does so when an input that carries it aborts. *)

(** A listener of [any] sits on inputs of its call, and is not [once]. *)
Definition any_regs_ok (x : sigid) (reg : registration) : Prop :=
  ∀ c arr, callback reg = AnyOnAbort c arr → x ∈ arr ∧ once reg = false.

Lemma any_regs_made : made_ok any_regs_ok.
Proof.
  split.
  - intros C sigs x Hx _ c arr [= <- <-]. done.
  - intros C p _ c arr [=].
  - intros id sig cb c arr [=].
Qed.

Definition gone (st : state) (l : listener) : Prop := ∀ z, ¬ registered st z l.

Lemma gone_frame st st' l : frame st st' → gone st l → gone st' l.
Proof. intros Hf Hg z Hr. apply (Hg z). by eapply frame_registered. Qed.

Lemma gone_cleanup c arr st :
  all_regs any_regs_ok st →
  gone (any_cleanup (AnyOnAbort c arr) arr st) (AnyOnAbort c arr).
Proof.
  intros Hok z Hr. apply registered_cleanup in Hr as [Hr Hz].
  apply registered_iff in Hr as (reg & Hin & Hcb).
  destruct (Hok z reg Hin c arr Hcb) as [Hzin _]. by apply Hz.
Qed.

(** The delivery of the 'abort' event of [this] to the listeners of
    [snapshot]: a listener of [any] that disappears has left every signal,
    because it was run for [this] or for a signal that became aborted; and
    the listeners of [any] on a signal that became aborted, or on [this] and
    in [snapshot], have left every signal. *)
Record swept_at (this : sigid) (snapshot : list registration)
    (st st' : state) : Prop := SweptAt {
  sa_frame : frame st st';
  sa_keep : ∀ x c arr, registered st x (AnyOnAbort c arr) →
    registered st' x (AnyOnAbort c arr)
    ∨ (gone st' (AnyOnAbort c arr)
       ∧ (registered st this (AnyOnAbort c arr)
          ∨ ∃ z, registered st z (AnyOnAbort c arr) ∧ newly st st' z));
  sa_fire : ∀ x c arr, registered st x (AnyOnAbort c arr) → newly st st' x →
    gone st' (AnyOnAbort c arr);
  sa_done : ∀ c arr, AnyOnAbort c arr ∈ callback <$> snapshot →
    registered st this (AnyOnAbort c arr) → gone st' (AnyOnAbort c arr)
}.

(** A whole call of [abort]. *)
Record swept (st st' : state) : Prop := Swept {
  sw_frame : frame st st';
  sw_keep : ∀ x c arr, registered st x (AnyOnAbort c arr) →
    registered st' x (AnyOnAbort c arr)
    ∨ (gone st' (AnyOnAbort c arr)
       ∧ ∃ z, registered st z (AnyOnAbort c arr) ∧ newly st st' z);
  sw_fire : ∀ x c arr, registered st x (AnyOnAbort c arr) → newly st st' x →
    gone st' (AnyOnAbort c arr)
}.

Lemma swept_same st st' :
  frame st st' → (∀ x, is_aborted st' x = is_aborted st x) →
  (∀ x c arr, registered st x (AnyOnAbort c arr) →
              registered st' x (AnyOnAbort c arr)) →
  swept st st'.
Proof.
  intros Hf Ha Hk. split; [done|auto|].
  intros x c arr _ [H1 H2]. rewrite Ha in H2. congruence.
Qed.

Lemma swept_refl st : swept st st.
Proof. apply swept_same; auto using frame_refl. Qed.

Lemma swept_trans st1 st2 st3 : swept st1 st2 → swept st2 st3 → swept st1 st3.
Proof.
  intros [Hf1 Hk1 Hp1] [Hf2 Hk2 Hp2]. split.
  - by eapply frame_trans.
  - intros x c arr Hr. destruct (Hk1 x c arr Hr) as [Hr2|[Hg (z & Hz & Hn)]].
    + destruct (Hk2 x c arr Hr2) as [?|[Hg (z & Hz & Hn)]]; [by left|].
      right. split; [done|]. exists z.
      split; [by eapply frame_registered|by eapply newly_frame_r].
    + right. split; [by eapply gone_frame|]. exists z.
      split; [done|by eapply newly_frame_l].
  - intros x c arr Hr Hn. destruct (newly_split _ st2 _ _ Hn) as [Hn1|Hn2].
    + eapply gone_frame; [done|]. by eapply Hp1.
    + destruct (Hk1 x c arr Hr) as [Hr2|[Hg _]]; [by eapply Hp2|].
      by eapply gone_frame.
Qed.

Lemma swept_at_of_swept this st st' : swept st st' → swept_at this [] st st'.
Proof.
  intros [Hf Hk Hp]. split; [done| |done|].
  - intros x c arr Hr. destruct (Hk x c arr Hr) as [?|[Hg Hz]]; auto.
  - intros c arr Hin. by apply elem_of_nil in Hin.
Qed.

Lemma swept_at_app this s1 s2 st st2 st' :
  swept_at this s1 st st2 → swept_at this s2 st2 st' →
  swept_at this (s1 ++ s2) st st'.
Proof.
  intros [Hf1 Hk1 Hp1 Hd1] [Hf2 Hk2 Hp2 Hd2]. split.
  - by eapply frame_trans.
  - intros x c arr Hr.
    destruct (Hk1 x c arr Hr) as [Hr2|[Hg Hcause]].
    + destruct (Hk2 x c arr Hr2) as [?|[Hg [Hthis|(z & Hz & Hn)]]]; [by left|..].
      * right. split; [done|]. left. by eapply frame_registered.
      * right. split; [done|]. right. exists z.
        split; [by eapply frame_registered|by eapply newly_frame_r].
    + right. split; [by eapply gone_frame|].
      destruct Hcause as [?|(z & Hz & Hn)]; [by left|].
      right. exists z. split; [done|by eapply newly_frame_l].
  - intros x c arr Hr Hn. destruct (newly_split _ st2 _ _ Hn) as [Hn1|Hn2].
    + eapply gone_frame; [done|]. by eapply Hp1.
    + destruct (Hk1 x c arr Hr) as [Hr2|[Hg _]]; [by eapply Hp2|].
      by eapply gone_frame.
  - intros c arr Hin Hr. rewrite fmap_app in Hin.
    apply elem_of_app in Hin as [Hin|Hin].
    + eapply gone_frame; [done|]. by apply Hd1.
    + destruct (Hk1 this c arr Hr) as [Hr2|[Hg _]]; [by apply Hd2|].
      by eapply gone_frame.
Qed.

(** A listener that is not one of [any] has run. *)
Lemma swept_at_other this l o st st' :
  not_any l → swept st st' → swept_at this [Reg l o] st st'.
Proof.
  intros Hl Hs. destruct (swept_at_of_swept this st st' Hs) as [Hf Hk Hp _].
  split; try done.
  intros c arr Hin. apply list_elem_of_singleton in Hin. simpl in Hin.
  by subst l.
Qed.

(** [cleanup] at the end of [onAbort]. *)
Lemma swept_at_cleanup this c arr o st :
  all_regs any_regs_ok st →
  registered st this (AnyOnAbort c arr) ∨ gone st (AnyOnAbort c arr) →
  swept_at this [Reg (AnyOnAbort c arr) o] st
           (any_cleanup (AnyOnAbort c arr) arr st).
Proof.
  intros Hok Hthis.
  pose proof (quiet_cleanup (AnyOnAbort c arr) arr st) as Hq.
  pose proof (gone_cleanup c arr st Hok) as Hg.
  split.
  - apply Hq.
  - intros x c' arr' Hr.
    destruct (decide (AnyOnAbort c' arr' = AnyOnAbort c arr)) as [Heq|Hne].
    + injection Heq as -> ->. right. split; [done|]. left.
      destruct Hthis as [?|Hgone]; [done|]. by apply Hgone in Hr.
    + left. by apply (qt_keep _ _ _ Hq).
  - intros x c' arr' _ [H1 H2]. rewrite (qt_aborted _ _ _ Hq) in H2.
    congruence.
  - intros c' arr' Hin _. apply list_elem_of_singleton in Hin. simpl in Hin.
    by rewrite Hin.
Qed.

Lemma fire_swept (ab : state → sigid → value → option state) this :
  (∀ st c r st', all_regs any_regs_ok st → ab st c r = Some st' →
                 swept st st') →
  ∀ snapshot st st',
    all_regs any_regs_ok st →
    (∀ reg, reg ∈ snapshot → any_regs_ok this reg) →
    is_aborted st this = true →
    fire ab this snapshot st = Some st' → swept_at this snapshot st st'.
Proof.
  intros Hab.
  induction snapshot as [|[l o] rest IH]; intros st st' Hok Hsnap Hthis; simpl.
  - intros [= <-]. apply swept_at_of_swept, swept_refl.
  - assert (Hrest : ∀ reg, reg ∈ rest → any_regs_ok this reg).
    { intros reg Hin. apply Hsnap. by right. }
    destruct (has_listener st this l) eqn:Hh.
    2: { intros Hf. apply has_listener_false in Hh.
         change (Reg l o :: rest) with ([Reg l o] ++ rest).
         eapply swept_at_app; [|by apply IH].
         destruct (swept_at_of_swept this st st (swept_refl st))
           as [Hf0 Hk0 Hp0 _].
         split; try done.
         intros c arr Hin Hr. apply list_elem_of_singleton in Hin.
         simpl in Hin. subst l. done. }
    apply has_listener_true in Hh.
    assert (H1 : swept st (if o then removeEventListener this l st else st)
                 ∧ (o = true → not_any l)
                 ∧ (o = false →
                    registered (if o then removeEventListener this l st
                                else st) this l)).
    { destruct o; [|split_and!; [apply swept_refl|done|done]].
      assert (Hl : not_any l).
      { destruct l as [c arr| |]; simpl; try done.
        destruct (Hsnap (Reg (AnyOnAbort c arr) true)) with c arr as [_ ?];
          [by left|done|done]. }
      split_and!; [|done|done]. apply swept_same.
      - apply frame_remove.
      - intros x. apply is_aborted_remove.
      - intros x c arr Hr. apply registered_remove. split; [done|].
        intros [_ <-]. done. }
    revert H1. generalize (if o then removeEventListener this l st else st).
    intros st1 (H1 & Ho & Hkeep).
    assert (Hok1 : all_regs any_regs_ok st1).
    { eapply all_regs_sub; [apply (fr_sub _ _ (sw_frame _ _ H1))|done]. }
    destruct (invoke ab this l st1) as [st2|] eqn:Hi; [|done]. simpl.
    intros Hf.
    assert (H2 : swept_at this [Reg l o] st1 st2).
    { destruct l as [ctl arr|id sig cb|ctl p]; simpl in Hi.
      - destruct (ab st1 ctl (reason_of st1 this)) as [s|] eqn:E; [|done].
        simpl in Hi. injection Hi as <-.
        pose proof (Hab _ _ _ _ Hok1 E) as Hs.
        assert (Hoks : all_regs any_regs_ok s).
        { eapply all_regs_sub; [apply (fr_sub _ _ (sw_frame _ _ Hs))|done]. }
        change [Reg (AnyOnAbort ctl arr) o]
          with ([] ++ [Reg (AnyOnAbort ctl arr) o]).
        eapply swept_at_app; [by apply swept_at_of_swept|].
        apply swept_at_cleanup; [done|].
        assert (Hr1 : registered st1 this (AnyOnAbort ctl arr)).
        { destruct o; [by destruct Ho|by apply Hkeep]. }
        destruct (sw_keep _ _ Hs this ctl arr Hr1) as [?|[Hg _]]; auto.
      - injection Hi as <-. apply swept_at_other; [done|].
        apply swept_same; [apply frame_record_call|done|done].
      - apply swept_at_other; [done|]. by eapply Hab. }
    change (Reg l o :: rest) with ([Reg l o] ++ rest).
    assert (H12 : swept_at this [Reg l o] st st2).
    { change [Reg l o] with ([] ++ [Reg l o]).
      eapply swept_at_app; [by apply swept_at_of_swept|done]. }
    eapply swept_at_app; [exact H12|].
    apply IH; try done.
    + eapply all_regs_sub; [apply (fr_sub _ _ (sa_frame _ _ _ _ H12))|done].
    + eapply frame_aborted; [apply H12|done].
Qed.

Lemma abort_fuel_swept fuel : ∀ st c r st',
  all_regs any_regs_ok st → abort_fuel fuel st c r = Some st' → swept st st'.
Proof.
  induction fuel as [|f IH]; intros st c r st' Hok; simpl; [done|].
  destruct (signals st !! c) as [sg|] eqn:Hl;
    [|intros [= <-]; apply swept_refl].
  destruct (aborted sg) eqn:Ha; [intros [= <-]; apply swept_refl|].
  pose proof (abort_reason_signals st r) as Hs.
  pose proof (frame_abort_reason st r) as Hfr.
  destruct (abort_reason st r) as [st1 R]. simpl in Hs, Hfr. intros Hf.
  assert (Hc0 : is_aborted st c = false) by (unfold is_aborted; by rewrite Hl).
  assert (Hc : is_aborted st1 c = false) by (by rewrite (is_aborted_signals st)).
  assert (Hlt : c < length (signals st1)).
  { rewrite Hs. by eapply lookup_lt_Some. }
  set (sm := mark_aborted c R st1) in *.
  assert (Hfm : frame st sm).
  { eapply frame_trans; [done|]. by apply frame_mark. }
  assert (Hreg : ∀ x l, registered sm x l ↔ registered st x l).
  { intros x l. unfold sm. rewrite registered_mark.
    by apply registered_signals. }
  assert (Hokm : all_regs any_regs_ok sm).
  { eapply all_regs_sub; [apply (fr_sub _ _ Hfm)|done]. }
  assert (Hcm : is_aborted sm c = true) by (by apply is_aborted_mark_eq).
  assert (Hne : ∀ x, x ≠ c → is_aborted sm x = is_aborted st x).
  { intros x Hx. unfold sm. rewrite is_aborted_mark_ne by done.
    by apply is_aborted_signals. }
  assert (Hsnap : ∀ reg, reg ∈ listeners sg → any_regs_ok c reg).
  { intros reg Hin. apply Hok. unfold listeners_of. by rewrite Hl. }
  destruct (fire_swept (abort_fuel f) c (λ s k r' s' H, IH s k r' s' H)
              (listeners sg) sm st' Hokm Hsnap Hcm Hf) as [Hf2 Hk2 Hp2 Hd2].
  assert (Hc' : is_aborted st' c = true) by (by eapply frame_aborted).
  assert (Hnew : ∀ z, newly sm st' z → newly st st' z).
  { intros z [H1 H2]. split; [|done]. rewrite <- Hne; [done|].
    intros ->. congruence. }
  split.
  - by eapply frame_trans.
  - intros x k arr Hr. apply Hreg in Hr.
    destruct (Hk2 x k arr Hr) as [?|[Hg [Hthis|(z & Hz & Hn)]]]; [by left|..].
    + right. split; [done|]. exists c. split; [by apply Hreg|done].
    + right. split; [done|]. exists z. split; [by apply Hreg|by apply Hnew].
  - intros x k arr Hr [H1 H2]. destruct (decide (x = c)) as [->|Hx].
    + apply Hd2; [|by apply Hreg].
      unfold registered, listeners_of in Hr. by rewrite Hl in Hr.
    + apply (Hp2 x); [by apply Hreg|]. split; [|done]. by rewrite Hne.
Qed.

Lemma abort_swept st c r : all_regs any_regs_ok st → swept st (abort st c r).
Proof.
  intros Hok. unfold abort. destruct (abort_fuel _ st c r) eqn:E; simpl.
  - by eapply abort_fuel_swept.
  - apply swept_refl.
Qed.

Lemma foldl_abort_swept {A} (f : A → sigid) r (hs : list A) : ∀ st,
  all_regs any_regs_ok st → swept st (foldl (λ cur h, abort cur (f h) r) st hs).
Proof.
  induction hs as [|h hs IH]; intros st Hok; simpl; [apply swept_refl|].
  pose proof (abort_swept st (f h) r Hok) as Hs.
  eapply swept_trans; [exact Hs|]. apply IH.
  eapply all_regs_sub; [apply (fr_sub _ _ (sw_frame _ _ Hs))|done].
Qed.

Lemma swept_signals st st0 st' :
  signals st0 = signals st → swept st0 st' →
  (∀ x c arr, registered st x (AnyOnAbort c arr) →
     registered st' x (AnyOnAbort c arr)
     ∨ (gone st' (AnyOnAbort c arr)
        ∧ ∃ z, registered st z (AnyOnAbort c arr) ∧ newly st st' z))
  ∧ (∀ x c arr, registered st x (AnyOnAbort c arr) → newly st st' x →
       gone st' (AnyOnAbort c arr)).
Proof.
  intros Hs [Hf Hk Hp].
  assert (Hr : ∀ x l, registered st0 x l ↔ registered st x l)
    by (intros; by apply registered_signals).
  assert (Hn : ∀ x, newly st0 st' x ↔ newly st st' x).
  { intros x. unfold newly. by rewrite (is_aborted_signals st st0). }
  split.
  - intros x c arr Hx. apply Hr in Hx.
    destruct (Hk x c arr Hx) as [?|[Hg (z & Hz & Hz')]]; [by left|].
    right. split; [done|]. exists z. split; [by apply Hr|by apply Hn].
  - intros x c arr Hx Hx'. apply (Hp x); [by apply Hr|by apply Hn].
Qed.

(** One operation: a listener of [any] that disappears has left every
    signal, because a signal that carried it became aborted. *)
Lemma step_swept st o :
  inv st → all_regs any_regs_ok st →
  (∀ x c arr, registered st x (AnyOnAbort c arr) →
     registered (step st o) x (AnyOnAbort c arr)
     ∨ (gone (step st o) (AnyOnAbort c arr)
        ∧ ∃ z, registered st z (AnyOnAbort c arr) ∧ newly st (step st o) z))
  ∧ (∀ x c arr, registered st x (AnyOnAbort c arr) →
       newly st (step st o) x → gone (step st o) (AnyOnAbort c arr)).
Proof.
  intros Hinv Hok. pose proof Hinv as [Hh Hrg].
  assert (Hsame : ∀ st',
    (∀ x, exists_signal st x → is_aborted st' x = is_aborted st x) →
    (∀ x reg, reg ∈ listeners_of st x → ¬ not_any (callback reg) →
              reg ∈ listeners_of st' x) →
    (∀ x c arr, registered st x (AnyOnAbort c arr) →
       registered st' x (AnyOnAbort c arr)
       ∨ (gone st' (AnyOnAbort c arr)
          ∧ ∃ z, registered st z (AnyOnAbort c arr) ∧ newly st st' z))
    ∧ (∀ x c arr, registered st x (AnyOnAbort c arr) →
         newly st st' x → gone st' (AnyOnAbort c arr))).
  { intros st' Ha Hl. split.
    - intros x c arr Hr. left. apply registered_iff in Hr as (reg & Hin & Hcb).
      apply registered_iff. exists reg. split; [|done].
      apply Hl; [done|]. rewrite Hcb. simpl. tauto.
    - intros x c arr Hr [H1 H2]. rewrite Ha in H2; [congruence|].
      by eapply registered_lt. }
  destruct (decide (constructs o = true)) as [Hc|Hc].
  { apply Hsame; [apply (step_untouched st o Hc)|].
    intros x reg Hin _. by apply (ut_listeners _ _ (step_untouched st o Hc)). }
  destruct o as [|k r|h ms|sigs|t s cb|p'|t n| |dt|id|t n ev strict|t];
    try (by destruct Hc); cbn [step].
  - apply Hsame.
    + intros x _.
      change (is_aborted (new_controller st).1 x = is_aborted st x).
      apply new_controller_view.
    + intros x reg Hin _.
      change (reg ∈ listeners_of (new_controller st).1 x).
      by rewrite (proj2 (proj2 (new_controller_view st))).
  - destruct (bool_decide (k ∈ owned st)); [|by apply Hsame].
    apply (swept_signals st st); [done|by apply abort_swept].
  - by apply Hsame.
  - unfold run_timer.
    destruct (filter (λ t, tm_id t = id) (timers st)) as [|t ts];
      [by apply Hsame|].
    destruct (bool_decide (tm_due t ≤ now st)%Z); [|by apply Hsame].
    unfold timeout_callback.
    eapply swept_signals; [|apply abort_swept]; [done|].
    by apply (all_regs_signals _ st).
  - unfold dispatchEvent.
    eapply swept_signals; [|apply foldl_abort_swept].
    + by destruct strict.
    + apply (all_regs_signals _ st); [by destruct strict|done].
  - by apply Hsame.
Qed.

Lemma registered_old st o z l k :
  inv st → ctrl l = Some k → k < length (signals st) →
  registered (step st o) z l → registered st z l.
Proof.
  intros Hinv Hl Hk Hr. apply registered_iff in Hr as (reg & Hin & Hcb).
  destruct (ad_fresh _ _ _ (step_adv st o Hinv) z reg Hin) as [Hold|[Hf _]].
  - apply registered_iff. eauto.
  - rewrite Hcb in Hf. specialize (Hf k Hl). lia.
Qed.

(** What becomes of a listener of [any] that sits on the inputs [pre]:
    it stays on all of them while none is aborted, and it has left every
    signal once one of them is aborted. *)
Definition leftover_inv (la : listener) (pre : list sigid) (s' : state)
    : Prop :=
  (∀ k, ctrl la = Some k → k < length (signals s'))
  ∧ (∀ z, registered s' z la → z ∈ pre)
  ∧ ((∀ y, y ∈ pre → is_aborted s' y = false ∧ registered s' y la)
     ∨ (gone s' la ∧ ∃ y, y ∈ pre ∧ is_aborted s' y = true)).

Lemma leftover_inv_step c arr pre s' o :
  inv s' → all_regs any_regs_ok s' →
  leftover_inv (AnyOnAbort c arr) pre s' →
  leftover_inv (AnyOnAbort c arr) pre (step s' o).
Proof.
  intros Hi Hok (Hc & Hon & Hcase).
  pose proof (step_length s' o Hi) as Hlen.
  destruct (step_swept s' o Hi Hok) as [Hk Hp].
  specialize (Hc c eq_refl).
  assert (Hold : ∀ z, registered (step s' o) z (AnyOnAbort c arr) →
                      registered s' z (AnyOnAbort c arr)).
  { intros z. by apply (registered_old s' o z _ c). }
  split_and!.
  - intros k [= <-]. lia.
  - intros z Hr. by apply Hon, Hold.
  - destruct Hcase as [Hall|[Hg (y & Hy & Hya)]].
    + destruct (decide (Forall (λ y, is_aborted (step s' o) y = false) pre))
        as [Hun|Hab].
      * rewrite Forall_forall in Hun.
        destruct (decide (Forall (λ y, registered (step s' o) y
                                         (AnyOnAbort c arr)) pre))
          as [Hreg|Hnreg].
        -- left. intros y Hy. rewrite Forall_forall in Hreg. auto.
        -- exfalso. apply not_Forall_Exists in Hnreg; [|apply _].
           apply Exists_exists in Hnreg as (y & Hy & Hny).
           destruct (Hall y Hy) as [_ Hr].
           destruct (Hk y c arr Hr) as [?|[_ (z & Hz & [_ Hn])]]; [done|].
           rewrite (Hun z (Hon z Hz)) in Hn. done.
      * right. apply not_Forall_Exists in Hab; [|apply _].
        apply Exists_exists in Hab as (y & Hy & Hya).
        apply not_false_is_true in Hya.
        destruct (Hall y Hy) as [Hy0 Hr].
        split; [by apply (Hp y c arr Hr)|by exists y].
    + right. split.
      * intros z Hr. apply (Hg z). by apply Hold.
      * exists y. split; [done|]. by apply step_mono.
Qed.

Lemma leftover_inv_run c arr pre tr : ∀ s',
  inv s' → all_regs any_regs_ok s' →
  leftover_inv (AnyOnAbort c arr) pre s' →
  leftover_inv (AnyOnAbort c arr) pre (run s' tr).
Proof.
  induction tr as [|o tr IH]; intros s' Hi Hok Hl; simpl; [done|].
  apply IH; [by apply inv_step| |by apply leftover_inv_step].
  apply all_regs_step; [apply any_regs_made|done|done].
Qed.

(** X19. [any(signals)] with an input that is already aborted, after the
    call: the listener attached to the inputs before that one stays on all
    of them as long as none of them is aborted; as soon as one of them is
    aborted, the listener has left every signal ([onAbort] runs [cleanup]
    also when the output is aborted already). *)
Theorem any_leftover_listener (tr1 tr2 : list op) (pre post : list sigid)
    (x : sigid) :
  Forall (exists_signal (run init_state tr1)) (pre ++ x :: post) →
  Forall (λ s, is_aborted (run init_state tr1) s = false) pre →
  is_aborted (run init_state tr1) x = true →
  let st := run init_state tr1 in
  let sigs := pre ++ x :: post in
  let st1 := (any st sigs).1 in
  let c := (any st sigs).2 in
  let st2 := run st1 tr2 in
  (Forall (λ y, is_aborted st2 y = false) pre →
   ∀ y, y ∈ pre → registered st2 y (AnyOnAbort c sigs))
  ∧ (∀ y, y ∈ pre → is_aborted st2 y = true →
          ∀ z, ¬ registered st2 z (AnyOnAbort c sigs)).
Proof.
  intros Hex Hpre Hx st sigs st1 c st2.
  assert (Hinv : inv st) by apply inv_run, inv_init.
  assert (Hinv1 : inv st1) by (by apply inv_any).
  assert (Hs1 : step st (OpAny sigs) = st1).
  { cbn [step]. by rewrite bool_decide_eq_true_2. }
  assert (Hok1 : all_regs any_regs_ok st1).
  { rewrite <- Hs1. apply all_regs_step; [apply any_regs_made|done|].
    apply all_regs_run; [apply any_regs_made|apply inv_init|].
    apply all_regs_init. }
  destruct (any_short_circuit st pre x post Hinv Hex Hpre Hx)
    as (_ & _ & Hl & Hk).
  fold sigs st1 c in Hl, Hk.
  pose proof (any_calm st sigs Hex) as Hcm. fold st1 in Hcm.
  assert (Hinit : leftover_inv (AnyOnAbort c sigs) pre st1).
  { split_and!.
    - intros k [= <-]. unfold st1. rewrite any_length by done.
      change c with (length (signals st)). lia.
    - intros z Hr. destruct (decide (z ∈ pre)) as [?|Hz]; [done|exfalso].
      pose proof Hr as Hr'.
      apply registered_iff in Hr' as (reg & Hin & Hcb).
      destruct (Hok1 z reg Hin c sigs Hcb) as [Hzin _].
      apply elem_of_app in Hzin as [?|Hzin]; [done|].
      unfold registered in Hr. rewrite (Hk z Hzin Hz) in Hr.
      destruct Hinv as [Hh _].
      pose proof (inv_listeners _ Hh z _ Hr) as Hwf. simpl in Hwf.
      change c with (length (signals st)) in Hwf. lia.
    - left. intros y Hy. split; [|by apply Hl].
      rewrite Forall_forall in Hex, Hpre.
      destruct (cm_same _ _ _ _ Hcm y) as [-> _]; [|by apply Hpre].
      apply Hex, elem_of_app. by left. }
  destruct (leftover_inv_run c sigs pre tr2 st1 Hinv1 Hok1 Hinit)
    as (_ & _ & Hcase).
  fold st2 in Hcase. split.
  - intros Hun y Hy. destruct Hcase as [Hall|[_ (z & Hz & Hza)]].
    + by apply Hall.
    + rewrite Forall_forall in Hun. specialize (Hun z Hz). congruence.
  - intros y Hy Hya. destruct Hcase as [Hall|[Hg _]]; [|done].
    destruct (Hall y Hy) as [? _]. congruence.
Qed.

Lemma any_leftover_listener_witness :
  let st := run init_state [OpNewController; OpNewController;
                            OpAbort 1 (VStr "already aborted")] in
  let sigs := [0] ++ 1 :: [] in
  let st1 := (any st sigs).1 in
  let c := (any st sigs).2 in
  let st2 := run st1 [OpAbort 0 (VStr "late")] in
  (Forall (λ y, is_aborted st2 y = false) [0] →
   ∀ y, y ∈ [0] → registered st2 y (AnyOnAbort c sigs))
  ∧ (∀ y, y ∈ [0] → is_aborted st2 y = true →
          ∀ z, ¬ registered st2 z (AnyOnAbort c sigs)).
Proof.
  apply (any_leftover_listener [OpNewController; OpNewController;
                                OpAbort 1 (VStr "already aborted")]
           [OpAbort 0 (VStr "late")] [0] [] 1).
  - repeat constructor.
  - repeat constructor.
  - reflexivity.
Defined.

(** * [once] listeners

    A listener all of whose registrations on a signal are [once] is no
    longer registered on the signal after the signal has become aborted. *)

Definition once_only (st : state) (x : sigid) (l : listener) : Prop :=
  ∀ reg, reg ∈ listeners_of st x → callback reg = l → once reg = true.

Lemma once_only_frame st st' x l :
  frame st st' → once_only st x l → once_only st' x l.
Proof. intros Hf Ho reg Hin. apply Ho. by apply (fr_sub _ _ Hf). Qed.

Record onced (st st' : state) : Prop := Onced {
  on_frame : frame st st';
  on_gone : ∀ x l, once_only st x l → newly st st' x → ¬ registered st' x l
}.

(** The delivery to [snapshot]: moreover, a listener of [this] whose
    registrations are all in [snapshot] and [once] is no longer
    registered. *)
Record onced_at (this : sigid) (snapshot : list registration)
    (st st' : state) : Prop := OncedAt {
  oa_frame : frame st st';
  oa_gone : ∀ x l, once_only st x l → newly st st' x → ¬ registered st' x l;
  oa_done : ∀ l,
    (∀ reg, reg ∈ listeners_of st this → callback reg = l →
            reg ∈ snapshot ∧ once reg = true) →
    ¬ registered st' this l
}.

Lemma onced_same st st' :
  frame st st' → (∀ x, is_aborted st' x = is_aborted st x) → onced st st'.
Proof.
  intros Hf Ha. split; [done|].
  intros x l _ [H1 H2]. rewrite Ha in H2. congruence.
Qed.

Lemma onced_refl st : onced st st.
Proof. apply onced_same; auto using frame_refl. Qed.

Lemma onced_trans st1 st2 st3 : onced st1 st2 → onced st2 st3 → onced st1 st3.
Proof.
  intros [Hf1 Hg1] [Hf2 Hg2]. split; [by eapply frame_trans|].
  intros x l Ho Hn Hr. destruct (newly_split _ st2 _ _ Hn) as [Hn1|Hn2].
  - apply (Hg1 x l Ho Hn1). by eapply frame_registered.
  - apply (Hg2 x l); [by eapply once_only_frame|done|done].
Qed.

Lemma fire_onced (ab : state → sigid → value → option state) this :
  (∀ st c r st', ab st c r = Some st' → onced st st') →
  ∀ snapshot st st', is_aborted st this = true →
    fire ab this snapshot st = Some st' → onced_at this snapshot st st'.
Proof.
  intros Hab.
  induction snapshot as [|[l o] rest IH]; intros st st' Hthis; simpl.
  - intros [= <-]. split; [apply frame_refl|apply onced_refl|].
    intros l Hl Hr. apply registered_iff in Hr as (reg & Hin & Hcb).
    destruct (Hl reg Hin Hcb) as [Hnil _]. by apply elem_of_nil in Hnil.
  - assert (Hstep : ∀ st2, onced st st2 →
                (has_listener st this l = true → o = true →
                 ¬ registered st2 this l) →
                fire ab this rest st2 = Some st' →
                onced_at this (Reg l o :: rest) st st').
    { intros st2 H12 Hrm Hfire.
      assert (Hthis2 : is_aborted st2 this = true).
      { eapply frame_aborted; [apply H12|done]. }
      destruct (IH st2 st' Hthis2 Hfire) as [Hf2 Hg2 Hd2].
      destruct (onced_trans st st2 st' H12 (Onced _ _ Hf2 Hg2)) as [Hf Hg].
      split; [done|done|].
      intros l' Hl'. apply Hd2. intros reg Hin Hcb.
      pose proof (fr_sub _ _ (on_frame _ _ H12) _ _ Hin) as Hin0.
      destruct (Hl' reg Hin0 Hcb) as [Hsnap Honce]. split; [|done].
      apply elem_of_cons in Hsnap as [->|?]; [|done]. exfalso.
      simpl in Hcb, Honce. subst l' o.
      apply Hrm; [|done|].
      - apply has_listener_true, registered_iff. by exists (Reg l true).
      - apply registered_iff. by exists (Reg l true). }
    destruct (has_listener st this l) eqn:Hh.
    2: { apply Hstep; [apply onced_refl|done]. }
    assert (H1 : onced st (if o then removeEventListener this l st else st)
                 ∧ (o = true →
                    ¬ registered (if o then removeEventListener this l st
                                  else st) this l)).
    { destruct o; [|split; [apply onced_refl|done]].
      split.
      - apply onced_same; [apply frame_remove|].
        intros x. apply is_aborted_remove.
      - intros _ Hr. apply registered_remove in Hr as [_ Hr]. by apply Hr. }
    revert H1. generalize (if o then removeEventListener this l st else st).
    intros st1 [H1 Hrm1].
    destruct (invoke ab this l st1) as [st2|] eqn:Hi; [|done]. simpl.
    assert (H2 : onced st1 st2).
    { destruct l as [ctl arr|id sig cb|ctl p]; simpl in Hi.
      - destruct (ab st1 ctl (reason_of st1 this)) as [s|] eqn:E; [|done].
        simpl in Hi. injection Hi as <-.
        eapply onced_trans; [by eapply Hab|].
        apply onced_same; [apply frame_cleanup|].
        intros x. apply is_aborted_cleanup.
      - injection Hi as <-. apply onced_same; [apply frame_record_call|done].
      - by eapply Hab. }
    apply Hstep; [by eapply onced_trans|].
    intros _ Ho Hr. apply (Hrm1 Ho).
    eapply frame_registered; [apply H2|done].
Qed.

Lemma abort_fuel_onced fuel : ∀ st c r st',
  abort_fuel fuel st c r = Some st' → onced st st'.
Proof.
  induction fuel as [|f IH]; intros st c r st'; simpl; [done|].
  destruct (signals st !! c) as [sg|] eqn:Hl;
    [|intros [= <-]; apply onced_refl].
  destruct (aborted sg) eqn:Ha; [intros [= <-]; apply onced_refl|].
  pose proof (abort_reason_signals st r) as Hs.
  pose proof (frame_abort_reason st r) as Hfr.
  destruct (abort_reason st r) as [st1 R]. simpl in Hs, Hfr. intros Hf.
  assert (Hc : is_aborted st1 c = false).
  { unfold is_aborted. by rewrite Hs, Hl. }
  assert (Hlt : c < length (signals st1)).
  { rewrite Hs. by eapply lookup_lt_Some. }
  set (sm := mark_aborted c R st1) in *.
  assert (Hfm : frame st sm).
  { eapply frame_trans; [done|]. by apply frame_mark. }
  assert (Hls : ∀ x, listeners_of sm x = listeners_of st x).
  { intros x. unfold sm. rewrite listeners_of_mark.
    by apply listeners_of_signals. }
  assert (Hcm : is_aborted sm c = true) by (by apply is_aborted_mark_eq).
  assert (Hne : ∀ x, x ≠ c → is_aborted sm x = is_aborted st x).
  { intros x Hx. unfold sm. rewrite is_aborted_mark_ne by done.
    by apply is_aborted_signals. }
  destruct (fire_onced (abort_fuel f) c IH (listeners sg) sm st' Hcm Hf)
    as [Hf2 Hg2 Hd2].
  split; [by eapply frame_trans|].
  intros x l Ho [H1 H2]. destruct (decide (x = c)) as [->|Hx].
  - apply Hd2. intros reg Hin Hcb. rewrite Hls in Hin.
    split; [|by apply Ho].
    unfold listeners_of in Hin. by rewrite Hl in Hin.
  - apply (Hg2 x l).
    + intros reg Hin. rewrite Hls in Hin. by apply Ho.
    + split; [|done]. by rewrite Hne.
Qed.

Lemma abort_onced st c r : onced st (abort st c r).
Proof.
  unfold abort. destruct (abort_fuel _ st c r) eqn:E; simpl.
  - by eapply abort_fuel_onced.
  - apply onced_refl.
Qed.

Lemma foldl_abort_onced {A} (f : A → sigid) r (hs : list A) : ∀ st,
  onced st (foldl (λ cur h, abort cur (f h) r) st hs).
Proof.
  induction hs as [|h hs IH]; intros st; simpl; [apply onced_refl|].
  eapply onced_trans; [apply abort_onced|apply IH].
Qed.

(** The registrations of the listeners of [follow] are [once]. *)
Definition follow_regs_ok (x : sigid) (reg : registration) : Prop :=
  ∀ c p, callback reg = FollowOnAbort c p → once reg = true.

Lemma follow_regs_made : made_ok follow_regs_ok.
Proof.
  split.
  - intros C sigs x _ _ c p [=].
  - intros C p _ c p' _. done.
  - intros id sig cb c p [=].
Qed.

Lemma step_onced_follow st o x c p :
  inv st → all_regs follow_regs_ok st → x < length (signals st) →
  newly st (step st o) x → ¬ registered (step st o) x (FollowOnAbort c p).
Proof.
  intros Hinv Hok Hlt Hn.
  assert (Ho : ∀ s, signals s = signals st →
                    once_only s x (FollowOnAbort c p)).
  { intros s Hs reg Hin Hcb. rewrite (listeners_of_signals st s) in Hin by done.
    by apply (Hok x reg Hin c p). }
  assert (Hnew : ∀ s, signals s = signals st → newly s (step st o) x).
  { intros s Hs. unfold newly. by rewrite (is_aborted_signals st s). }
  destruct (decide (constructs o = true)) as [Hc|Hc].
  { destruct Hn as [H1 H2].
    rewrite (ut_aborted _ _ (step_untouched st o Hc)) in H2 by done.
    congruence. }
  destruct o as [|k r|h ms|sigs|t s cb|p'|t n| |dt|id|t n ev strict|t];
    try (by destruct Hc); revert Hn Hnew; cbn [step]; intros Hn Hnew.
  - destruct Hn as [H1 H2].
    change (is_aborted (new_controller st).1 x = true) in H2.
    rewrite (proj1 (new_controller_view st)) in H2. congruence.
  - destruct (bool_decide (k ∈ owned st));
      [|by apply newly_refl in Hn].
    apply (on_gone _ _ (abort_onced st k r)); [by apply Ho|done].
  - destruct Hn as [H1 H2]. rewrite (is_aborted_signals st) in H2 by done.
    congruence.
  - revert Hn Hnew. unfold run_timer.
    destruct (filter (λ t, tm_id t = id) (timers st)) as [|t ts];
      [intros Hn; by apply newly_refl in Hn|].
    destruct (bool_decide (tm_due t ≤ now st)%Z);
      [|intros Hn; by apply newly_refl in Hn].
    unfold timeout_callback. intros Hn Hnew.
    apply (on_gone _ _ (abort_onced _ _ _)); [by apply Ho|by apply Hnew].
  - revert Hn Hnew. unfold dispatchEvent. intros Hn Hnew.
    apply (on_gone _ _ (foldl_abort_onced h_controller ev _ _)).
    + apply Ho. by destruct strict.
    + apply Hnew. by destruct strict.
  - destruct Hn as [H1 H2]. rewrite (is_aborted_signals st) in H2 by done.
    congruence.
Qed.

Lemma follow_listener_gone_run tr : ∀ s c p,
  inv s → all_regs follow_regs_ok s →
  c < length (signals s) → p < length (signals s) →
  (is_aborted s p = true → ¬ registered s p (FollowOnAbort c p)) →
  is_aborted (run s tr) p = true →
  ¬ registered (run s tr) p (FollowOnAbort c p).
Proof.
  induction tr as [|o tr IH]; intros s c p Hinv Hok Hc Hp HJ; simpl; [done|].
  pose proof (step_length s o Hinv) as Hlen.
  apply IH; [by apply inv_step| |lia|lia|].
  { apply all_regs_step; [apply follow_regs_made|done|done]. }
  intros Ha' Hr. destruct (is_aborted s p) eqn:Ha.
  - apply HJ; [done|]. by apply (registered_old s o p _ c).
  - by apply (step_onced_follow s o p c p Hinv Hok Hp (conj Ha Ha')).
Qed.

(** X20. [follow(parent)] with a parent that is not aborted: at any later
    time, whatever the program does, also when the caller aborts the
    returned controller, the listener of [follow] is registered on the
    parent exactly as long as the parent is not aborted. *)
Theorem follow_listener_until_parent_aborts (tr1 tr2 : list op) (p : sigid) :
  exists_signal (run init_state tr1) p →
  is_aborted (run init_state tr1) p = false →
  let st := run init_state tr1 in
  let c := (follow st p).2 in
  let st2 := run (hand_over c (follow st p).1) tr2 in
  registered st2 p (FollowOnAbort c p) ↔ is_aborted st2 p = false.
Proof.
  intros Hp Ha st c st2.
  assert (Hinv : inv st) by apply inv_run, inv_init.
  assert (Hc : c = length (signals st)) by apply follow_result.
  fold st in Hp, Ha. clearbody c. subst c.
  set (st1 := hand_over (length (signals st)) (follow st p).1) in *.
  assert (Hst1 : step st (OpFollow p) = st1) by (by apply step_follow).
  assert (Hinv1 : inv st1) by (rewrite <- Hst1; by apply inv_step).
  assert (Hok1 : all_regs follow_regs_ok st1).
  { rewrite <- Hst1. apply all_regs_step; [apply follow_regs_made|done|].
    apply all_regs_run; [apply follow_regs_made|apply inv_init|].
    apply all_regs_init. }
  destruct (follow_inv_init st p Hinv Hp Ha) as [(Hlt & _ & Hcase) _].
  fold st1 in Hlt, Hcase.
  destruct Hcase as [(_ & Hp1 & Hreg1)|(_ & Hp1 & _)].
  2: { pose proof (step_mono st (OpFollow p) p Hinv) as Hm.
       assert (is_aborted st1 p = is_aborted st p) as Heq.
       { rewrite <- Hst1.
         by apply (ut_aborted _ _ (step_untouched st (OpFollow p) eq_refl)). }
       congruence. }
  split.
  - intros Hr. destruct (is_aborted st2 p) eqn:E; [|done]. exfalso.
    apply (follow_listener_gone_run tr2 st1 (length (signals st)) p);
      try done.
    + pose proof (step_length st (OpFollow p) Hinv) as Hl.
      rewrite Hst1 in Hl. unfold exists_signal in Hp. lia.
    + congruence.
  - intros E. by apply run_keeps_follow.
Qed.

Lemma follow_listener_until_parent_aborts_witness :
  let st := run init_state [OpNewController] in
  let c := (follow st 0).2 in
  let st2 := run (hand_over c (follow st 0).1)
                 [OpAbort 1 (VStr "child"); OpAbort 0 (VStr "parent")] in
  registered st2 0 (FollowOnAbort c 0) ↔ is_aborted st2 0 = false.
Proof.
  apply (follow_listener_until_parent_aborts [OpNewController]
           [OpAbort 1 (VStr "child"); OpAbort 0 (VStr "parent")] 0).
  - vm_compute. lia.
  - reflexivity.
Defined.
